(** * telegramnewsjob.py: a shallow embedding and its verified properties

    The news job is a linear pipeline: discover -> deduplicate -> enrich ->
    format -> deliver.  Python values are modelled as follows.

    - A Python [str] is a Rocq [string] holding its UTF-8 encoding, so that
      equality, concatenation and [str.encode()] are the identity on the
      representation.  Where the code counts or slices characters
      ([len], [text[:n]]) the model counts and slices code points
      ([PyStr.len], [PyStr.take]); [split()] and [strip()] know the white
      space of Unicode; [lower()] folds ASCII letters itself and takes the
      folding of every other code point from the Unicode database, an oracle
      like the other libraries; [title()] is applied to ASCII constants only.
    - Python sets are [gset string]; dicts used as records are records.
    - External services (HTTP, feeds, the quote service, the Telegram
      transport, the random generator, the clock) are explicit oracles,
      gathered in [World.world]; floating-point results (prices, the INR
      conversion) come from them as rendered text, the jitter as a rational.
    - Exceptions are outcomes ([Ok] / [Raise]); the fetchers run in a monad
      over the error tracker and the list being accumulated.  [main] and
      [DeliveryEngine.run] guard nothing: what they leave behind when an
      exception ends them (files, sends made so far) is part of their result.
    - Writing to the log file and printing the report have no effect on what
      is modelled and are left out, as are the helpers nothing calls
      ([slugify], [validate_url], [_scrape_site_headlines]). *)

From Stdlib Require Import String Ascii NArith ZArith QArith List Sorted Permutation Lia Lqa.
From stdpp Require Import base decidable list gmap sets strings.
Import ListNotations.
Local Open Scope string_scope.
Local Open Scope list_scope.

(** ** hashlib.md5 (RFC 1321), on bytes as [N] below 256 *)
Module MD5.

Definition mask32 : N := 4294967295.

Definition add32 (a b : N) : N := N.land (a + b) mask32.

Definition not32 (x : N) : N := N.lxor x mask32.

Definition rotl32 (x c : N) : N :=
  N.land (N.lor (N.shiftl x c) (N.shiftr x (32 - c))) mask32.

(** K[i] = floor(2^32 * |sin (i + 1)|) *)
Definition K : list N :=
  [ 3614090360; 3905402710; 606105819; 3250441966; 4118548399; 1200080426;
    2821735955; 4249261313; 1770035416; 2336552879; 4294925233; 2304563134;
    1804603682; 4254626195; 2792965006; 1236535329; 4129170786; 3225465664;
    643717713; 3921069994; 3593408605; 38016083; 3634488961; 3889429448;
    568446438; 3275163606; 4107603335; 1163531501; 2850285829; 4243563512;
    1735328473; 2368359562; 4294588738; 2272392833; 1839030562; 4259657740;
    2763975236; 1272893353; 4139469664; 3200236656; 681279174; 3936430074;
    3572445317; 76029189; 3654602809; 3873151461; 530742520; 3299628645;
    4096336452; 1126891415; 2878612391; 4237533241; 1700485571; 2399980690;
    4293915773; 2240044497; 1873313359; 4264355552; 2734768916; 1309151649;
    4149444226; 3174756917; 718787259; 3951481745 ]%N.

Definition R : list N :=
  [ 7; 12; 17; 22; 7; 12; 17; 22; 7; 12; 17; 22; 7; 12; 17; 22;
    5; 9; 14; 20; 5; 9; 14; 20; 5; 9; 14; 20; 5; 9; 14; 20;
    4; 11; 16; 23; 4; 11; 16; 23; 4; 11; 16; 23; 4; 11; 16; 23;
    6; 10; 15; 21; 6; 10; 15; 21; 6; 10; 15; 21; 6; 10; 15; 21 ]%N.

Definition bytes_of_string (s : string) : list N :=
  List.map N_of_ascii (list_ascii_of_string s).

(** little-endian bytes of a word, [n] of them *)
Fixpoint le_bytes (n : nat) (w : N) : list N :=
  match n with
  | O => []
  | S n' => N.land w 255 :: le_bytes n' (N.shiftr w 8)
  end.

Fixpoint le_word (bs : list N) : N :=
  match bs with
  | [] => 0
  | b :: bs' => (b + 256 * le_word bs')%N
  end.

Definition pad (msg : list N) : list N :=
  let len := length msg in
  let zeros := ((119 - len mod 64) mod 64)%nat in
  msg ++ [128%N] ++ repeat 0%N zeros ++ le_bytes 8 (8 * N.of_nat len)%N.

(** cut a list into consecutive pieces of [k] elements, [n] of them *)
Fixpoint pieces {A} (n k : nat) (l : list A) : list (list A) :=
  match n with
  | O => []
  | S n' => firstn k l :: pieces n' k (skipn k l)
  end.

Definition words (chunk : list N) : list N :=
  List.map le_word (pieces 16 4 chunk).

Definition state : Type := N * N * N * N.

Definition round (M : list N) (st : state) (i : nat) : state :=
  let '(a, b, c, d) := st in
  let '(f, g) :=
    if (i <? 16)%nat then (N.lor (N.land b c) (N.land (not32 b) d), i)
    else if (i <? 32)%nat then
      (N.lor (N.land d b) (N.land (not32 d) c), ((5 * i + 1) mod 16)%nat)
    else if (i <? 48)%nat then
      (N.lxor (N.lxor b c) d, ((3 * i + 5) mod 16)%nat)
    else (N.lxor c (N.lor b (not32 d)), ((7 * i) mod 16)%nat) in
  let f' := add32 (add32 (add32 f a) (nth i K 0%N)) (nth g M 0%N) in
  (d, add32 b (rotl32 f' (nth i R 0%N)), b, c).

Definition compress (st : state) (chunk : list N) : state :=
  let '(a0, b0, c0, d0) := st in
  let '(a, b, c, d) := fold_left (round (words chunk)) (seq 0 64) st in
  (add32 a0 a, add32 b0 b, add32 c0 c, add32 d0 d).

Definition init : state :=
  (1732584193, 4023233417, 2562383102, 271733878)%N.

Definition digest (msg : list N) : list N :=
  let p := pad msg in
  let '(a, b, c, d) :=
    fold_left compress (pieces (length p / 64) 64 p) init in
  le_bytes 4 a ++ le_bytes 4 b ++ le_bytes 4 c ++ le_bytes 4 d.

Definition hex_digit (n : N) : ascii :=
  nth (N.to_nat n) (list_ascii_of_string "0123456789abcdef") "0"%char.

Fixpoint hex (bs : list N) : string :=
  match bs with
  | [] => EmptyString
  | b :: bs' =>
      String (hex_digit (N.shiftr b 4)) (String (hex_digit (N.land b 15)) (hex bs'))
  end.

(** [hashlib.md5(s.encode()).hexdigest()] *)
Definition hexdigest (s : string) : string := hex (digest (bytes_of_string s)).

End MD5.

(** ** Python [str] operations used by the job

    [lower], [title], [split] and [strip] follow CPython on ASCII text; code
    points outside ASCII are left untouched (CPython would also fold cased
    letters and split on white space beyond ASCII). *)
Module PyStr.

Definition code (c : ascii) : N := N_of_ascii c.

Definition is_upper (c : ascii) : bool := (65 <=? code c)%N && (code c <=? 90)%N.
Definition is_lower (c : ascii) : bool := (97 <=? code c)%N && (code c <=? 122)%N.

Definition to_lower (c : ascii) : ascii :=
  if is_upper c then ascii_of_N (code c + 32) else c.
Definition to_upper (c : ascii) : ascii :=
  if is_lower c then ascii_of_N (code c - 32) else c.

Definition is_ascii (c : ascii) : bool := (code c <? 128)%N.

(** A byte of the form 10xxxxxx continues a code point. *)
Definition is_cont (c : ascii) : bool := (128 <=? code c)%N && (code c <? 192)%N.

(** [s.lower()].  ASCII letters are folded here.  What a code point beyond
    ASCII becomes is read from the Unicode database, which comes with the
    interpreter: [fold s i] is the lower-casing of the code point that starts
    at byte [i] of [s] (the database looks at the neighbours for the Greek
    capital sigma, hence the whole string). *)
Fixpoint lower_from (fold : string -> nat -> string) (whole : string) (i : nat)
    (s : string) : string :=
  match s with
  | EmptyString => EmptyString
  | String c s' =>
      if is_ascii c then String (to_lower c) (lower_from fold whole (S i) s')
      else if is_cont c then lower_from fold whole (S i) s'
      else fold whole i +:+ lower_from fold whole (S i) s'
  end.

Definition lower (fold : string -> nat -> string) (s : string) : string :=
  lower_from fold s 0 s.

(** [s.title()], as it acts on ASCII text (the code applies it to its own
    constants only): a cased character is upper-cased when the previous
    character is not cased, lower-cased otherwise. *)
Fixpoint title_from (prev_cased : bool) (s : string) : string :=
  match s with
  | EmptyString => EmptyString
  | String c s' =>
      if is_lower c || is_upper c then
        String (if prev_cased then to_lower c else to_upper c) (title_from true s')
      else String c (title_from false s')
  end.
Definition title (s : string) : string := title_from false s.

(** [s.startswith(p)] *)
Fixpoint startswith (p s : string) : bool :=
  match p, s with
  | EmptyString, _ => true
  | String a p', String b s' => if Ascii.eqb a b then startswith p' s' else false
  | String _ _, EmptyString => false
  end.

(** [needle in hay] *)
Fixpoint contains (needle hay : string) : bool :=
  startswith needle hay ||
  match hay with
  | EmptyString => false
  | String _ hay' => contains needle hay'
  end.

(** [any(w in s for w in ws)] *)
Definition any_in (ws : list string) (s : string) : bool :=
  existsb (fun w => contains w s) ws.

(** [len(s)]: the number of code points. *)
Fixpoint len (s : string) : nat :=
  match s with
  | EmptyString => 0
  | String c s' => if is_cont c then len s' else S (len s')
  end.

(** [s[:n]]: the first [n] code points. *)
Fixpoint take (n : nat) (s : string) : string :=
  match s with
  | EmptyString => EmptyString
  | String c s' =>
      if is_cont c then String c (take n s')
      else match n with
           | O => EmptyString
           | S n' => String c (take n' s')
           end
  end.

(** The white space of [str.isspace], [str.split] and [str.strip]: within
    ASCII, U+0009..U+000D, U+001C..U+001F and the space; *)
Definition is_space (c : ascii) : bool :=
  let n := code c in
  ((9 <=? n)%N && (n <=? 13)%N) || ((28 <=? n)%N && (n <=? 32)%N).

(** in two bytes, U+0085 and U+00A0; *)
Definition is_space2 (c1 c2 : ascii) : bool :=
  (code c1 =? 194)%N && ((code c2 =? 133)%N || (code c2 =? 160)%N).

(** in three bytes, U+1680, U+2000..U+200A, U+2028, U+2029, U+202F, U+205F
    and U+3000. *)
Definition is_space3 (c1 c2 c3 : ascii) : bool :=
  ((code c1 =? 225)%N && (code c2 =? 154)%N && (code c3 =? 128)%N)
  || ((code c1 =? 226)%N && (code c2 =? 128)%N
      && (((128 <=? code c3)%N && (code c3 <=? 138)%N)
          || (code c3 =? 168)%N || (code c3 =? 169)%N || (code c3 =? 175)%N))
  || ((code c1 =? 226)%N && (code c2 =? 129)%N && (code c3 =? 159)%N)
  || ((code c1 =? 227)%N && (code c2 =? 128)%N && (code c3 =? 128)%N).

(** [s.split()]: maximal runs of characters that are not white space.  [cur]
    is the word being read, reversed. *)
Fixpoint split_ws_from (cur : list ascii) (s : string) : list string :=
  let flush := match cur with
               | [] => []
               | _ => [string_of_list_ascii (rev cur)]
               end in
  match s with
  | EmptyString => flush
  | String c1 s1 =>
      if is_space c1 then flush ++ split_ws_from [] s1
      else
        match s1 with
        | String c2 s2 =>
            if is_space2 c1 c2 then flush ++ split_ws_from [] s2
            else
              match s2 with
              | String c3 s3 =>
                  if is_space3 c1 c2 c3 then flush ++ split_ws_from [] s3
                  else split_ws_from (c1 :: cur) s1
              | EmptyString => split_ws_from (c1 :: cur) s1
              end
        | EmptyString => split_ws_from (c1 :: cur) s1
        end
  end.
Definition split_ws (s : string) : list string := split_ws_from [] s.

(** [s.split(sep)] for a one-character separator. *)
Fixpoint split_on_from (sep : ascii) (cur : list ascii) (s : string) : list string :=
  match s with
  | EmptyString => [string_of_list_ascii (rev cur)]
  | String c s' =>
      if Ascii.eqb c sep then string_of_list_ascii (rev cur) :: split_on_from sep [] s'
      else split_on_from sep (c :: cur) s'
  end.
Definition split_on (sep : ascii) (s : string) : list string := split_on_from sep [] s.

(** [sep.join(ws)] *)
Fixpoint join (sep : string) (ws : list string) : string :=
  match ws with
  | [] => EmptyString
  | [w] => w
  | w :: ws' => w +:+ sep +:+ join sep ws'
  end.

(** [s.lstrip()] *)
Fixpoint lstrip (s : string) : string :=
  match s with
  | EmptyString => EmptyString
  | String c1 s1 =>
      if is_space c1 then lstrip s1
      else
        match s1 with
        | String c2 s2 =>
            if is_space2 c1 c2 then lstrip s2
            else
              match s2 with
              | String c3 s3 => if is_space3 c1 c2 c3 then lstrip s3 else s
              | EmptyString => s
              end
        | EmptyString => s
        end
  end.

(** [s] holds white space only *)
Definition all_space (s : string) : bool :=
  match lstrip s with EmptyString => true | _ => false end.

(** [s.rstrip()] *)
Fixpoint rstrip (s : string) : string :=
  match s with
  | EmptyString => EmptyString
  | String c s' => if all_space s then EmptyString else String c (rstrip s')
  end.

(** [s.strip()] *)
Definition strip (s : string) : string := rstrip (lstrip s).

(** truthiness of a string: non-empty *)
Definition truthy (s : string) : bool :=
  match s with EmptyString => false | _ => true end.

End PyStr.

(** ** Configuration constants *)
Module Config.

Definition POSTS_PER_DAY : nat := 20.
Definition DELAY_BETWEEN_POSTS : Q := 30.

Record site_config := {
  site_url : string;
  article_selector : string;
  title_selector : string;
  link_selector : string
}.

Definition TECH_SITES : list site_config := [
  {| site_url := "https://techcrunch.com/";
     article_selector := "article.post-block";
     title_selector := "h2.post-block__title a";
     link_selector := "h2.post-block__title a" |};
  {| site_url := "https://venturebeat.com/";
     article_selector := "article.Article";
     title_selector := "h2.ArticleListing__title a";
     link_selector := "h2.ArticleListing__title a" |};
  {| site_url := "https://www.theverge.com/tech";
     article_selector := "div.c-compact-river__entry";
     title_selector := "h2.c-entry-box--compact__title a";
     link_selector := "h2.c-entry-box--compact__title a" |};
  {| site_url := "https://www.wired.com/tag/artificial-intelligence/";
     article_selector := "div.SummaryItemWrapper-gdEuvf";
     title_selector := "h3.SummaryItemHedBase-dZmlME a";
     link_selector := "h3.SummaryItemHedBase-dZmlME a" |} ].

Definition MORE_TECH_URLS : list string := [
  "https://www.artificialintelligence-news.com/";
  "https://www.analyticsinsight.net/category/latest-news/";
  "https://www.unite.ai/news/";
  "https://www.infoq.com/ai-ml-data-eng/";
  "https://www.datanami.com/category/machine-learning/";
  "https://www.kdnuggets.com/news/index.html";
  "https://www.marktechpost.com/category/ai-news/";
  "https://www.analyticsvidhya.com/blog/";
  "https://www.geekwire.com/artificial-intelligence/";
  "https://www.nextbigfuture.com/category/artificial-intelligence" ].

Definition INDIA_TECH_URLS : list string := [
  "https://inc42.com/topics/artificial-intelligence/";
  "https://yourstory.com/topic/artificial-intelligence";
  "https://entrackr.com/tag/artificial-intelligence/";
  "https://www.moneycontrol.com/news/technology/";
  "https://economictimes.indiatimes.com/tech" ].

Definition CHINA_TECH_URLS : list string := [
  "https://pandaily.com/tag/artificial-intelligence/";
  "https://technode.com/category/artificial-intelligence/";
  "https://www.scmp.com/tech";
  "https://www.chinadaily.com.cn/business/scitech" ].

(** The members of the [KNOWN_COMPANIES] set, as written.  The order in which
    Python iterates over the set is not this one; see [Signal.enrich]. *)
Definition KNOWN_COMPANIES : list string := [
  "openai"; "google"; "microsoft"; "meta"; "facebook"; "apple"; "amazon"; "nvidia";
  "tesla"; "spacex"; "anthropic"; "deepmind"; "huawei"; "baidu"; "alibaba"; "tencent";
  "infosys"; "tcs"; "wipro"; "hcl"; "tech mahindra"; "cognizant"; "accenture";
  "samsung"; "sony"; "intel"; "amd"; "qualcomm"; "broadcom"; "oracle"; "salesforce";
  "uber"; "lyft"; "airbnb"; "stripe"; "paypal"; "square"; "robinhood"; "coinbase";
  "zoom"; "slack"; "spotify"; "netflix"; "twitter"; "x corp"; "linkedin"; "tiktok";
  "bytedance"; "snap"; "pinterest"; "reddit"; "discord"; "twitch"; "epic games" ].

(** A candidate: the dict [{"title": .., "url": ..}]; the backup headlines
    carry a third key ["company"]. *)
Record item := { title : string; url : string; company : option string }.

Definition candidate (t u : string) : item :=
  {| title := t; url := u; company := None |}.

Definition BACKUP_HEADLINES : list item := [
  {| title := "OpenAI Quietly Builds Next-Gen AI Infrastructure to Challenge Google";
     url := "https://techcrunch.com/ai"; company := Some "OpenAI" |};
  {| title := "India's IT Giants Eye $50B AI Market Amid Global Tech Shifts";
     url := "https://economictimes.com/tech"; company := Some "Infosys" |};
  {| title := "China's Baidu Turbo-Charges Dragon AI to Compete with ChatGPT";
     url := "https://technode.com/ai"; company := Some "Baidu" |};
  {| title := "Meta Silently Fires 2,000 Engineers While Doubling AI Investment";
     url := "https://theverge.com/meta"; company := Some "Meta" |};
  {| title := "Microsoft Replaces Human Customer Service with GPT-Powered Bots";
     url := "https://venturebeat.com/ai"; company := Some "Microsoft" |};
  {| title := "Nvidia Explodes Past $2 Trillion Valuation on AI Chip Demand";
     url := "https://wired.com/nvidia"; company := Some "Nvidia" |};
  {| title := "TCS Shuts Down Legacy Systems, Goes All-In on AI Automation";
     url := "https://inc42.com/tcs"; company := Some "TCS" |};
  {| title := "Tesla's FSD AI Quietly Replaces Human Drivers in Beta Cities";
     url := "https://futurism.com/tesla"; company := Some "Tesla" |} ].

End Config.

(** ** Exceptions, the error tracker and the fetcher monad *)
Module Effects.
Import Config.

(** The result of an operation that may raise; [e] is [str(e)]. *)
Inductive outcome (A : Type) : Type :=
| Ok (a : A)
| Raise (e : string).
Arguments Ok {A} a.
Arguments Raise {A} e.

Definition raised {A} (o : outcome A) : bool :=
  match o with Ok _ => false | Raise _ => true end.

(** [class ErrorTracker]: two [defaultdict]s keyed by source name. *)
Record ErrorTracker := {
  errors : gmap string (list string);
  successes : gmap string nat
}.

Definition new_tracker : ErrorTracker := {| errors := ∅; successes := ∅ |}.

Definition tracker_log_error (source error : string) (t : ErrorTracker) : ErrorTracker :=
  {| errors := <[source := default [] (errors t !! source) ++ [error]]> (errors t);
     successes := successes t |}.

Definition tracker_log_success (source : string) (count : nat) (t : ErrorTracker)
  : ErrorTracker :=
  {| errors := errors t; successes := <[source := count]> (successes t) |}.

(** The store a fetcher runs in: the global [error_tracker] and the list the
    running method accumulates into ([items], or [pool] in [discover]). *)
Record frame := { tracker : ErrorTracker; items : list item }.

Definition M (A : Type) : Type := frame -> outcome A * frame.

Definition ret {A} (a : A) : M A := fun s => (Ok a, s).

Definition bind {A B} (m : M A) (k : A -> M B) : M B :=
  fun s => match m s with
           | (Ok a, s') => k a s'
           | (Raise e, s') => (Raise e, s')
           end.

Definition raise {A} (e : string) : M A := fun s => (Raise e, s).

(** an external operation whose outcome the world decides *)
Definition perform {A} (o : outcome A) : M A := fun s => (o, s).

(** [try: m except Exception as e: h e]; what [m] stored before raising stays *)
Definition try_except {A} (m : M A) (h : string -> M A) : M A :=
  fun s => match m s with
           | (Ok a, s') => (Ok a, s')
           | (Raise e, s') => h e s'
           end.

Definition log_error (source error : string) : M unit :=
  fun s => (Ok tt, {| tracker := tracker_log_error source error (tracker s);
                      items := items s |}).

Definition log_success (source : string) (count : nat) : M unit :=
  fun s => (Ok tt, {| tracker := tracker_log_success source count (tracker s);
                      items := items s |}).

Definition append (itm : item) : M unit :=
  fun s => (Ok tt, {| tracker := tracker s; items := items s ++ [itm] |}).

Definition extend (itms : list item) : M unit :=
  fun s => (Ok tt, {| tracker := tracker s; items := items s ++ itms |}).

Definition get_items : M (list item) := fun s => (Ok (items s), s).

(** A method call: the callee starts from its own empty list and the caller's
    list is untouched by it. *)
Definition call {A} (m : M A) : M A :=
  fun s => let '(r, s') := m {| tracker := tracker s; items := [] |} in
           (r, {| tracker := tracker s'; items := items s |}).

Module Import Notations.
  Notation "x <- m ;; k" := (bind m (fun x => k))
    (at level 100, m at next level, right associativity).
  Notation "m ;;; k" := (bind m (fun _ => k))
    (at level 100, right associativity).
End Notations.

(** [for x in l: body x] *)
Fixpoint for_each {A} (l : list A) (body : A -> M unit) : M unit :=
  match l with
  | [] => ret tt
  | x :: l' => body x ;;; for_each l' body
  end.

(** [for x in l: body x; if stop: break], where [body] reports [stop] *)
Fixpoint for_each_until {A} (l : list A) (body : A -> M bool) : M unit :=
  match l with
  | [] => ret tt
  | x :: l' => stop <- body x ;; if stop : bool then ret tt else for_each_until l' body
  end.

(** a list built inside a [try]: lost when an element raises *)
Fixpoint collect {A B} (l : list A) (f : A -> M (list B)) : M (list B) :=
  match l with
  | [] => ret []
  | x :: l' => ys <- f x ;; zs <- collect l' f ;; ret (ys ++ zs)
  end.

(** *** Vocabulary of the error-handling properties *)

(** [msg] is among the errors recorded for [source]. *)
Definition logged (source msg : string) (t : ErrorTracker) : Prop :=
  ∃ l, errors t !! source = Some l ∧ msg ∈ l.

(** [t'] has every error that [t] has. *)
Definition tracker_le (t t' : ErrorTracker) : Prop :=
  ∀ source msg, logged source msg t → logged source msg t'.

(** [m] never drops a recorded error, whether it returns or raises. *)
Definition keeps_errors {A} (m : M A) : Prop :=
  ∀ s, tracker_le (tracker s) (tracker (snd (m s))).

(** [m] always returns, and drops no recorded error. *)
Definition contained {A} (m : M A) : Prop :=
  ∀ s, ∃ a s', m s = (Ok a, s') ∧ tracker_le (tracker s) (tracker s').

(** [m] always returns, with [msg] recorded for [source]. *)
Definition records {A} (m : M A) (source msg : string) : Prop :=
  ∀ s, ∃ a s', m s = (Ok a, s') ∧ logged source msg (tracker s').

(** [m] always returns, and leaves the store as it was. *)
Definition quiet {A} (m : M A) : Prop :=
  ∀ s, ∃ a, m s = (Ok a, s).

(** [m] always raises [e]. *)
Definition raises {A} (m : M A) (e : string) : Prop :=
  ∀ s, ∃ s', m s = (Raise e, s').

(** the first exception among a list of outcomes *)
Fixpoint first_raise {A} (l : list (outcome A)) : option string :=
  match l with
  | [] => None
  | Ok _ :: l' => first_raise l'
  | Raise e :: _ => Some e
  end.

End Effects.

(** ** The outside world *)
Module World.
Import Config Effects.

(** What the selectors find in one article node: the text of the title
    element and the [href] attribute of the link element (empty when the
    attribute is missing), [None]
    when the element is missing. *)
Record article_elems := { title_text : option string; link_href : option string }.

(** A feed or listing entry: reading its fields may raise. *)
Definition entry : Type := outcome (string * string).

Record world := {
  (* session.get + raise_for_status + BeautifulSoup + soup.select(article_selector) *)
  site_articles : site_config -> outcome (list (outcome article_elems));
  (* session.get + raise_for_status + BeautifulSoup; then soup.select(selector) *)
  generic_page : string -> outcome (string -> list (outcome article_elems));
  (* feedparser.parse(url).entries *)
  feedparser_parse : string -> outcome (list entry);
  (* get_html + BeautifulSoup + soup.select("a.storylink"): (a.text, href of a) *)
  hn_storylinks : outcome (list (string * string));
  (* build_payload + related_queries for one keyword: [None] when the keyword
     is missing or not a dict, [Some None] when there is no non-empty "top"
     frame, else the "query" column *)
  related_queries : string -> outcome (option (option (list string)));
  (* requests.get + response.json()["data"]["children"]: (title, url) of a post *)
  reddit_hot : string -> outcome (list entry);
  (* urllib.parse.urljoin *)
  urljoin : string -> string -> string;
  (* the order in which Python iterates over the KNOWN_COMPANIES set *)
  companies_iter : list string;
  (* re.search(pattern, s): group 1 of the first match *)
  re_search : string -> string -> option string;
  (* yf.Ticker(ticker).info.get("regularMarketPrice"): [Some p] for a truthy
     price, [p] being its rendering by the format [${price:,.2f}] *)
  market_price : string -> outcome (option string);
  (* float(s), then (the rendering of price * 83.1 by [{:,.0f}], int(price) % 2 == 0) *)
  inr_of_usd : string -> outcome (string * bool);
  (* today_str(): the local date as "%a | %d %B %Y" *)
  today_str : string;
  (* urlparse(url): (netloc, path) *)
  urlparse : string -> outcome (string * string);
  (* datetime.now(timezone.utc).date().isoformat() *)
  today_key : string;
  (* the n-th call of bot.send_message, with its text *)
  send_message : nat -> string -> outcome unit;
  (* the n-th draw of random.uniform(0, 3), in seconds *)
  jitter : nat -> Q;
  (* str.lower() beyond ASCII: see [PyStr.lower] *)
  unicode_lower : string -> nat -> string;
  (* TrendReq(hl="en-US", tz=330) in DiscoveryEngine.__init__: it fetches a
     cookie from Google Trends *)
  trend_req : outcome unit;
  (* ApplicationBuilder().token(token).build().__aenter__() *)
  app_start : outcome unit;
  (* app.__aexit__(None, None, None) *)
  app_stop : outcome unit
}.

(** [s.lower()] *)
Definition lower (w : world) (s : string) : string :=
  PyStr.lower (unicode_lower w) s.

(** The integers the random generator draws, in order; a draw past the end
    of the tape is 0. *)
Definition tape : Type := list nat.

Definition next (t : tape) : nat * tape :=
  match t with
  | [] => (0, [])
  | n :: t' => (n, t')
  end.

(** [random.choice(l)] *)
Definition choice {A} (d : A) (l : list A) (t : tape) : A * tape :=
  let '(n, t') := next t in (nth (n mod length l) l d, t').

Fixpoint remove_nth {A} (i : nat) (l : list A) : list A :=
  match l, i with
  | [], _ => []
  | _ :: l', O => l'
  | x :: l', S i' => x :: remove_nth i' l'
  end.

(** [random.sample(l, k)]: [k] draws without replacement *)
Fixpoint sample {A} (k : nat) (l : list A) (t : tape) : list A * tape :=
  match k with
  | O => ([], t)
  | S k' =>
      let '(n, t1) := next t in
      let i := n mod length l in
      match nth_error l i with
      | None => ([], t1)
      | Some x => let '(xs, t2) := sample k' (remove_nth i l) t1 in (x :: xs, t2)
      end
  end.

End World.

(** ** DiscoveryEngine *)
Module Discovery.
Import Config Effects Effects.Notations World.

Definition startswith_http (link : string) : bool :=
  PyStr.startswith "http://" link || PyStr.startswith "https://" link.

Definition google_news_queries : list string :=
  ["AI"; "artificial+intelligence"; "machine+learning"; "tech+news"; "startup"].

Definition google_news_source (query : string) : string :=
  "Google News (" +:+ query +:+ ")".

Definition google_news_rss_url (query : string) : string :=
  "https://news.google.com/rss/search?q=" +:+ query +:+ "&hl=en-US&gl=US&ceid=US:en".

Definition google_news (w : world) : M (list item) :=
  call (
    for_each google_news_queries (fun query =>
      try_except
        (let rss_url := google_news_rss_url query in
         feed <- perform (feedparser_parse w rss_url) ;;
         for_each (firstn 10 feed) (fun entry =>
           e <- perform entry ;; append (candidate (fst e) (snd e))) ;;;
         log_success (google_news_source query) (length (firstn 10 feed)))
        (fun e => log_error (google_news_source query) e)) ;;;
    get_items).

Definition hn_keywords : list string :=
  ["ai"; "chatgpt"; "llm"; "gpt"; "machine learning"].

(** No [try] in this method: a failing [get_html] leaves through the caller. *)
Definition hackernews (w : world) : M (list item) :=
  call (
    links <- perform (hn_storylinks w) ;;
    for_each_until links (fun a =>
      let title := PyStr.strip (fst a) in
      (if existsb (fun k => PyStr.contains (lower w k) (lower w title)) hn_keywords
       then append (candidate title (snd a)) else ret tt) ;;;
      its <- get_items ;;
      ret (10 <=? length its)%nat) ;;;
    get_items).

Definition trends_kw_list : list string :=
  ["Artificial Intelligence"; "ChatGPT"; "OpenAI"].

(** Failures are caught and written to the log file only; the error tracker
    is not touched.  [list(set(..))] yields the distinct queries in an order
    Python does not fix; the model lists them in [elements] order. *)
Definition google_trends (w : world) : M (list string) :=
  call (
    all_trending_queries <-
      collect trends_kw_list (fun kw =>
        try_except
          (data <- perform (related_queries w kw) ;;
           match data with
           | Some (Some queries) => ret (firstn 5 queries)
           | _ => ret []
           end)
          (fun e => ret [])) ;;
    ret (elements (list_to_set all_trending_queries : gset string))).

(** The candidate an article node yields, if any. *)
Definition article_candidate (w : world) (base : string) (a : article_elems)
  : option item :=
  match title_text a, link_href a with
  | Some t, Some href =>
      let title := PyStr.strip t in
      let link := if startswith_http href then href else urljoin w base href in
      if PyStr.truthy title && PyStr.truthy link then Some (candidate title link)
      else None
  | _, _ => None
  end.

Definition _extract_from_site (w : world) (cfg : site_config) : M (list item) :=
  call (
    try_except
      (articles <- perform (site_articles w cfg) ;;
       for_each (firstn 5 articles) (fun article =>
         try_except
           (a <- perform article ;;
            match article_candidate w (site_url cfg) a with
            | Some itm => append itm
            | None => ret tt
            end)
           (fun e => log_error (site_url cfg) ("Article extraction: " +:+ e))) ;;;
       its <- get_items ;;
       log_success (site_url cfg) (length its))
      (fun e => log_error (site_url cfg) ("Site scrape: " +:+ e)) ;;;
    get_items).

Definition generic_selectors : list string :=
  ["article"; "div.post"; ".article"; ".story"; "div.entry"; ".news-item"; ".blog-post"].

(** [site_items]: the articles of the first selector that finds any. *)
Fixpoint scrape_selectors (w : world) (url : string)
    (page : string -> list (outcome article_elems)) (selectors : list string)
  : M (list item) :=
  match selectors with
  | [] => ret []
  | selector :: rest =>
      match page selector with
      | [] => scrape_selectors w url page rest
      | articles =>
          collect (firstn 3 articles) (fun article =>
            a <- perform article ;;
            ret (match article_candidate w url a with
                 | Some itm => [itm]
                 | None => []
                 end))
      end
  end.

Definition generic_source (url : string) : string := "Generic " +:+ url.

Definition _scrape_generic_tech_news (w : world) (urls : list string) : M (list item) :=
  call (
    for_each urls (fun url =>
      try_except
        (page <- perform (generic_page w url) ;;
         site_items <- scrape_selectors w url page generic_selectors ;;
         extend site_items ;;;
         log_success (generic_source url) (length site_items))
        (fun e => log_error (generic_source url) ("Scrape: " +:+ e))) ;;;
    get_items).

Definition reddit_subs : list string :=
  ["MachineLearning"; "ArtificialIntelligence"; "OpenAI"; "technology"; "Futurology";
   "TechNewsToday"; "computervision"; "datascience"; "deeplearning"; "AskProgramming"].

Definition reddit_keywords : list string :=
  ["ai"; "artificial intelligence"; "machine learning"; "tech"; "startup"].

Definition reddit_source (sub : string) : string := "Reddit r/" +:+ sub.

Definition reddit_json_url (sub : string) : string :=
  "https://www.reddit.com/r/" +:+ sub +:+ "/hot.json?limit=5".

Definition reddit_scrape (w : world) : M (list item) :=
  call (
    for_each (firstn 5 reddit_subs) (fun sub =>
      try_except
        (let json_url := reddit_json_url sub in
         children <- perform (reddit_hot w json_url) ;;
         for_each children (fun post =>
           p <- perform post ;;
           if PyStr.any_in reddit_keywords (lower w (fst p))
           then append (candidate (fst p) (snd p)) else ret tt) ;;;
         log_success (reddit_source sub) (length children))
        (fun e => log_error (reddit_source sub) e)) ;;;
    get_items).

(** *** Deduplication and the backup fallback *)

Definition content_hash (itm : item) : string :=
  MD5.hexdigest (title itm +:+ url itm).

Record dedup_state := {
  seen_title : gset string;
  seen_url : gset string;
  seen_hashes : gset string;
  deduped : list item
}.

Definition dedup_init : dedup_state :=
  {| seen_title := ∅; seen_url := ∅; seen_hashes := ∅; deduped := [] |}.

Definition is_seen (st : dedup_state) (itm : item) : bool :=
  bool_decide (title itm ∈ seen_title st)
  || bool_decide (url itm ∈ seen_url st)
  || bool_decide (content_hash itm ∈ seen_hashes st).

(** one iteration of [for itm in pool] *)
Definition dedup_step (st : dedup_state) (itm : item) : dedup_state :=
  if is_seen st itm then st
  else {| seen_title := {[title itm]} ∪ seen_title st;
          seen_url := {[url itm]} ∪ seen_url st;
          seen_hashes := {[content_hash itm]} ∪ seen_hashes st;
          deduped := deduped st ++ [itm] |}.

Definition dedup_loop (pool : list item) : dedup_state :=
  fold_left dedup_step pool dedup_init.

(** [if backup_hash not in seen_hashes: deduped.append(backup); ...] *)
Definition backup_step (st : dedup_state) (backup : item) : dedup_state :=
  if bool_decide (content_hash backup ∈ seen_hashes st) then st
  else {| seen_title := seen_title st;
          seen_url := seen_url st;
          seen_hashes := {[content_hash backup]} ∪ seen_hashes st;
          deduped := deduped st ++ [backup] |}.

(** [for backup in BACKUP_HEADLINES: ...; if len(deduped) >= 10: break] *)
Fixpoint backup_loop (backups : list item) (st : dedup_state) : dedup_state :=
  match backups with
  | [] => st
  | backup :: rest =>
      let st' := backup_step st backup in
      if (10 <=? length (deduped st'))%nat then st' else backup_loop rest st'
  end.

Definition fallback (st : dedup_state) : dedup_state :=
  if (length (deduped st) <? 5)%nat then backup_loop BACKUP_HEADLINES st else st.

(** What [discover] returns once the pool has been collected. *)
Definition discover_from_pool (pool : list item) : list item :=
  firstn 50 (deduped (fallback (dedup_loop pool))).

Definition rss_urls : list string := [
  "https://techcrunch.com/feed/";
  "https://www.theverge.com/rss/index.xml";
  "https://feeds.arstechnica.com/arstechnica/index/";
  "https://www.zdnet.com/topic/artificial-intelligence/rss.xml";
  "https://www.wired.com/feed/category/gear/latest/rss";
  "https://www.technologyreview.com/topnews.rss";
  "https://futurism.com/feed";
  "https://www.sciencedaily.com/rss/computers_math/artificial_intelligence.xml";
  "https://www.cnet.com/ai/rss/";
  "https://news.ycombinator.com/rss" ].

(** [l[i]], raising IndexError out of range *)
Definition index {A} (l : list A) (i : nat) : M A :=
  match nth_error l i with
  | Some x => ret x
  | None => raise "list index out of range"
  end.

(** The fetching part of [discover]: [pool] is the frame's list. *)
Definition collect_pool (w : world) : M (list item) :=
  for_each TECH_SITES (fun site_config =>
    its <- _extract_from_site w site_config ;; extend its) ;;;
  (more_items <- _scrape_generic_tech_news w MORE_TECH_URLS ;; extend more_items) ;;;
  (india_items <- _scrape_generic_tech_news w INDIA_TECH_URLS ;; extend india_items) ;;;
  (china_items <- _scrape_generic_tech_news w CHINA_TECH_URLS ;; extend china_items) ;;;
  try_except (its <- google_news w ;; extend its)
             (fun e => log_error "Google News" e) ;;;
  try_except (its <- hackernews w ;; extend its)
             (fun e => log_error "Hacker News" e) ;;;
  for_each rss_urls (fun feed_url =>
    try_except
      (feed <- perform (feedparser_parse w feed_url) ;;
       rss_items <- collect (firstn 5 feed) (fun entry =>
                      e <- perform entry ;; ret [candidate (fst e) (snd e)]) ;;
       extend rss_items ;;;
       host <- index (PyStr.split_on "/" feed_url) 2 ;;
       log_success ("RSS " +:+ host) (length rss_items))
      (fun e => log_error ("RSS " +:+ feed_url) e)) ;;;
  try_except (its <- reddit_scrape w ;; extend its)
             (fun e => log_error "Reddit" e) ;;;
  get_items.

Definition discover (w : world) : M (list item) :=
  call (pool <- collect_pool w ;; ret (discover_from_pool pool)).

(** *** Vocabulary of the deduplication properties *)

(** [x] stands at index [i] of [pool] and nowhere before. *)
Definition first_at (pool : list item) (i : nat) (x : item) : Prop :=
  pool !! i = Some x ∧ ∀ j, j < i → pool !! j ≠ Some x.

(** [kept] lists entries of [pool] in the order of their first occurrences. *)
Definition first_occurrence_order (pool kept : list item) : Prop :=
  ∃ idxs : list nat, StronglySorted lt idxs ∧ Forall2 (first_at pool) idxs kept.

(** The backup entries that are appended when those whose fingerprint is in
    the seen set are skipped; an appended entry's fingerprint joins the set. *)
Fixpoint unseen_backups (seen : gset string) (backups : list item) : list item :=
  match backups with
  | [] => []
  | b :: rest =>
      if bool_decide (content_hash b ∈ seen) then unseen_backups seen rest
      else b :: unseen_backups ({[content_hash b]} ∪ seen) rest
  end.

(** What the dedup loop maintains after reading the prefix [pre] of the pool. *)
Record dedup_inv (pre : list item) (st : dedup_state) : Prop := {
  inv_title : ∀ t, t ∈ seen_title st ↔ t ∈ map title (deduped st);
  inv_url : ∀ u, u ∈ seen_url st ↔ u ∈ map url (deduped st);
  inv_hash : ∀ h, h ∈ seen_hashes st ↔ h ∈ map content_hash (deduped st);
  inv_nodup_title : NoDup (map title (deduped st));
  inv_nodup_url : NoDup (map url (deduped st));
  inv_nodup_hash : NoDup (map content_hash (deduped st));
  inv_covered : Forall (λ x, is_seen st x = true) pre;
  inv_order : ∃ idxs, Forall (λ i, i < length pre) idxs
                      ∧ StronglySorted lt idxs
                      ∧ Forall2 (first_at pre) idxs (deduped st)
}.

(** What the backup loop maintains. *)
Definition hash_inv (st : dedup_state) : Prop :=
  (∀ h, h ∈ seen_hashes st ↔ h ∈ map content_hash (deduped st))
  ∧ NoDup (map content_hash (deduped st)).

(** *** Vocabulary of the fetcher properties *)

(** The exception, if any, that ends the reading of the first [n] entries of
    a feed or listing. *)
Definition listing_failure (listing : outcome (list entry)) (n : option nat)
  : option string :=
  match listing with
  | Raise e => Some e
  | Ok entries =>
      first_raise (match n with Some n => firstn n entries | None => entries end)
  end.

(** The exception, if any, that ends the scrape of a generic page. *)
Fixpoint selectors_failure (page : string -> list (outcome article_elems))
    (selectors : list string) : option string :=
  match selectors with
  | [] => None
  | selector :: rest =>
      match page selector with
      | [] => selectors_failure page rest
      | articles => first_raise (firstn 3 articles)
      end
  end.

Definition generic_failure (w : world) (url : string) : option string :=
  match generic_page w url with
  | Raise e => Some e
  | Ok page => selectors_failure page generic_selectors
  end.

End Discovery.

(** ** SignalEngine *)
Module Signal.
Import Effects World.

Record enriched := {
  company : string;
  country : string;
  emoji : string;
  headline : string;
  stock : string;
  tag : string;
  url : string
}.

Definition ticker_cache : list (string * string) := [
  ("OpenAI", "MSFT"); ("Google", "GOOGL"); ("Alphabet", "GOOGL");
  ("Microsoft", "MSFT"); ("Meta", "META"); ("Nvidia", "NVDA");
  ("Infosys", "INFY"); ("TCS", "TCS.NS"); ("SAP", "SAP") ].

Definition country_emojis : list (string * string) := [
  ("India", "🇮🇳"); ("USA", "🇺🇸"); ("China", "🇨🇳") ].

(** [d.get(k)] on a dict written as a list of pairs *)
Fixpoint dict_get (k : string) (d : list (string * string)) : option string :=
  match d with
  | [] => None
  | (k', v) :: d' => if String.eqb k k' then Some v else dict_get k d'
  end.

(** [sorted(.., key=len, reverse=True)]: stable, longest first *)
Fixpoint insert_by_len (x : string) (l : list string) : list string :=
  match l with
  | [] => [x]
  | y :: l' =>
      if (PyStr.len x <? PyStr.len y)%nat then y :: insert_by_len x l'
      else x :: y :: l'
  end.

Definition sorted_by_len_desc (l : list string) : list string :=
  fold_right insert_by_len [] l.

Definition company_patterns : list string := [
  "([A-Z][a-z]+(?:\s+[A-Z][a-z]+)*)\s+(?:announces|launches|releases|unveils)";
  "^([A-Z][a-z]+(?:\s+[A-Z][a-z]+)*)\s+";
  "([A-Z][a-z]+(?:\s+[A-Z][a-z]+)*)'s\s+" ].

Definition stop_words : list string := ["the"; "new"; "big"; "top"; "best"].

(** [for pattern in patterns: ...; break] *)
Fixpoint company_from_patterns (w : world) (title : string) (patterns : list string)
  : option string :=
  match patterns with
  | [] => None
  | pattern :: rest =>
      match re_search w pattern title with
      | Some potential_company =>
          if (2 <? PyStr.len potential_company)%nat
             && negb (existsb (String.eqb (lower w potential_company)) stop_words)
          then Some potential_company
          else company_from_patterns w title rest
      | None => company_from_patterns w title rest
      end
  end.

Definition extract_company (w : world) (title : string) : string :=
  let title_lower := lower w title in
  let sorted_companies := sorted_by_len_desc (companies_iter w) in
  let company :=
    match find (fun known_company => PyStr.contains known_company title_lower)
               sorted_companies with
    | Some known_company => PyStr.title known_company
    | None => "TechCorp"
    end in
  if String.eqb company "TechCorp" then
    match company_from_patterns w title company_patterns with
    | Some potential_company => potential_company
    | None => company
    end
  else company.

Definition lookup_stock (w : world) (company : string) : string :=
  match dict_get company ticker_cache with
  | Some ticker =>
      if PyStr.truthy ticker then
        match market_price w ticker with
        | Ok (Some price) => price
        | Ok None => "N/A"
        | Raise _ => "N/A"
        end
      else "N/A"
  | None => "N/A"
  end.

Definition infer_country (w : world) (company : string) : string :=
  let company_lower := lower w company in
  if existsb (fun indian_co => PyStr.contains indian_co company_lower)
             ["infosys"; "tcs"; "wipro"; "hcl"] then "India"
  else if existsb (fun chinese_co => PyStr.contains chinese_co company_lower)
                  ["huawei"; "baidu"; "alibaba"; "tencent"; "bytedance"] then "China"
  else "USA".

Definition verbs : list string :=
  ["shuts down"; "explodes"; "quietly builds"; "replaces"; "turbo-charges";
   "silently fires"].

Definition rewrite_headline (w : world) (company title : string) (t : tape)
  : string * tape :=
  let title_lower := lower w title in
  if PyStr.any_in (List.map (lower w) verbs) title_lower then (title, t)
  else if negb (PyStr.any_in ["breaks"; "shocking"; "massive"; "huge"; "major"] title_lower)
  then
    let main_part := if PyStr.contains ":" title
                     then hd title (PyStr.split_on ":" title) else title in
    let '(verb, t') := choice EmptyString verbs t in
    (company +:+ " " +:+ PyStr.title verb +:+ " — " +:+ main_part, t')
  else (title, t).

Definition sentiment_tag (w : world) (title : string) : string :=
  let title_lower := lower w title in
  if PyStr.any_in ["layoff"; "fire"; "cut"; "reduce"; "close"; "shut"] title_lower
  then "🔴 Layoff"
  else if PyStr.any_in ["funding"; "raise"; "growth"; "launch"; "hire"; "expand"] title_lower
  then "🟢 Growth"
  else if PyStr.any_in ["ai"; "tool"; "app"; "platform"; "model"] title_lower
  then "🤖 New Tool"
  else "🧠 Strategy".

Definition enrich (w : world) (itm : Config.item) (t : tape) : enriched * tape :=
  let title := Config.title itm in
  let company := extract_company w title in
  let stock_price := lookup_stock w company in
  let country := infer_country w company in
  let '(new_headline, t') := rewrite_headline w company title t in
  let chosen_tag := sentiment_tag w title in
  ({| company := company;
      country := country;
      emoji := default "🌍" (dict_get country country_emojis);
      headline := new_headline;
      stock := stock_price;
      tag := chosen_tag;
      url := Config.url itm |}, t').

End Signal.

(** ** Formatter *)
Module Formatter.
Import Effects World Signal.

Definition nl : string := String (ascii_of_nat 10) EmptyString.

Definition EMOTE_POOLS : list (string * list string) := [
  ("layoffs", ["🚨"; "📉"; "⚠️"]);
  ("ai_tools", ["🤖"; "⚙️"; "🧠"]);
  ("predictions", ["🔮"; "🌟"; "📊"]);
  ("positive", ["📈"; "🚀"; "🔥"]);
  ("negative", ["📉"; "⚠️"; "🚨"]);
  ("meta_ai", ["🧠"; "🔮"; "⚡"]);
  ("power_moves", ["🔥"; "⚡"; "🎯"]);
  ("default", ["📰"; "🔍"; "💡"]) ].

Definition INSIGHT_TEMPLATES : list string := [
  "Signals a major power shift in {industry}.";
  "Hints at long-term intent by {company}.";
  "Could alter the AI stack economics completely.";
  "This is not just {action} — it's a test case for AI-first capitalism.";
  "Represents a fundamental change in how {industry} operates.";
  "Shows {company} is betting big on {trend} dominance.";
  "This move could reshape competitive dynamics across {sector}.";
  "Early signal of what's coming for the entire {industry}.";
  "Strategic positioning for the next wave of {technology}.";
  "Reveals {company}'s true priorities behind the headlines." ].

Definition HASHTAG_POOLS : list (string * list string) := [
  ("ai", ["#AIInfrastructure"; "#LLMShift"; "#OpenSourceAI"; "#AIStack"]);
  ("meta", ["#MetaMoves"; "#SocialAI"; "#MetaReality"]);
  ("google", ["#GoogleShift"; "#SearchAI"; "#CloudWars"]);
  ("openai", ["#OpenAIMoves"; "#GPTShift"; "#FoundationalAI"]);
  ("china", ["#ChinaTech"; "#DragonAI"; "#EastVsWest"]);
  ("india", ["#IndiaSignals"; "#BharatTech"; "#DigitalIndia"]);
  ("funding", ["#VCMoves"; "#StartupSignals"; "#TechFunding"]);
  ("layoffs", ["#TechLayoffs"; "#AutomationEdge"; "#WorkforceTrends"]);
  ("automation", ["#AutomationEdge"; "#FutureWork"; "#AIJobs"]);
  ("startup", ["#StartupSignals"; "#FounderMoves"; "#ScaleUp"]);
  ("general", ["#TechTrends"; "#FounderSignals"; "#TechShift"; "#AINews"]) ].

(** [POOLS[name]] *)
Fixpoint pool (name : string) (pools : list (string * list string)) : list string :=
  match pools with
  | [] => []
  | (k, v) :: rest => if String.eqb name k then v else pool name rest
  end.

Definition emote_pool_name (w : world) (title tag : string) : string :=
  let title_lower := lower w title in
  if PyStr.any_in ["layoff"; "fire"; "cut"; "shutdown"; "close"] title_lower then "layoffs"
  else if PyStr.any_in ["ai"; "robot"; "automat"; "tool"] title_lower then "ai_tools"
  else if PyStr.any_in ["predict"; "future"; "2026"; "2025"; "forecast"] title_lower
  then "predictions"
  else if String.eqb tag "🟢 Growth"
          || PyStr.any_in ["raise"; "funding"; "growth"; "launch"] title_lower
  then "positive"
  else if String.eqb tag "🔴 Layoff" || PyStr.any_in ["drop"; "fall"; "decline"] title_lower
  then "negative"
  else if PyStr.any_in ["meta"; "openai"; "deepmind"] title_lower then "meta_ai"
  else if PyStr.any_in ["shift"; "pivot"; "move"; "stealth"; "quiet"] title_lower
  then "power_moves"
  else "default".

Definition _get_dynamic_emote (w : world) (title tag : string) (t : tape)
  : string * tape :=
  choice EmptyString (pool (emote_pool_name w title tag) EMOTE_POOLS) t.

(** [s.replace(old, empty)] for a one-character [old] *)
Fixpoint remove_char (old : ascii) (s : string) : string :=
  match s with
  | EmptyString => EmptyString
  | String c s' => if Ascii.eqb c old then remove_char old s' else String c (remove_char old s')
  end.

Definition _convert_to_inr (w : world) (usd_price : string) : string * string :=
  if String.eqb usd_price "N/A" then ("N/A", EmptyString)
  else
    match inr_of_usd w (remove_char "," (remove_char "$" usd_price)) with
    | Ok (inr_price, even) => ("₹" +:+ inr_price, if even : bool then "↗" else "↘")
    | Raise _ => ("N/A", EmptyString)
    end.

Definition _generate_description (title original_summary : string) : string :=
  if PyStr.truthy original_summary && (20 <? PyStr.len original_summary)%nat then
    let desc := PyStr.strip original_summary in
    if (200 <? PyStr.len desc)%nat then PyStr.take 200 desc +:+ "..." else desc
  else
    let words := PyStr.split_ws title in
    if (8 <? length words)%nat
    then PyStr.join " " (skipn 3 words)
         +:+ " Details are emerging about the strategic implications."
    else "Breaking development in the tech industry with significant market implications.".

(** [template.format(company=.., ..)] for templates whose fields are plain [{name}];
    [field] holds the name being read, reversed. *)
Fixpoint format_from (kw : list (string * string)) (field : option (list ascii))
    (template : string) : string :=
  match template with
  | EmptyString => EmptyString
  | String c rest =>
      match field with
      | None =>
          if Ascii.eqb c "{" then format_from kw (Some []) rest
          else String c (format_from kw None rest)
      | Some name =>
          if Ascii.eqb c "}"
          then default EmptyString (dict_get (string_of_list_ascii (rev name)) kw)
               +:+ format_from kw None rest
          else format_from kw (Some (c :: name)) rest
      end
  end.

Definition format (template : string) (kw : list (string * string)) : string :=
  format_from kw None template.

(** the context variables of an insight: industry, action, trend, technology, sector *)
Definition insight_context (w : world) (company title : string)
  : list (string * string) :=
  let title_lower := lower w title in
  let '(industry, action, trend, technology, sector) :=
    if PyStr.any_in ["ai"; "artificial intelligence"] title_lower then
      ("AI", "automation", "AI", "artificial intelligence", "tech")
    else if PyStr.any_in ["funding"; "raise"; "investment"] title_lower then
      ("venture capital", "funding", "investment", "fintech", "startup ecosystem")
    else if PyStr.any_in ["layoff"; "fire"; "cut"] title_lower then
      ("workforce management", "restructuring", "automation", "workforce tech",
       "employment")
    else
      ("technology", "innovation", "digital transformation", "emerging tech",
       "tech industry") in
  [("company", company); ("industry", industry); ("action", action);
   ("trend", trend); ("technology", technology); ("sector", sector)].

Definition _generate_insight (w : world) (company title : string) (t : tape)
  : string * tape :=
  let '(template, t') := choice EmptyString INSIGHT_TEMPLATES t in
  (format template (insight_context w company title), t').

(** [while len(tags) < 4: tags.extend(random.sample(general, 1))]; each round
    adds one tag, so [4 - len(tags)] rounds are made. *)
Fixpoint fill_general (rounds : nat) (tags : list string) (t : tape)
  : list string * tape :=
  match rounds with
  | O => (tags, t)
  | S rounds' =>
      let '(g, t') := sample 1 (pool "general" HASHTAG_POOLS) t in
      fill_general rounds' (tags ++ g) t'
  end.

Definition colors : list string := ["🔵"; "🟣"; "🔴"; "🟠"; "🟡"; "🟢"].

(** [f"{tag} {colors[i % len(colors)]}" for i, tag in enumerate(tags)] *)
Fixpoint tag_with_dots (i : nat) (tags : list string) : list string :=
  match tags with
  | [] => []
  | tag :: rest =>
      (tag +:+ " " +:+ nth (i mod length colors) colors EmptyString) :: tag_with_dots (S i) rest
  end.

(** [tags] before [list(set(tags))] *)
Definition collect_hashtags (w : world) (title company country : string) (t : tape)
  : list string * tape :=
  let title_lower := lower w title in
  let company_lower := lower w company in
  let '(tags1, t1) :=
    if PyStr.contains "meta" company_lower then sample 2 (pool "meta" HASHTAG_POOLS) t
    else if PyStr.contains "google" company_lower then sample 2 (pool "google" HASHTAG_POOLS) t
    else if PyStr.contains "openai" company_lower then sample 2 (pool "openai" HASHTAG_POOLS) t
    else ([], t) in
  let '(tags2, t2) :=
    if PyStr.any_in ["ai"; "artificial intelligence"] title_lower
    then sample 1 (pool "ai" HASHTAG_POOLS) t1 else ([], t1) in
  let '(tags3, t3) :=
    if PyStr.any_in ["funding"; "raise"; "investment"] title_lower
    then sample 1 (pool "funding" HASHTAG_POOLS) t2 else ([], t2) in
  let '(tags4, t4) :=
    if PyStr.any_in ["layoff"; "fire"; "cut"] title_lower
    then sample 1 (pool "layoffs" HASHTAG_POOLS) t3 else ([], t3) in
  let '(tags5, t5) :=
    if String.eqb country "China" then sample 1 (pool "china" HASHTAG_POOLS) t4
    else if String.eqb country "India" then sample 1 (pool "india" HASHTAG_POOLS) t4
    else ([], t4) in
  let tags := tags1 ++ tags2 ++ tags3 ++ tags4 ++ tags5 in
  fill_general (4 - length tags) tags t5.

(** [list(set(tags))]: the distinct tags, in an order Python does not fix;
    the tape picks the order. *)
Definition set_order (tags : list string) (t : tape) : list string * tape :=
  let distinct := remove_dups tags in
  sample (length distinct) distinct t.

Definition _generate_hashtags (w : world) (title company country : string) (t : tape)
  : string * tape :=
  let '(tags, t1) := collect_hashtags w title company country t in
  let '(ordered, t2) := set_order tags t1 in
  let tagged := tag_with_dots 0 (firstn 6 ordered) in
  (PyStr.join "   " tagged, t2).

Definition stock_line (w : world) (data : enriched) : string :=
  let '(inr_price, arrow) := _convert_to_inr w (stock data) in
  if negb (String.eqb inr_price "N/A")
  then "📊 " +:+ inr_price +:+ " " +:+ arrow +:+ " | " +:+ stock data +:+ " USD"
  else "📊 Stock: " +:+ stock data.

Definition clean_url (w : world) (data : enriched) : string :=
  if (50 <? PyStr.len (url data))%nat then
    match urlparse w (url data) with
    | Ok (netloc, path) => netloc +:+ path +:+ "..."
    | Raise _ => PyStr.take 50 (url data) +:+ "..."
    end
  else url data.

Definition build_post (w : world) (data : enriched) (t : tape) : string * tape :=
  let '(emote, t1) := _get_dynamic_emote w (headline data) (tag data) t in
  let stock_line := stock_line w data in
  let date := today_str w in
  let description := _generate_description (headline data) EmptyString in
  let '(insight, t2) := _generate_insight w (company data) (headline data) t1 in
  let '(hashtags, t3) :=
    _generate_hashtags w (headline data) (company data) (country data) t2 in
  let clean_url := clean_url w data in
  (emote +:+ " *" +:+ headline data +:+ "*" +:+ nl
   +:+ nl
   +:+ stock_line +:+ nl
   +:+ "🏢 " +:+ company data +:+ " | " +:+ emoji data +:+ " | 📅 " +:+ date +:+ nl
   +:+ nl
   +:+ "📝 *Description:*" +:+ nl
   +:+ description +:+ nl
   +:+ nl
   +:+ "🧠 *Why it matters:*" +:+ nl
   +:+ insight +:+ nl
   +:+ nl
   +:+ hashtags +:+ nl
   +:+ nl
   +:+ "🔗 Source: " +:+ clean_url, t3).

(** *** Vocabulary of the layout properties *)

(** the number of line breaks in a text *)
Fixpoint newlines (s : string) : nat :=
  match s with
  | EmptyString => 0
  | String c s' => (if Ascii.eqb c (ascii_of_nat 10) then 1 else 0) + newlines s'
  end.

(** a text without line break *)
Definition plain (s : string) : Prop := newlines s = 0.

(** The card layout: seven parts in a fixed order, a blank line after the
    headline line, after the company line, and around the hashtag line. *)
Definition card (headline_line price_line company_line description insight
                 hashtag_line source_line : string) : string :=
  headline_line +:+ nl
  +:+ nl
  +:+ price_line +:+ nl
  +:+ company_line +:+ nl
  +:+ nl
  +:+ "📝 *Description:*" +:+ nl
  +:+ description +:+ nl
  +:+ nl
  +:+ "🧠 *Why it matters:*" +:+ nl
  +:+ insight +:+ nl
  +:+ nl
  +:+ hashtag_line +:+ nl
  +:+ nl
  +:+ source_line.

Definition headline_line (emote : string) (data : enriched) : string :=
  emote +:+ " *" +:+ headline data +:+ "*".

Definition company_line (w : world) (data : enriched) : string :=
  "🏢 " +:+ company data +:+ " | " +:+ emoji data +:+ " | 📅 " +:+ today_str w.

Definition source_line (w : world) (data : enriched) : string :=
  "🔗 Source: " +:+ clean_url w data.

(** a hashtag of one of the pools *)
Definition from_pools (tag : string) : Prop :=
  ∃ name, tag ∈ pool name HASHTAG_POOLS.

End Formatter.

(** ** DeliveryEngine *)
Module Delivery.
Import Effects World.

(** What a run does to the outside, in order. *)
Inductive event : Type :=
| Send (attempts : nat) (text : string) (ok : bool)  (* bot.send_message *)
| Sleep (seconds : Q)                                (* asyncio.sleep *)
| WriteCache (date : string) (titles : list string)  (* CACHE_FILE.write_text *)
| WriteFailed (bodies : list string).                (* failed_file.write_text *)

(** A file holding JSON: missing, unreadable as JSON, or holding a value. *)
Inductive file (A : Type) : Type :=
| Missing
| Corrupt
| Holds (a : A).
Arguments Missing {A}.
Arguments Corrupt {A}.
Arguments Holds {A} a.

Record state := {
  calls : nat;                     (* calls of send_message made so far *)
  draws : nat;                     (* draws of random.uniform made so far *)
  failed_file : file (list string);
  trace : list event;
  failure : option string          (* the exception [run] was left with, if any *)
}.

Definition record (evs : list event) (calls' draws' : nat) (st : state) : state :=
  {| calls := calls'; draws := draws'; failed_file := failed_file st;
     trace := trace st ++ evs; failure := failure st |}.

(** an exception that nothing catches *)
Definition fail_with (e : string) (st : state) : state :=
  {| calls := calls st; draws := draws st; failed_file := failed_file st;
     trace := trace st; failure := Some e |}.

Definition max_len : nat := 4096.

Definition truncate (text : string) : string :=
  if (max_len <? PyStr.len text)%nat
  then PyStr.take (max_len - 10) text +:+ "…"
  else text.

(** [while attempts < 3]: [remaining] is [3 - attempts]. *)
Fixpoint send_loop (w : world) (text : string) (remaining attempts : nat) (delay : Q)
    (st : state) : bool * state :=
  match remaining with
  | O => (false, st)
  | S remaining' =>
      match send_message w (calls st) text with
      | Ok _ => (true, record [Send attempts text true] (S (calls st)) (draws st) st)
      | Raise _ =>
          let pause := (delay + jitter w (draws st))%Q in
          send_loop w text remaining' (S attempts) (delay * 2)%Q
            (record [Send attempts text false; Sleep pause]
                    (S (calls st)) (S (draws st)) st)
      end
  end.

Definition send_post (w : world) (text : string) (st : state) : bool * state :=
  send_loop w (truncate text) 3 0 5%Q st.

(** [for msg in messages]: the state and the [failed] list *)
Definition run_step (w : world) (acc : state * list string) (msg : string)
  : state * list string :=
  let '(st, failed) := acc in
  let '(ok, st') := send_post w msg st in
  let failed' := if ok then failed else failed ++ [msg] in
  (record [Sleep Config.DELAY_BETWEEN_POSTS] (calls st') (draws st') st', failed').

(** the state after one message and the pause that follows it *)
Definition after_message (w : world) (st : state) (msg : string) : state :=
  record [Sleep Config.DELAY_BETWEEN_POSTS] (calls (snd (send_post w msg st)))
         (draws (snd (send_post w msg st))) (snd (send_post w msg st)).

Definition run_loop (w : world) (messages : list string) (st : state)
  : state * list string :=
  fold_left (run_step w) messages (st, []).

(** [existing]: what failed_posts.json holds, [[]] when it is missing or
    cannot be read *)
Definition existing (st : state) : list string :=
  match failed_file st with
  | Holds bodies => bodies
  | Missing | Corrupt => []
  end.

Definition persist_failed (failed : list string) (st : state) : state :=
  match failed with
  | [] => st
  | _ =>
      {| calls := calls st; draws := draws st;
         failed_file := Holds (existing st ++ failed);
         trace := trace st ++ [WriteFailed (existing st ++ failed)];
         failure := failure st |}
  end.

(** [run]: the application is started first and shut down last; neither is
    guarded, so a start-up that raises leaves [run] before any message is
    sent, and a shutdown that raises leaves it after the failure log has been
    written. *)
Definition run (w : world) (messages : list string) (st : state) : state :=
  match app_start w with
  | Raise e => fail_with e st
  | Ok _ =>
      let '(st', failed) := run_loop w messages st in
      let st'' := persist_failed failed st' in
      match app_stop w with
      | Raise e => fail_with e st''
      | Ok _ => st''
      end
  end.

(** the texts handed to the transport for a first attempt, in order *)
Fixpoint first_attempts (tr : list event) : list string :=
  match tr with
  | [] => []
  | Send O text _ :: tr' => text :: first_attempts tr'
  | _ :: tr' => first_attempts tr'
  end.

(** the texts handed to the transport, every attempt counted *)
Fixpoint sent_bodies (tr : list event) : list string :=
  match tr with
  | [] => []
  | Send _ text _ :: tr' => text :: sent_bodies tr'
  | _ :: tr' => sent_bodies tr'
  end.

(** what was written to failed_posts.json, write by write *)
Fixpoint failed_writes (tr : list event) : list (list string) :=
  match tr with
  | [] => []
  | WriteFailed bodies :: tr' => bodies :: failed_writes tr'
  | _ :: tr' => failed_writes tr'
  end.

(** the pauses of the trace, in order *)
Fixpoint sleeps (tr : list event) : list Q :=
  match tr with
  | [] => []
  | Sleep d :: tr' => d :: sleeps tr'
  | _ :: tr' => sleeps tr'
  end.

End Delivery.

(** ** The pipeline *)
Module Pipeline.
Import Effects World Delivery.

(** cache.json: [{"date": .., "titles": [..]}] *)
Record cache := { date : string; titles : list string }.

Record files := {
  cache_file : file cache;
  failed_posts : file (list string)
}.

(** The cache and [posted_titles] after the loading step.  An unreadable
    cache file makes [json.loads] raise, which nothing catches. *)
Definition load_cache (w : world) (fs : files) : outcome (cache * gset string) :=
  let fresh := ({| date := today_key w; titles := [] |}, ∅) in
  match cache_file fs with
  | Corrupt => Raise "JSONDecodeError"
  | Missing => Ok fresh
  | Holds c =>
      if String.eqb (date c) (today_key w)
      then Ok (c, list_to_set (titles c))
      else Ok fresh
  end.

(** [[i for i in raw_items if i["title"] not in posted_titles][:POSTS_PER_DAY]] *)
Definition select (posted_titles : gset string) (raw_items : list Config.item)
  : list Config.item :=
  firstn Config.POSTS_PER_DAY
    (List.filter (fun i => negb (bool_decide (Config.title i ∈ posted_titles))) raw_items).

(** [for itm in selected]: enrich, format, remember the title.  The enriched
    dict is never empty, so no item is skipped. *)
Fixpoint render (w : world) (selected : list Config.item) (c : cache)
    (messages : list string) (t : tape) : cache * list string * tape :=
  match selected with
  | [] => (c, messages, t)
  | itm :: rest =>
      let '(enriched, t1) := Signal.enrich w itm t in
      let '(post, t2) := Formatter.build_post w enriched t1 in
      render w rest {| date := date c; titles := titles c ++ [Config.title itm] |}
             (messages ++ [post]) t2
  end.

(** What one call of [main] leaves behind: how it ended, the values of its
    variables of that name (empty when the run ended before they were
    assigned), the two files and what it did to the outside. *)
Record result := {
  exit : outcome unit;
  raw_items : list Config.item;
  selected : list Config.item;
  messages : list string;
  files_after : files;
  events : list event
}.

(** [main] left with an exception before it wrote anything *)
Definition stopped (e : string) (fs : files) : result :=
  {| exit := Raise e; raw_items := []; selected := []; messages := [];
     files_after := fs; events := [] |}.

(** [main].  Nothing in it is guarded: an unreadable cache file, the
    [DiscoveryEngine()] constructor (its [TrendReq(..)] goes to the network)
    and the start-up or shutdown of the Telegram application in [run] each
    end the run with their exception.  The cache file is written between the
    constructor and [run]. *)
Definition main (w : world) (t : tape) (fs : files) : result :=
  match load_cache w fs with
  | Raise e => stopped e fs
  | Ok (c, posted_titles) =>
      match trend_req w with
      | Raise e => stopped e fs
      | Ok _ =>
          match fst (Discovery.discover w {| tracker := new_tracker; items := [] |}) with
          | Raise e => stopped e fs
          | Ok raw =>
              let sel := select posted_titles raw in
              let '(c', msgs, _) := render w sel c [] t in
              let st0 := {| calls := 0; draws := 0; failed_file := failed_posts fs;
                            trace := [WriteCache (date c') (titles c')];
                            failure := None |} in
              let st := run w msgs st0 in
              {| exit := match failure st with Some e => Raise e | None => Ok tt end;
                 raw_items := raw;
                 selected := sel;
                 messages := msgs;
                 files_after := {| cache_file := Holds c';
                                   failed_posts := failed_file st |};
                 events := trace st |}
          end
      end
  end.

(** *** Vocabulary of the cache properties *)


End Pipeline.


(** ** Sample worlds, for evaluating the model *)
Module Samples.
Import Effects World.

(** No network: every fetch and lookup fails, the Google Trends client
    cannot be built and the Telegram application cannot start.  The sample
    worlds are given ASCII text only, so that their Unicode database is never
    asked. *)
Definition offline : world := {|
  site_articles := fun _ => Raise "connection refused";
  generic_page := fun _ => Raise "connection refused";
  feedparser_parse := fun _ => Raise "connection refused";
  hn_storylinks := Raise "connection refused";
  related_queries := fun _ => Raise "connection refused";
  reddit_hot := fun _ => Raise "connection refused";
  urljoin := fun base link => base +:+ link;
  companies_iter := Config.KNOWN_COMPANIES;
  re_search := fun _ _ => None;
  market_price := fun _ => Raise "connection refused";
  inr_of_usd := fun _ => Raise "could not convert string to float";
  today_str := "Tue | 03 November 2026";
  urlparse := fun _ => Raise "invalid url";
  today_key := "2026-11-03";
  send_message := fun _ _ => Raise "connection refused";
  jitter := fun _ => 1%Q;
  unicode_lower := fun _ _ => EmptyString;
  trend_req := Raise "connection refused";
  app_start := Raise "connection refused";
  app_stop := Ok tt
|}.

(** [w] with another Telegram: start-up, transport and shutdown *)
Definition with_telegram (w : world) (start : outcome unit)
    (send : nat -> string -> outcome unit) (stop : outcome unit) : world := {|
  site_articles := site_articles w;
  generic_page := generic_page w;
  feedparser_parse := feedparser_parse w;
  hn_storylinks := hn_storylinks w;
  related_queries := related_queries w;
  reddit_hot := reddit_hot w;
  urljoin := urljoin w;
  companies_iter := companies_iter w;
  re_search := re_search w;
  market_price := market_price w;
  inr_of_usd := inr_of_usd w;
  today_str := today_str w;
  urlparse := urlparse w;
  today_key := today_key w;
  send_message := send;
  jitter := jitter w;
  unicode_lower := unicode_lower w;
  trend_req := trend_req w;
  app_start := start;
  app_stop := stop
|}.

(** [w] with a Telegram application that starts and shuts down, over the
    transport [send] *)
Definition with_transport (w : world) (send : nat -> string -> outcome unit) : world :=
  with_telegram w (Ok tt) send (Ok tt).

(** the transport times out on its first [n] calls *)
Definition flaky (n : nat) : world :=
  with_transport offline
    (fun call _ => if (call <? n)%nat then Raise "Timed out" else Ok tt).

(** the three entries of a feed: "Story <i> of <feed_url>" at <feed_url>/<i> *)
Definition stories (feed_url : string) : list entry :=
  map (fun i => Ok ("Story " +:+ i +:+ " of " +:+ feed_url, feed_url +:+ "/" +:+ i))
      ["0"; "1"; "2"].

(** A day with news: Google Trends and Telegram answer, and every feed
    holds three entries of its own, which makes 45 items for the five
    searches and the ten feeds; the pages that are scraped are down.  The
    date is a parameter. *)
Definition newsday (today : string) : world := {|
  site_articles := fun _ => Raise "connection refused";
  generic_page := fun _ => Raise "connection refused";
  feedparser_parse := fun feed_url => Ok (stories feed_url);
  hn_storylinks := Raise "connection refused";
  related_queries := fun _ => Ok None;
  reddit_hot := fun _ => Raise "connection refused";
  urljoin := fun base link => base +:+ link;
  companies_iter := Config.KNOWN_COMPANIES;
  re_search := fun _ _ => None;
  market_price := fun _ => Raise "connection refused";
  inr_of_usd := fun _ => Raise "could not convert string to float";
  today_str := "Tue | 03 November 2026";
  urlparse := fun _ => Raise "invalid url";
  today_key := today;
  send_message := fun _ _ => Ok tt;
  jitter := fun _ => 1%Q;
  unicode_lower := fun _ _ => EmptyString;
  trend_req := Ok tt;
  app_start := Ok tt;
  app_stop := Ok tt
|}.

(** an enriched item, as [enrich] builds it for a headline about Meta *)
Definition meta_item : Signal.enriched :=
  {| Signal.company := "Meta"; Signal.country := "USA"; Signal.emoji := "🇺🇸";
     Signal.headline := "Meta layoffs hit 2000 engineers"; Signal.stock := "N/A";
     Signal.tag := "🔴 Layoff"; Signal.url := "https://example.com/a" |}.

(** an enriched item whose company name, taken from a title by the company
    patterns (their [\s+] matches a line break), spans two lines *)
Definition two_line_item : Signal.enriched :=
  {| Signal.company := "Foo" +:+ Formatter.nl +:+ "Bar"; Signal.country := "USA";
     Signal.emoji := "🇺🇸";
     Signal.headline := "Foo" +:+ Formatter.nl +:+ "Bar announces a platform";
     Signal.stock := "N/A"; Signal.tag := "🤖 New Tool";
     Signal.url := "https://example.com/b" |}.

Definition idle : Delivery.state :=
  {| Delivery.calls := 0; Delivery.draws := 0;
     Delivery.failed_file := Delivery.Missing; Delivery.trace := [];
     Delivery.failure := None |}.

(** a delivery that starts with two bodies in failed_posts.json *)
Definition backlog : Delivery.state :=
  {| Delivery.calls := 0; Delivery.draws := 0;
     Delivery.failed_file := Delivery.Holds ["old one"; "old two"];
     Delivery.trace := []; Delivery.failure := None |}.

End Samples.
(** ** Vocabulary of the further delivery properties *)
Module Timing.
Import Delivery.

(** the seconds a trace spends in [asyncio.sleep] *)
Definition waited (tr : list event) : Q := fold_right Qplus 0%Q (sleeps tr).

(** the events of a message that is accepted at its first attempt, pause
    included *)
Definition smooth (msg : string) : list event :=
  [Send 0 (truncate msg) true; Sleep Config.DELAY_BETWEEN_POSTS].

End Timing.

(** ** Vocabulary of the further fetcher properties *)
Module Fetching.
Import Config Effects World.

(** Whether it returns or raises, [m] only appends to the list of the running
    method: at most [b] items, all satisfying [P]. *)
Definition grows {A} (P : item → Prop) (b : nat) (m : M A) : Prop :=
  ∀ s, ∃ new, items (snd (m s)) = items s ++ new
         ∧ (length new ≤ b)%nat ∧ Forall P new.

(** an item with a title and a link *)
Definition filled (itm : item) : Prop :=
  title itm ≠ EmptyString ∧ url itm ≠ EmptyString.

(** [itm] is one of the first [n] entries of the feed at [feed_url] *)
Definition from_feed (w : world) (feed_url : string) (n : nat) (itm : item) : Prop :=
  ∃ feed e, feedparser_parse w feed_url = Ok feed
    ∧ Ok e ∈ firstn n feed ∧ itm = candidate (fst e) (snd e).

(** [itm] comes from one of the Google News searches *)
Definition from_google_news (w : world) (itm : item) : Prop :=
  ∃ query, query ∈ Discovery.google_news_queries
    ∧ from_feed w (Discovery.google_news_rss_url query) 10 itm.

(** the test of [hackernews] on a front-page link [(text, href)] *)
Definition hn_match (w : world) (a : string * string) : bool :=
  existsb (fun k => PyStr.contains (lower w k) (lower w (PyStr.strip (fst a))))
          Discovery.hn_keywords.

Definition hn_candidate (a : string * string) : item :=
  candidate (PyStr.strip (fst a)) (snd a).

(** [q] is among the first five related queries of one of the keywords *)
Definition from_trends (w : world) (q : string) : Prop :=
  ∃ kw queries, kw ∈ Discovery.trends_kw_list
    ∧ related_queries w kw = Ok (Some (Some queries)) ∧ q ∈ firstn 5 queries.

(** the posts the listing of [sub] holds, none when it cannot be fetched *)
Definition posts_of (w : world) (sub : string) : nat :=
  match reddit_hot w (Discovery.reddit_json_url sub) with
  | Ok children => length children
  | Raise _ => 0
  end.

(** the test of [reddit_scrape] on a title *)
Definition on_topic (w : world) (itm : item) : Prop :=
  PyStr.any_in Discovery.reddit_keywords (lower w (title itm)) = true.

End Fetching.

(** * Properties *)

(** ** The model of the library functions, on known values *)
Section LibraryExamples.

Example md5_empty : MD5.hexdigest EmptyString = "d41d8cd98f00b204e9800998ecf8427e".
Proof. vm_compute. reflexivity. Qed.

Example md5_abc : MD5.hexdigest "abc" = "900150983cd24fb0d6963f7d28e17f72".
Proof. vm_compute. reflexivity. Qed.

Example md5_two_blocks :
  MD5.hexdigest "aaaaaaaaaaaaaaaaaaaaaaaaaaaaaaaaaaaaaaaaaaaaaaaaaaaaaaaaaaaaaaaa"
  = "014842d480b571495a4a0363793f7367".
Proof. vm_compute. reflexivity. Qed.

Example md5_utf8 : MD5.hexdigest "🔴 Layoff" = "cf57a974720f4ce9d9c9428b9ca815be".
Proof. vm_compute. reflexivity. Qed.

Example md5_first_backup :
  Discovery.content_hash (hd (Config.candidate EmptyString EmptyString)
                             Config.BACKUP_HEADLINES)
  = "4477e7ea1f1deee6ad72c6002f6b17f5".
Proof. vm_compute. reflexivity. Qed.

Example len_counts_code_points : PyStr.len "🔴 Layoff" = 8 ∧ PyStr.len "…" = 1.
Proof. split; reflexivity. Qed.

Example take_cuts_code_points : PyStr.take 3 "🔴 Layoff" = "🔴 L".
Proof. reflexivity. Qed.

Example title_of_two_words : PyStr.title "tech mahindra" = "Tech Mahindra".
Proof. reflexivity. Qed.

Example split_on_colon : PyStr.split_on ":" "a:b::c" = ["a"; "b"; EmptyString; "c"].
Proof. reflexivity. Qed.

End LibraryExamples.

(** ** Deduplication *)
Section Dedup.
Import Config Discovery.

Lemma is_seen_true st x :
  is_seen st x = true ↔
  title x ∈ seen_title st ∨ url x ∈ seen_url st ∨ content_hash x ∈ seen_hashes st.
Proof.
  unfold is_seen. rewrite !orb_true_iff, !bool_decide_eq_true. tauto.
Qed.

Lemma first_at_app pre x i y : first_at pre i y → first_at (pre ++ [x]) i y.
Proof.
  intros [Hi Hj]. pose proof (lookup_lt_Some _ _ _ Hi) as Hlt. split.
  - rewrite lookup_app_l; auto.
  - intros j Hji. rewrite lookup_app_l by lia. auto.
Qed.

Lemma dedup_inv_init : dedup_inv [] dedup_init.
Proof.
  split; simpl; try (intros; set_solver); try constructor.
  exists []. repeat constructor.
Qed.

Lemma dedup_inv_step pre st x :
  dedup_inv pre st → dedup_inv (pre ++ [x]) (dedup_step st x).
Proof.
  intros [Ht Hu Hh Nt Nu Nh Hcov (idxs & Hlt & Hsort & Hfirst)].
  unfold dedup_step. destruct (is_seen st x) eqn:Hseen.
  - split; auto.
    + apply Forall_app. split; auto.
    + exists idxs. split; [|split]; auto.
      * eapply Forall_impl; [exact Hlt|]. intros i Hi. rewrite length_app. simpl in *. lia.
      * eapply Forall2_impl; [exact Hfirst|]. intros; by apply first_at_app.
  - assert (Hnot : ¬ (title x ∈ seen_title st ∨ url x ∈ seen_url st
                      ∨ content_hash x ∈ seen_hashes st)).
    { rewrite <- is_seen_true. congruence. }
    split; simpl; rewrite ?map_app; simpl.
    + intros t. rewrite elem_of_union, elem_of_singleton, elem_of_app, Ht.
      rewrite list_elem_of_singleton. tauto.
    + intros u. rewrite elem_of_union, elem_of_singleton, elem_of_app, Hu.
      rewrite list_elem_of_singleton. tauto.
    + intros h. rewrite elem_of_union, elem_of_singleton, elem_of_app, Hh.
      rewrite list_elem_of_singleton. tauto.
    + apply NoDup_app. split; [auto|split]; [|apply NoDup_singleton].
      intros t Hin Hin'. apply list_elem_of_singleton in Hin'. subst.
      apply Hnot. left. by apply Ht.
    + apply NoDup_app. split; [auto|split]; [|apply NoDup_singleton].
      intros t Hin Hin'. apply list_elem_of_singleton in Hin'. subst.
      apply Hnot. right; left. by apply Hu.
    + apply NoDup_app. split; [auto|split]; [|apply NoDup_singleton].
      intros t Hin Hin'. apply list_elem_of_singleton in Hin'. subst.
      apply Hnot. right; right. by apply Hh.
    + apply Forall_app. split.
      * eapply Forall_impl; [exact Hcov|]. intros y. rewrite !is_seen_true. simpl.
        rewrite !elem_of_union. tauto.
      * constructor; [|constructor]. rewrite is_seen_true. simpl.
        rewrite !elem_of_union, !elem_of_singleton. tauto.
    + exists (idxs ++ [length pre]). split; [|split].
      * apply Forall_app. split.
        -- eapply Forall_impl; [exact Hlt|]. intros i Hi. rewrite length_app. simpl in *. lia.
        -- constructor; [|constructor]. rewrite length_app. simpl. lia.
      * clear Hfirst. induction Hsort as [|i l Hs IH Hall]; simpl.
        -- repeat constructor.
        -- inversion Hlt; subst. constructor; auto.
           apply Forall_app. split; auto.
      * apply Forall2_app.
        -- eapply Forall2_impl; [exact Hfirst|]. intros; by apply first_at_app.
        -- constructor; [|constructor]. split.
           ++ rewrite lookup_app_r by lia. by rewrite Nat.sub_diag.
           ++ intros j Hj Hlook. rewrite lookup_app_l in Hlook by lia.
              apply list_elem_of_lookup_2 in Hlook.
              rewrite Forall_forall in Hcov. specialize (Hcov _ Hlook). congruence.
Qed.

Lemma dedup_inv_fold l : ∀ pre st,
  dedup_inv pre st → dedup_inv (pre ++ l) (fold_left dedup_step l st).
Proof.
  induction l as [|x l IH]; intros pre st Hinv; simpl.
  - by rewrite app_nil_r.
  - replace (pre ++ x :: l) with ((pre ++ [x]) ++ l) by by rewrite <- app_assoc.
    apply IH. by apply dedup_inv_step.
Qed.

Lemma dedup_loop_inv pool : dedup_inv pool (dedup_loop pool).
Proof. apply (dedup_inv_fold pool [] dedup_init dedup_inv_init). Qed.

(** *** The backup fallback *)

Lemma sublist_map {A B} (f : A → B) (l1 l2 : list A) :
  l1 `sublist_of` l2 → map f l1 `sublist_of` map f l2.
Proof. induction 1; simpl; by constructor. Qed.

Lemma backup_step_hash_inv st b : hash_inv st → hash_inv (backup_step st b).
Proof.
  intros [Hh Nh]. unfold backup_step.
  case_bool_decide as Hb; [by split|]. split; simpl; rewrite map_app; simpl.
  - intros h. rewrite elem_of_union, elem_of_singleton, elem_of_app, Hh.
    rewrite list_elem_of_singleton. tauto.
  - apply NoDup_app. split; [auto|split]; [|apply NoDup_singleton].
    intros h Hin Hin'. apply list_elem_of_singleton in Hin'. subst.
    apply Hb. by apply Hh.
Qed.

Lemma backup_loop_hash_inv bs : ∀ st, hash_inv st → hash_inv (backup_loop bs st).
Proof.
  induction bs as [|b bs IH]; intros st Hst; cbn [backup_loop]; [done|].
  pose proof (backup_step_hash_inv st b Hst) as Hst'.
  destruct (10 <=? length (deduped (backup_step st b)))%nat; auto.
Qed.

Lemma unseen_backups_sublist bs : ∀ seen, unseen_backups seen bs `sublist_of` bs.
Proof.
  induction bs as [|b bs IH]; intros seen; simpl; [constructor|].
  case_bool_decide; [apply sublist_cons|apply sublist_skip]; apply IH.
Qed.

Lemma backup_loop_spec bs : ∀ st,
  length (deduped st) < 10 →
  ∃ k : nat, (k ≤ length bs)%nat
    ∧ deduped (backup_loop bs st)
      = deduped st ++ unseen_backups (seen_hashes st) (firstn k bs)
    ∧ (k = length bs ∨ length (deduped (backup_loop bs st)) = 10)
    ∧ Forall (λ j, length (deduped st ++ unseen_backups (seen_hashes st) (firstn j bs)) < 10)
             (seq 0 k).
Proof.
  induction bs as [|b bs IH]; intros st Hlen; cbn [backup_loop].
  { exists 0. simpl. rewrite app_nil_r. repeat split; auto. }
  set (st' := backup_step st b).
  assert (Hst' : deduped st' = deduped st ++ unseen_backups (seen_hashes st) [b]
                 ∧ (length (deduped st') ≤ 10)%nat).
  { subst st'. unfold backup_step. simpl.
    case_bool_decide; simpl; rewrite ?app_nil_r, ?length_app; simpl.
    - split; [done|lia].
    - split; [done|lia]. }
  destruct Hst' as [Hd Hle].
  destruct (10 <=? length (deduped st'))%nat eqn:Hstop.
  - apply Nat.leb_le in Hstop. exists 1. cbn [firstn length seq].
    split; [lia|]. split; [exact Hd|]. split; [right; lia|].
    constructor; [|constructor]. simpl. rewrite app_nil_r. lia.
  - apply Nat.leb_gt in Hstop. destruct (IH st' Hstop) as (k & Hk & Heq & Hend & Hbefore).
    assert (Hunfold : ∀ j,
      deduped st ++ unseen_backups (seen_hashes st) (b :: firstn j bs)
      = deduped st' ++ unseen_backups (seen_hashes st') (firstn j bs)).
    { intros j. subst st'. unfold backup_step. simpl. case_bool_decide; simpl; [done|].
      by rewrite <- app_assoc. }
    exists (S k). cbn [firstn length seq]. rewrite Hunfold.
    split; [lia|]. split; [exact Heq|]. split; [destruct Hend; [left; lia|by right]|].
    constructor; [simpl; rewrite app_nil_r; lia|].
    rewrite <- seq_shift. apply Forall_map.
    eapply Forall_impl; [exact Hbefore|]. intros j Hj. cbn [firstn]. by rewrite Hunfold.
Qed.

Lemma fallback_deduped pool :
  ∃ appended,
    deduped (fallback (dedup_loop pool)) = deduped (dedup_loop pool) ++ appended
    ∧ appended `sublist_of` BACKUP_HEADLINES
    ∧ (appended = [] ∨ length (deduped (dedup_loop pool)) < 5).
Proof.
  unfold fallback. destruct (_ <? 5)%nat eqn:Hfew.
  - apply Nat.ltb_lt in Hfew.
    destruct (backup_loop_spec BACKUP_HEADLINES (dedup_loop pool)) as (k & _ & Heq & _);
      [lia|].
    eexists. split; [exact Heq|]. split; [|by right].
    etrans; [apply unseen_backups_sublist|apply sublist_take].
  - exists []. rewrite app_nil_r. split; [done|]. split; [apply sublist_nil_l|by left].
Qed.

End Dedup.

Section DedupTheorems.
Import Config Discovery.

(** C1 (as amended): the entries that [discover] retains from the pool have
    pairwise distinct titles, pairwise distinct URLs and pairwise distinct
    fingerprints, and stand in the order of their first occurrences in the
    pool.  The returned list is the first 50 of these entries followed by the
    appended backup entries, which are present only when fewer than 5 pool
    entries were retained; its fingerprints stay pairwise distinct also with
    backup entries appended. *)
Theorem dedup_unique_in_first_occurrence_order (pool : list item) :
  (NoDup (map title (deduped (dedup_loop pool)))
   ∧ NoDup (map url (deduped (dedup_loop pool)))
   ∧ NoDup (map content_hash (deduped (dedup_loop pool))))
  ∧ first_occurrence_order pool (deduped (dedup_loop pool))
  ∧ NoDup (map content_hash (discover_from_pool pool))
  ∧ ∃ appended,
      discover_from_pool pool = firstn 50 (deduped (dedup_loop pool) ++ appended)
      ∧ appended `sublist_of` BACKUP_HEADLINES
      ∧ (appended = [] ∨ length (deduped (dedup_loop pool)) < 5).
Proof.
  destruct (dedup_loop_inv pool) as [Ht Hu Hh Nt Nu Nh Hcov (idxs & Hlt & Hsort & Hfirst)].
  split; [auto|]. split; [by exists idxs|]. split.
  - unfold discover_from_pool.
    assert (Hinv : hash_inv (fallback (dedup_loop pool))).
    { unfold fallback. destruct (_ <? 5)%nat; [apply backup_loop_hash_inv|]; by split. }
    destruct Hinv as [_ Hnodup].
    eapply sublist_NoDup; [exact Hnodup|].
    apply sublist_map, sublist_take.
  - destruct (fallback_deduped pool) as (appended & Heq & Hsub & Hcase).
    exists appended. unfold discover_from_pool. by rewrite Heq.
Qed.

(** C1, as stated, fails once backup entries are appended: a pool entry that
    carries the title of a backup headline under another URL is retained, and
    the backup headline is appended after it. *)
Lemma backup_may_repeat_a_title :
  ¬ NoDup (map title (discover_from_pool
      [candidate "OpenAI Quietly Builds Next-Gen AI Infrastructure to Challenge Google"
                 "https://example.com/x"])).
Proof.
  intros Hnodup. pose proof (bool_decide_eq_true_2 _ Hnodup) as Hb.
  vm_compute in Hb. discriminate Hb.
Qed.

(** C2: when fewer than 5 entries survive deduplication, [discover] returns
    them followed by the backup entries, read in order up to some position
    [k], minus those whose fingerprint is in the seen set; reading stops at
    the first position where the list has 10 entries, or at the end of the
    backup list.  With 5 or more survivors nothing is appended. *)
Theorem backup_fallback (pool : list item) :
  (∀ h, h ∈ seen_hashes (dedup_loop pool)
        ↔ h ∈ map content_hash (deduped (dedup_loop pool)))
  ∧ if (length (deduped (dedup_loop pool)) <? 5)%nat then
      ∃ k : nat, (k ≤ length BACKUP_HEADLINES)%nat
        ∧ discover_from_pool pool
          = deduped (dedup_loop pool)
            ++ unseen_backups (seen_hashes (dedup_loop pool)) (firstn k BACKUP_HEADLINES)
        ∧ (k = length BACKUP_HEADLINES ∨ length (discover_from_pool pool) = 10)
        ∧ Forall (λ j, length (deduped (dedup_loop pool)
                               ++ unseen_backups (seen_hashes (dedup_loop pool))
                                                 (firstn j BACKUP_HEADLINES)) < 10)
                 (seq 0 k)
    else discover_from_pool pool = firstn 50 (deduped (dedup_loop pool)).
Proof.
  split; [apply (inv_hash _ _ (dedup_loop_inv pool))|].
  unfold discover_from_pool, fallback.
  destruct (_ <? 5)%nat eqn:Hfew; [|done].
  apply Nat.ltb_lt in Hfew.
  destruct (backup_loop_spec BACKUP_HEADLINES (dedup_loop pool)) as (k & Hk & Heq & Hend & Hbefore);
    [lia|].
  assert (Hlen : (length (deduped (backup_loop BACKUP_HEADLINES (dedup_loop pool))) ≤ 50)%nat).
  { rewrite Heq, length_app.
    pose proof (sublist_length _ _ (unseen_backups_sublist
      (firstn k BACKUP_HEADLINES) (seen_hashes (dedup_loop pool)))) as Hs.
    rewrite length_take in Hs. cbn [BACKUP_HEADLINES length] in Hs, Hk. lia. }
  rewrite firstn_all2 by exact Hlen.
  exists k. repeat split; auto.
Qed.

End DedupTheorems.

(** ** Delivery *)
Section DeliveryLemmas.
Import Effects World Delivery.

Lemma append_cons (c : ascii) (a b : string) :
  String c a +:+ b = String c (a +:+ b).
Proof. reflexivity. Qed.

Lemma len_app (a b : string) : PyStr.len (a +:+ b) = PyStr.len a + PyStr.len b.
Proof.
  induction a as [|c a IH]; [done|]. rewrite append_cons. simpl.
  destruct (PyStr.is_cont c); simpl; by rewrite IH.
Qed.

Lemma len_take (n : nat) (s : string) :
  PyStr.len (PyStr.take n s) = Nat.min n (PyStr.len s).
Proof.
  revert n. induction s as [|c s IH]; intros n; simpl; [lia|].
  destruct (PyStr.is_cont c) eqn:Hc; simpl.
  - by rewrite Hc, IH.
  - destruct n as [|n]; simpl; [done|]. by rewrite Hc, IH.
Qed.

Lemma take_prefix (n : nat) (s : string) : ∃ rest, s = PyStr.take n s +:+ rest.
Proof.
  revert n. induction s as [|c s IH]; intros n; simpl; [by exists EmptyString|].
  destruct (PyStr.is_cont c).
  - destruct (IH n) as [rest Hrest]. exists rest. rewrite append_cons. by f_equal.
  - destruct n as [|n]; [by exists (String c s)|].
    destruct (IH n) as [rest Hrest]. exists rest. rewrite append_cons. by f_equal.
Qed.

Lemma truncate_len (text : string) :
  PyStr.len (truncate text)
  = if (4096 <? PyStr.len text)%nat then 4087 else PyStr.len text.
Proof.
  unfold truncate, max_len. destruct (4096 <? PyStr.len text)%nat eqn:Hlong; [|done].
  apply Nat.ltb_lt in Hlong. rewrite len_app, len_take.
  change (PyStr.len "…") with 1. lia.
Qed.

Lemma sent_bodies_app (a b : list event) :
  sent_bodies (a ++ b) = sent_bodies a ++ sent_bodies b.
Proof.
  induction a as [|[]]; simpl; auto. by rewrite IHa.
Qed.

Lemma first_attempts_app (a b : list event) :
  first_attempts (a ++ b) = first_attempts a ++ first_attempts b.
Proof.
  induction a as [|[[|n] ? ?| | |] a IH]; simpl; auto. by rewrite IH.
Qed.

Lemma first_attempts_sent (evs : list event) :
  sent_bodies evs = [] → first_attempts evs = [].
Proof.
  induction evs as [|[[|n] ? ?| | |] evs IH]; simpl; auto; discriminate.
Qed.

(** What one [send_loop] adds to the trace: attempts numbered from
    [attempts] on, all with the same body. *)
Lemma send_loop_trace w text remaining : ∀ attempts delay st,
  ∃ evs, trace (snd (send_loop w text remaining attempts delay st)) = trace st ++ evs
    ∧ Forall (eq text) (sent_bodies evs)
    ∧ first_attempts evs
      = match remaining, attempts with S _, O => [text] | _, _ => [] end
    ∧ failed_file (snd (send_loop w text remaining attempts delay st)) = failed_file st
    ∧ failed_writes evs = [].
Proof.
  induction remaining as [|remaining IH]; intros attempts delay st; simpl.
  { exists []. rewrite app_nil_r. by repeat split. }
  destruct (send_message w (calls st) text) as [[]|e]; simpl.
  - eexists. split; [done|]. simpl. split; [by repeat constructor|].
    split; [|done]. by destruct attempts.
  - edestruct IH as (evs & Htr & Hbodies & Hfirst & Hfile & Hwr). rewrite Htr, Hfile. simpl.
    rewrite <- app_assoc. eexists. split; [done|]. simpl. split; [by constructor|].
    split; [|done]. rewrite Hfirst. destruct attempts, remaining; done.
Qed.

Lemma send_post_trace w text st :
  ∃ evs, trace (snd (send_post w text st)) = trace st ++ evs
    ∧ Forall (eq (truncate text)) (sent_bodies evs)
    ∧ first_attempts evs = [truncate text]
    ∧ failed_file (snd (send_post w text st)) = failed_file st
    ∧ failed_writes evs = [].
Proof. apply send_loop_trace. Qed.

Lemma failed_writes_app (a b : list event) :
  failed_writes (a ++ b) = failed_writes a ++ failed_writes b.
Proof.
  induction a as [|[]]; simpl; auto. by rewrite IHa.
Qed.

Lemma run_step_eq w st failed msg :
  run_step w (st, failed) msg
  = (after_message w st msg,
     if fst (send_post w msg st) then failed else failed ++ [msg]).
Proof.
  unfold run_step, after_message. by destruct (send_post w msg st) as [[] st'].
Qed.

Lemma run_fold w msgs : ∀ st failed,
  fst (fold_left (run_step w) msgs (st, failed)) = fst (run_loop w msgs st)
  ∧ snd (fold_left (run_step w) msgs (st, failed)) = failed ++ snd (run_loop w msgs st)
  ∧ snd (run_loop w msgs st) `sublist_of` msgs
  ∧ first_attempts (trace (fst (run_loop w msgs st)))
    = first_attempts (trace st) ++ map truncate msgs
  ∧ failed_writes (trace (fst (run_loop w msgs st))) = failed_writes (trace st)
  ∧ failed_file (fst (run_loop w msgs st)) = failed_file st.
Proof.
  unfold run_loop. induction msgs as [|msg msgs IH]; intros st failed; cbn [fold_left].
  { simpl. rewrite !app_nil_r. by repeat split. }
  rewrite !run_step_eq.
  destruct (IH (after_message w st msg)
               (if fst (send_post w msg st) then failed else failed ++ [msg]))
    as (Hst & Hfailed & _).
  destruct (IH (after_message w st msg)
               (if fst (send_post w msg st) then [] else [] ++ [msg]))
    as (Hst0 & Hfailed0 & Hsub & Hfirst & Hwrites & Hfile).
  destruct (send_post_trace w msg st) as (evs & Htr & _ & Hfirst1 & Hfile1 & Hwr1).
  rewrite Hst, Hfailed, Hst0, Hfailed0, Hfirst, Hwrites, Hfile.
  unfold after_message at 1 2 3. simpl. rewrite Htr, Hfile1.
  rewrite !first_attempts_app, !failed_writes_app, Hfirst1, Hwr1. simpl.
  rewrite !app_nil_r, <- !app_assoc. simpl.
  repeat split; auto.
  - destruct (fst (send_post w msg st)); simpl; [done|by rewrite <- app_assoc].
  - destruct (fst (send_post w msg st)); simpl; [by apply sublist_cons|by apply sublist_skip].
Qed.

Lemma run_loop_app w pre post st :
  run_loop w (pre ++ post) st
  = (fst (run_loop w post (fst (run_loop w pre st))),
     snd (run_loop w pre st) ++ snd (run_loop w post (fst (run_loop w pre st)))).
Proof.
  unfold run_loop at 1. rewrite fold_left_app.
  fold (run_loop w pre st). destruct (run_loop w pre st) as [st1 failed1]. simpl.
  destruct (run_fold w post st1 failed1) as (Hst & Hfailed & _).
  rewrite <- Hst, <- Hfailed. by destruct (fold_left _ _ _).
Qed.

Lemma send_post_exhausted w text st :
  raised (send_message w (calls st) (truncate text)) = true →
  raised (send_message w (S (calls st)) (truncate text)) = true →
  raised (send_message w (S (S (calls st))) (truncate text)) = true →
  fst (send_post w text st) = false.
Proof.
  intros H0 H1 H2. unfold send_post. simpl.
  destruct (send_message w (calls st) (truncate text)); [discriminate|]. simpl.
  destruct (send_message w (S (calls st)) (truncate text)); [discriminate|]. simpl.
  destruct (send_message w (S (S (calls st))) (truncate text)); [discriminate|]. done.
Qed.

(** [run], once the application has started. *)
Lemma run_started w msgs st :
  app_start w = Ok tt →
  run w msgs st
  = match app_stop w with
    | Raise e => fail_with e (persist_failed (snd (run_loop w msgs st))
                                             (fst (run_loop w msgs st)))
    | Ok _ => persist_failed (snd (run_loop w msgs st)) (fst (run_loop w msgs st))
    end.
Proof.
  intros Hstart. unfold run. rewrite Hstart.
  by destruct (run_loop w msgs st) as [st' failed].
Qed.


Lemma persist_nothing st : persist_failed [] st = st.
Proof. done. Qed.

Lemma run_loop_failure w msgs st : failure (fst (run_loop w msgs st)) = failure st.
Proof.
  assert (Hsend : ∀ text remaining attempts delay st0,
    failure (snd (send_loop w text remaining attempts delay st0)) = failure st0).
  { intros text remaining. induction remaining as [|remaining IH];
      intros attempts delay st0; simpl; [done|].
    destruct (send_message w (calls st0) text); [done|]. by rewrite IH. }
  unfold run_loop. generalize (@nil string) as failed. revert st.
  induction msgs as [|msg msgs IH]; intros st failed; cbn [fold_left]; [done|].
  rewrite run_step_eq, IH. unfold after_message, send_post. cbn [record failure].
  apply Hsend.
Qed.

End DeliveryLemmas.

Section DeliveryTheorems.
Import Effects World Delivery.

(** C8: the body [send_post] hands to the transport never exceeds 4096
    characters.  A text longer than 4096 characters is cut to its first 4086
    characters followed by an ellipsis (4087 characters) before the first
    attempt; any other text is sent unchanged; every attempt carries that same
    body. *)
Theorem send_post_body_within_limit (w : world) (text : string) (st : state) :
  (PyStr.len (truncate text) ≤ 4096)%nat
  ∧ (if (4096 <? PyStr.len text)%nat
     then truncate text = PyStr.take 4086 text +:+ "…"
          ∧ PyStr.len (PyStr.take 4086 text) = 4086
          ∧ ∃ rest, text = PyStr.take 4086 text +:+ rest
     else truncate text = text)
  ∧ ∃ evs, trace (snd (send_post w text st)) = trace st ++ evs
      ∧ sent_bodies evs ≠ []
      ∧ Forall (eq (truncate text)) (sent_bodies evs).
Proof.
  split; [|split].
  - rewrite truncate_len. destruct (4096 <? PyStr.len text)%nat eqn:Hlong; [lia|].
    apply Nat.ltb_ge in Hlong. lia.
  - unfold truncate, max_len. destruct (4096 <? PyStr.len text)%nat eqn:Hlong; [|done].
    apply Nat.ltb_lt in Hlong. split; [done|]. split; [|apply take_prefix].
    rewrite len_take. lia.
  - destruct (send_post_trace w text st) as (evs & Htr & Hbodies & Hfirst & _).
    exists evs. split; [done|]. split; [|done].
    intros Hnil. apply first_attempts_sent in Hnil. congruence.
Qed.

(** C3: when the first two attempts fail and the third succeeds,
    [send_post] returns True, the message does not enter the failed list and
    the failure log is left as it was; the two pauses are 5 s and 10 s plus
    their jitter, and with jitter within 0..3 s the first pause is strictly
    shorter than the second. *)
Theorem third_attempt_success_is_sent (w : world) (text : string) (st : state) :
  raised (send_message w (calls st) (truncate text)) = true →
  raised (send_message w (S (calls st)) (truncate text)) = true →
  raised (send_message w (S (S (calls st))) (truncate text)) = false →
  (0 <= jitter w (draws st) ∧ jitter w (draws st) <= 3)%Q →
  (0 <= jitter w (S (draws st)) ∧ jitter w (S (draws st)) <= 3)%Q →
  fst (send_post w text st) = true
  ∧ snd (run_loop w [text] st) = []
  ∧ failed_file (run w [text] st) = failed_file st
  ∧ ∃ d1 d2,
      trace (snd (send_post w text st))
      = trace st ++ [Send 0 (truncate text) false; Sleep d1;
                     Send 1 (truncate text) false; Sleep d2;
                     Send 2 (truncate text) true]
      ∧ (d1 == 5 + jitter w (draws st))%Q
      ∧ (d2 == 10 + jitter w (S (draws st)))%Q
      ∧ (d1 < d2)%Q.
Proof.
  intros H0 H1 H2 [Hj0 Hj0'] [Hj1 Hj1'].
  assert (Hpost : fst (send_post w text st) = true
    ∧ trace (snd (send_post w text st))
      = trace st ++ [Send 0 (truncate text) false;
                     Sleep (5 + jitter w (draws st))%Q;
                     Send 1 (truncate text) false;
                     Sleep (5 * 2 + jitter w (S (draws st)))%Q;
                     Send 2 (truncate text) true]).
  { unfold send_post. simpl.
    destruct (send_message w (calls st) (truncate text)); [discriminate|]. simpl.
    destruct (send_message w (S (calls st)) (truncate text)); [discriminate|]. simpl.
    destruct (send_message w (S (S (calls st))) (truncate text)); [|discriminate]. simpl.
    by rewrite <- !app_assoc. }
  destruct Hpost as [Hok Htr].
  assert (Hnone : snd (run_loop w [text] st) = []).
  { unfold run_loop. cbn [fold_left]. rewrite run_step_eq. simpl. by rewrite Hok. }
  split; [done|]. split; [done|]. split.
  - destruct (run_fold w [text] st []) as (_ & _ & _ & _ & _ & Hfile).
    unfold run. destruct (app_start w); [|done].
    destruct (run_loop w [text] st) as [st' failed] eqn:Hrun.
    simpl in Hnone, Hfile. subst failed. rewrite persist_nothing.
    by destruct (app_stop w).
  - eexists _, _. split; [exact Htr|]. split; [reflexivity|]. split; [|lra].
    assert (5 * 2 == 10)%Q as -> by reflexivity. reflexivity.
Qed.

(** C3 at work: a transport that times out twice. *)
Lemma third_attempt_success_sample :
  fst (send_post (Samples.flaky 2) "hello" Samples.idle) = true
  ∧ snd (run_loop (Samples.flaky 2) ["hello"] Samples.idle) = []
  ∧ failed_file (run (Samples.flaky 2) ["hello"] Samples.idle) = Missing
  ∧ ∃ d1 d2,
      trace (snd (send_post (Samples.flaky 2) "hello" Samples.idle))
      = [Send 0 "hello" false; Sleep d1; Send 1 "hello" false; Sleep d2;
         Send 2 "hello" true]
      ∧ (d1 == 5 + 1)%Q ∧ (d2 == 10 + 1)%Q ∧ (d1 < d2)%Q.
Proof.
  apply (third_attempt_success_is_sent (Samples.flaky 2) "hello" Samples.idle);
    try reflexivity; simpl; lra.
Defined.

(** C4: once the application has started, a message whose three attempts
    all fail is appended to failed_posts.json by the single write at the end
    of the run: the file then holds what it held before (nothing when it was
    missing or unreadable), followed by the failed messages of the batch in
    batch order, this one once for its position.  Every message of the batch,
    those after it included, gets its first attempt, in batch order, and the
    run ends as the shutdown of the application ends. *)
Theorem exhausted_message_is_logged_once
    (w : world) (pre post : list string) (m : string) (st : state) :
  app_start w = Ok tt →
  raised (send_message w (calls (fst (run_loop w pre st))) (truncate m)) = true →
  raised (send_message w (S (calls (fst (run_loop w pre st)))) (truncate m)) = true →
  raised (send_message w (S (S (calls (fst (run_loop w pre st))))) (truncate m)) = true →
  ∃ failed_post,
    failed_file (run w (pre ++ m :: post) st)
    = Holds (match failed_file st with
             | Holds old => old
             | Missing | Corrupt => []
             end ++ snd (run_loop w pre st) ++ [m] ++ failed_post)
    ∧ snd (run_loop w pre st) `sublist_of` pre
    ∧ failed_post `sublist_of` post
    ∧ failed_writes (trace (run w (pre ++ m :: post) st))
      = failed_writes (trace st)
        ++ [match failed_file st with
            | Holds old => old
            | Missing | Corrupt => []
            end ++ snd (run_loop w pre st) ++ [m] ++ failed_post]
    ∧ first_attempts (trace (run w (pre ++ m :: post) st))
      = first_attempts (trace st) ++ map truncate (pre ++ m :: post)
    ∧ failure (run w (pre ++ m :: post) st)
      = match app_stop w with
        | Raise e => Some e
        | Ok _ => failure st
        end.
Proof.
  intros Hstart H0 H1 H2.
  pose proof (send_post_exhausted w m _ H0 H1 H2) as Hfail.
  destruct (run_fold w pre st []) as (_ & _ & Hsub_pre & _).
  destruct (run_fold w (pre ++ m :: post) st []) as (_ & _ & _ & Hfirst & Hwrites & Hfile).
  pose proof (run_loop_failure w (pre ++ m :: post) st) as Hfailure.
  set (st1 := fst (run_loop w pre st)) in *.
  destruct (run_fold w post (after_message w st1 m) []) as (_ & _ & Hsub_post & _).
  exists (snd (run_loop w post (after_message w st1 m))).
  assert (Hloop : snd (run_loop w (pre ++ m :: post) st)
    = snd (run_loop w pre st) ++ [m] ++ snd (run_loop w post (after_message w st1 m))).
  { rewrite run_loop_app. simpl. f_equal. fold st1.
    unfold run_loop at 1. cbn [fold_left]. rewrite run_step_eq, Hfail. simpl.
    destruct (run_fold w post (after_message w st1 m) [m]) as (_ & -> & _). done. }
  assert (Hexisting : existing (fst (run_loop w (pre ++ m :: post) st))
                      = match failed_file st with
                        | Holds old => old
                        | Missing | Corrupt => []
                        end).
  { unfold existing. by rewrite Hfile. }
  assert (Hpersist : ∃ st2,
    persist_failed (snd (run_loop w (pre ++ m :: post) st))
                   (fst (run_loop w (pre ++ m :: post) st)) = st2
    ∧ failed_file st2
      = Holds (match failed_file st with
               | Holds old => old
               | Missing | Corrupt => []
               end ++ snd (run_loop w pre st) ++ [m]
                   ++ snd (run_loop w post (after_message w st1 m)))
    ∧ trace st2
      = trace (fst (run_loop w (pre ++ m :: post) st))
        ++ [WriteFailed (match failed_file st with
                         | Holds old => old
                         | Missing | Corrupt => []
                         end ++ snd (run_loop w pre st) ++ [m]
                             ++ snd (run_loop w post (after_message w st1 m)))]
    ∧ failure st2 = failure st).
  { eexists. split; [reflexivity|]. rewrite Hloop. unfold persist_failed.
    destruct (snd (run_loop w pre st) ++ [m]
              ++ snd (run_loop w post (after_message w st1 m)))
      as [|f failed] eqn:Hnonempty.
    { by destruct (snd (run_loop w pre st)). }
    cbn [failed_file trace failure]. by rewrite Hexisting, Hfailure. }
  destruct Hpersist as (st2 & Hst2 & Hfile2 & Htrace2 & Hfailure2).
  rewrite (run_started w _ st Hstart), Hst2.
  assert (Hst2' : failed_writes (trace st2)
                  = failed_writes (trace st)
                    ++ [match failed_file st with
                        | Holds old => old
                        | Missing | Corrupt => []
                        end ++ snd (run_loop w pre st) ++ [m]
                            ++ snd (run_loop w post (after_message w st1 m))]
                  ∧ first_attempts (trace st2)
                    = first_attempts (trace st) ++ map truncate (pre ++ m :: post)).
  { rewrite Htrace2, failed_writes_app, first_attempts_app, Hfirst, Hwrites. simpl.
    by rewrite app_nil_r. }
  destruct Hst2' as [Hw2 Hf2].
  destruct (app_stop w) as [[]|e]; cbn [fail_with failed_file trace failure];
    by repeat split.
Qed.

(** C4 at work: failed_posts.json holds two bodies, and the first of two
    messages exhausts its attempts. *)
Lemma exhausted_message_sample :
  ∃ failed_post,
    failed_file (run (Samples.flaky 3) ([] ++ "first" :: ["second"]) Samples.backlog)
    = Holds (["old one"; "old two"] ++ [] ++ ["first"] ++ failed_post)
    ∧ [] `sublist_of` ([] : list string)
    ∧ failed_post `sublist_of` ["second"]
    ∧ failed_writes
        (trace (run (Samples.flaky 3) ([] ++ "first" :: ["second"]) Samples.backlog))
      = [] ++ [["old one"; "old two"] ++ [] ++ ["first"] ++ failed_post]
    ∧ first_attempts
        (trace (run (Samples.flaky 3) ([] ++ "first" :: ["second"]) Samples.backlog))
      = [] ++ map truncate ([] ++ "first" :: ["second"])
    ∧ failure (run (Samples.flaky 3) ([] ++ "first" :: ["second"]) Samples.backlog)
      = None.
Proof.
  apply (exhausted_message_is_logged_once (Samples.flaky 3) [] ["second"] "first"
           Samples.backlog); reflexivity.
Defined.

End DeliveryTheorems.

(** ** Enrichment *)
Section SignalLemmas.
Import Effects World Signal.

Lemma insert_by_len_perm x l : Permutation (insert_by_len x l) (x :: l).
Proof.
  induction l as [|y l IH]; simpl; [done|].
  destruct (PyStr.len x <? PyStr.len y)%nat; [|done].
  rewrite IH. apply perm_swap.
Qed.

Lemma sorted_by_len_desc_perm l : Permutation (sorted_by_len_desc l) l.
Proof.
  induction l as [|x l IH]; simpl; [done|].
  rewrite insert_by_len_perm. by constructor.
Qed.

Lemma filter_perm {A} (p : A → bool) (l1 l2 : list A) :
  Permutation l1 l2 → Permutation (List.filter p l1) (List.filter p l2).
Proof.
  induction 1 as [|x l1 l2 _ IH|x y l|l1 l2 l3 _ IH1 _ IH2]; simpl.
  - done.
  - destruct (p x); [by constructor|done].
  - destruct (p x), (p y); try done. apply perm_swap.
  - by etrans.
Qed.

Lemma find_sole_match {A} (p : A → bool) (l : list A) (x : A) :
  List.filter p l = [x] → find p l = Some x.
Proof.
  induction l as [|y l IH]; simpl; [discriminate|].
  destruct (p y); [congruence|auto].
Qed.

(** Whatever order the set is iterated in, a title that contains exactly one
    known company resolves to it. *)
Lemma find_known_company w title_lower known :
  Permutation (companies_iter w) Config.KNOWN_COMPANIES →
  List.filter (λ k, PyStr.contains k title_lower) Config.KNOWN_COMPANIES = [known] →
  find (λ k, PyStr.contains k title_lower) (sorted_by_len_desc (companies_iter w))
  = Some known.
Proof.
  intros Hperm Hsole. apply find_sole_match.
  apply Permutation_length_1_inv. rewrite <- Hsole.
  symmetry. apply filter_perm. by rewrite sorted_by_len_desc_perm.
Qed.

End SignalLemmas.

Section SignalTheorems.
Import Effects World Signal.

(** C7: for the candidate titled "Meta layoffs hit 2000 engineers" at
    https://example.com/a, [enrich] yields company "Meta", country "USA" and
    sentiment tag "🔴 Layoff", whatever the quote service, the random draws and
    the iteration order of the company set are. *)
Theorem enrich_meta_layoffs (w : world) (t : tape) :
  Permutation (companies_iter w) Config.KNOWN_COMPANIES →
  company (fst (enrich w (Config.candidate "Meta layoffs hit 2000 engineers"
                                           "https://example.com/a") t)) = "Meta"
  ∧ country (fst (enrich w (Config.candidate "Meta layoffs hit 2000 engineers"
                                             "https://example.com/a") t)) = "USA"
  ∧ tag (fst (enrich w (Config.candidate "Meta layoffs hit 2000 engineers"
                                         "https://example.com/a") t)) = "🔴 Layoff".
Proof.
  intros Hperm.
  assert (Hcompany : extract_company w "Meta layoffs hit 2000 engineers" = "Meta").
  { unfold extract_company.
    change (lower w "Meta layoffs hit 2000 engineers")
      with "meta layoffs hit 2000 engineers".
    rewrite (find_known_company w _ "meta" Hperm) by (vm_compute; reflexivity).
    reflexivity. }
  unfold enrich. cbn [Config.title Config.candidate Config.url].
  rewrite Hcompany.
  destruct (rewrite_headline w "Meta" "Meta layoffs hit 2000 engineers" t) as [h t'].
  cbn [fst company country tag]. split; [done|]. split; by vm_compute.
Qed.

(** C7 at work, with the set iterated in the order it is written. *)
Lemma enrich_meta_layoffs_sample :
  company (fst (enrich Samples.offline
                  (Config.candidate "Meta layoffs hit 2000 engineers"
                                    "https://example.com/a") [])) = "Meta"
  ∧ country (fst (enrich Samples.offline
                    (Config.candidate "Meta layoffs hit 2000 engineers"
                                      "https://example.com/a") [])) = "USA"
  ∧ tag (fst (enrich Samples.offline
                (Config.candidate "Meta layoffs hit 2000 engineers"
                                  "https://example.com/a") [])) = "🔴 Layoff".
Proof.
  apply (enrich_meta_layoffs Samples.offline []). simpl. reflexivity.
Defined.

End SignalTheorems.

(** ** Fetchers and their failures *)
Section MonadLemmas.
Import Config Effects Effects.Notations.

Lemma tracker_le_refl t : tracker_le t t.
Proof. by intros source msg. Qed.

Lemma tracker_le_trans t1 t2 t3 :
  tracker_le t1 t2 → tracker_le t2 t3 → tracker_le t1 t3.
Proof. intros H12 H23 source msg H. by apply H23, H12. Qed.

Lemma logged_log_error source error t :
  logged source error (tracker_log_error source error t).
Proof.
  eexists. split; [apply lookup_insert_eq|]. apply elem_of_app. right. by left.
Qed.

Lemma tracker_le_log_error source error t :
  tracker_le t (tracker_log_error source error t).
Proof.
  intros source' msg (l & Hl & Hin). unfold logged. simpl.
  destruct (decide (source = source')) as [->|Hne].
  - rewrite lookup_insert_eq, Hl. eexists. split; [done|]. simpl.
    apply elem_of_app. by left.
  - rewrite lookup_insert_ne by done. eauto.
Qed.

Lemma tracker_le_log_success source count t :
  tracker_le t (tracker_log_success source count t).
Proof. by intros source' msg H. Qed.

(** *** [keeps_errors] follows the structure of a computation *)

Lemma keeps_ret {A} (a : A) : keeps_errors (ret a).
Proof. intros s. apply tracker_le_refl. Qed.

Lemma keeps_raise {A} e : keeps_errors (raise e : M A).
Proof. intros s. apply tracker_le_refl. Qed.

Lemma keeps_perform {A} (o : outcome A) : keeps_errors (perform o).
Proof. intros s. apply tracker_le_refl. Qed.

Lemma keeps_log_error source error : keeps_errors (log_error source error).
Proof. intros s. apply tracker_le_log_error. Qed.

Lemma keeps_log_success source count : keeps_errors (log_success source count).
Proof. intros s. apply tracker_le_log_success. Qed.

Lemma keeps_append itm : keeps_errors (append itm).
Proof. intros s. apply tracker_le_refl. Qed.

Lemma keeps_extend itms : keeps_errors (extend itms).
Proof. intros s. apply tracker_le_refl. Qed.

Lemma keeps_get_items : keeps_errors get_items.
Proof. intros s. apply tracker_le_refl. Qed.

Lemma keeps_bind {A B} (m : M A) (k : A → M B) :
  keeps_errors m → (∀ a, keeps_errors (k a)) → keeps_errors (bind m k).
Proof.
  intros Hm Hk s. unfold bind. specialize (Hm s).
  destruct (m s) as [[a|e] s1]; simpl in *; [|done].
  eapply tracker_le_trans; [exact Hm|apply Hk].
Qed.

Lemma keeps_try_except {A} (m : M A) (h : string → M A) :
  keeps_errors m → (∀ e, keeps_errors (h e)) → keeps_errors (try_except m h).
Proof.
  intros Hm Hh s. unfold try_except. specialize (Hm s).
  destruct (m s) as [[a|e] s1]; simpl in *; [done|].
  eapply tracker_le_trans; [exact Hm|apply Hh].
Qed.

Lemma keeps_call {A} (m : M A) : keeps_errors m → keeps_errors (call m).
Proof.
  intros Hm s. unfold call.
  specialize (Hm {| tracker := tracker s; items := [] |}).
  by destruct (m _) as [r s1].
Qed.

Lemma keeps_for_each {A} (l : list A) (body : A → M unit) :
  (∀ x, keeps_errors (body x)) → keeps_errors (for_each l body).
Proof.
  intros Hbody. induction l as [|x l IH]; simpl; [apply keeps_ret|].
  apply keeps_bind; auto.
Qed.

Lemma keeps_for_each_until {A} (l : list A) (body : A → M bool) :
  (∀ x, keeps_errors (body x)) → keeps_errors (for_each_until l body).
Proof.
  intros Hbody. induction l as [|x l IH]; simpl; [apply keeps_ret|].
  apply keeps_bind; auto. intros []; [apply keeps_ret|done].
Qed.

Lemma keeps_collect {A B} (l : list A) (f : A → M (list B)) :
  (∀ x, keeps_errors (f x)) → keeps_errors (collect l f).
Proof.
  intros Hf. induction l as [|x l IH]; simpl; [apply keeps_ret|].
  apply keeps_bind; auto. intros ys. apply keeps_bind; auto.
  intros zs. apply keeps_ret.
Qed.

(** *** [contained]: returning always *)

Lemma contained_keeps {A} (m : M A) : contained m → keeps_errors m.
Proof. intros Hm s. destruct (Hm s) as (a & s' & -> & Hle). done. Qed.

Lemma contained_ret {A} (a : A) : contained (ret a).
Proof. intros s. exists a, s. split; [done|apply tracker_le_refl]. Qed.

Lemma contained_log_error source error : contained (log_error source error).
Proof. intros s. eexists _, _. split; [done|apply tracker_le_log_error]. Qed.

Lemma contained_log_success source count : contained (log_success source count).
Proof. intros s. eexists _, _. split; [done|apply tracker_le_log_success]. Qed.

Lemma contained_append itm : contained (append itm).
Proof. intros s. eexists _, _. split; [done|apply tracker_le_refl]. Qed.

Lemma contained_extend itms : contained (extend itms).
Proof. intros s. eexists _, _. split; [done|apply tracker_le_refl]. Qed.

Lemma contained_get_items : contained get_items.
Proof. intros s. eexists _, _. split; [done|apply tracker_le_refl]. Qed.

Lemma contained_bind {A B} (m : M A) (k : A → M B) :
  contained m → (∀ a, contained (k a)) → contained (bind m k).
Proof.
  intros Hm Hk s. unfold bind. destruct (Hm s) as (a & s1 & -> & Hle1).
  destruct (Hk a s1) as (b & s2 & -> & Hle2).
  exists b, s2. split; [done|]. by eapply tracker_le_trans.
Qed.

Lemma contained_try_except {A} (m : M A) (h : string → M A) :
  keeps_errors m → (∀ e, contained (h e)) → contained (try_except m h).
Proof.
  intros Hm Hh s. unfold try_except. specialize (Hm s).
  destruct (m s) as [[a|e] s1]; simpl in *.
  - by exists a, s1.
  - destruct (Hh e s1) as (b & s2 & -> & Hle2).
    exists b, s2. split; [done|]. by eapply tracker_le_trans.
Qed.

Lemma contained_call {A} (m : M A) : contained m → contained (call m).
Proof.
  intros Hm s. unfold call.
  destruct (Hm {| tracker := tracker s; items := [] |}) as (a & s1 & -> & Hle).
  by eexists _, _.
Qed.

Lemma contained_for_each {A} (l : list A) (body : A → M unit) :
  (∀ x, contained (body x)) → contained (for_each l body).
Proof.
  intros Hbody. induction l as [|x l IH]; simpl; [apply contained_ret|].
  apply contained_bind; auto.
Qed.

(** *** [raises] *)

Lemma raises_perform {A} e : raises (perform (Raise e : outcome A)) e.
Proof. intros s. by exists s. Qed.

Lemma raises_bind {A B} (m : M A) (k : A → M B) e :
  raises m e → raises (bind m k) e.
Proof. intros Hm s. unfold bind. destruct (Hm s) as (s1 & ->). by exists s1. Qed.

Lemma raises_after {A B} (m : M A) (k : A → M B) e :
  contained m → (∀ a, raises (k a) e) → raises (bind m k) e.
Proof.
  intros Hm Hk s. unfold bind. destruct (Hm s) as (a & s1 & -> & _). apply Hk.
Qed.

Lemma raises_call {A} (m : M A) e : raises m e → raises (call m) e.
Proof.
  intros Hm s. unfold call.
  destruct (Hm {| tracker := tracker s; items := [] |}) as (s1 & ->). by eexists.
Qed.

(** Reading the outcomes of a list in order stops at the first exception. *)
Lemma raises_for_each_first {A} (l : list (outcome A)) (f : A → M unit) e :
  first_raise l = Some e → (∀ x, contained (f x)) →
  raises (for_each l (λ entry, x <- perform entry ;; f x)) e.
Proof.
  intros Hfirst Hf. induction l as [|[x|e'] l IH]; simpl in *; [discriminate| |].
  - apply raises_after; [|auto]. apply (contained_bind (perform (Ok x))); [|auto].
    intros s. exists x, s. split; [done|apply tracker_le_refl].
  - injection Hfirst as ->. apply raises_bind, raises_bind, raises_perform.
Qed.

Lemma raises_collect_first {A B} (l : list (outcome A)) (g : A → list B) e :
  first_raise l = Some e →
  raises (collect l (λ entry, x <- perform entry ;; ret (g x))) e.
Proof.
  intros Hfirst. induction l as [|[x|e'] l IH]; simpl in *; [discriminate| |].
  - apply raises_after.
    + apply (contained_bind (perform (Ok x))); [|intros; apply contained_ret].
      intros s. exists x, s. split; [done|apply tracker_le_refl].
    + intros ys. apply raises_bind. exact (IH Hfirst).
  - injection Hfirst as ->. apply raises_bind, raises_bind, raises_perform.
Qed.

(** *** [records] *)

Lemma records_try_log (m : M unit) (fmt : string → string) source e :
  raises m e → records (try_except m (λ e, log_error source (fmt e))) source (fmt e).
Proof.
  intros Hm s. unfold try_except. destruct (Hm s) as (s1 & ->).
  eexists _, _. split; [done|]. apply logged_log_error.
Qed.

Lemma records_then {A B} (m : M A) (k : A → M B) source msg :
  records m source msg → (∀ a, contained (k a)) → records (bind m k) source msg.
Proof.
  intros Hm Hk s. unfold bind. destruct (Hm s) as (a & s1 & -> & Hlog).
  destruct (Hk a s1) as (b & s2 & -> & Hle). exists b, s2. split; [done|]. by apply Hle.
Qed.

Lemma records_after {A B} (m : M A) (k : A → M B) source msg :
  contained m → (∀ a, records (k a) source msg) → records (bind m k) source msg.
Proof.
  intros Hm Hk s. unfold bind. destruct (Hm s) as (a & s1 & -> & _). apply Hk.
Qed.

Lemma records_call {A} (m : M A) source msg :
  records m source msg → records (call m) source msg.
Proof.
  intros Hm s. unfold call.
  destruct (Hm {| tracker := tracker s; items := [] |}) as (a & s1 & -> & Hlog).
  by eexists _, _.
Qed.

Lemma records_for_each {A} (l : list A) (body : A → M unit) (x : A) source msg :
  x ∈ l → (∀ y, contained (body y)) → records (body x) source msg →
  records (for_each l body) source msg.
Proof.
  intros Hin Hbody Hx. induction l as [|y l IH]; [by apply elem_of_nil in Hin|].
  simpl. apply elem_of_cons in Hin as [->|Hin].
  - apply records_then; [done|]. intros _. by apply contained_for_each.
  - apply records_after; auto.
Qed.

End MonadLemmas.

Section FetcherLemmas.
Import Config Effects Effects.Notations World Discovery.

Ltac keeps :=
  repeat first
    [ apply keeps_ret | apply keeps_raise | apply keeps_perform
    | apply keeps_log_error | apply keeps_log_success
    | apply keeps_append | apply keeps_extend | apply keeps_get_items
    | apply keeps_call
    | apply keeps_bind; [|intros ?]
    | apply keeps_try_except; [|intros ?]
    | apply keeps_for_each; intros ?
    | apply keeps_for_each_until; intros ?
    | apply keeps_collect; intros ?
    | match goal with
      | |- keeps_errors (if ?b then _ else _) => destruct b
      | |- keeps_errors (match ?x with _ => _ end) => destruct x
      end ].

Ltac contain :=
  repeat first
    [ apply contained_ret
    | apply contained_log_error | apply contained_log_success
    | apply contained_append | apply contained_extend | apply contained_get_items
    | apply contained_call
    | apply contained_bind; [|intros ?]
    | apply contained_try_except; [try solve [keeps]|intros ?]
    | apply contained_for_each; intros ?
    | match goal with
      | |- contained (if ?b then _ else _) => destruct b
      | |- contained (match ?x with _ => _ end) => destruct x
      end ].

Lemma raises_perform_ok {A B} (x : A) (k : A → M B) e :
  raises (k x) e → raises (bind (perform (Ok x)) k) e.
Proof. intros Hk s. apply Hk. Qed.

Lemma records_perform_ok {A B} (x : A) (k : A → M B) source msg :
  records (k x) source msg → records (bind (perform (Ok x)) k) source msg.
Proof. intros Hk s. apply Hk. Qed.

Lemma records_try_ok {A} (m : M A) (h : string → M A) source msg :
  records m source msg → records (try_except m h) source msg.
Proof.
  intros Hm s. unfold try_except. destruct (Hm s) as (a & s1 & -> & Hlog).
  by exists a, s1.
Qed.

(** *** google_news *)

Lemma google_news_contained w : contained (google_news w).
Proof. unfold google_news. cbv zeta. contain. Qed.

Lemma google_news_records w query e :
  query ∈ google_news_queries →
  listing_failure (feedparser_parse w (google_news_rss_url query)) (Some 10) = Some e →
  records (google_news w) (google_news_source query) e.
Proof.
  intros Hin Hfail. unfold google_news. cbv zeta.
  apply records_call, records_then; [|intros; contain].
  apply (records_for_each _ _ query); [done|intros; contain|].
  apply (records_try_log _ (λ e, e)).
  unfold listing_failure in Hfail.
  destruct (feedparser_parse w (google_news_rss_url query)) as [feed|e'].
  - apply raises_perform_ok, raises_bind.
    apply (raises_for_each_first _ (λ e, append (candidate (fst e) (snd e)))); [done|].
    intros; contain.
  - injection Hfail as ->. apply raises_bind, raises_perform.
Qed.

(** *** reddit_scrape *)

Lemma reddit_scrape_contained w : contained (reddit_scrape w).
Proof. unfold reddit_scrape. cbv zeta. contain. Qed.

Lemma reddit_scrape_records w sub e :
  sub ∈ firstn 5 reddit_subs →
  listing_failure (reddit_hot w (reddit_json_url sub)) None = Some e →
  records (reddit_scrape w) (reddit_source sub) e.
Proof.
  intros Hin Hfail. unfold reddit_scrape. cbv zeta.
  apply records_call, records_then; [|intros; contain].
  apply (records_for_each _ _ sub); [done|intros; contain|].
  apply (records_try_log _ (λ e, e)).
  unfold listing_failure in Hfail.
  destruct (reddit_hot w (reddit_json_url sub)) as [children|e'].
  - apply raises_perform_ok, raises_bind.
    apply (raises_for_each_first _
             (λ p, if PyStr.any_in reddit_keywords (lower w (fst p))
                   then append (candidate (fst p) (snd p)) else ret tt)); [done|].
    intros; contain.
  - injection Hfail as ->. apply raises_bind, raises_perform.
Qed.

(** *** _extract_from_site *)

Lemma extract_from_site_contained w cfg : contained (_extract_from_site w cfg).
Proof. unfold _extract_from_site. contain. Qed.

Lemma extract_from_site_records_site w cfg e :
  site_articles w cfg = Raise e →
  records (_extract_from_site w cfg) (site_url cfg) ("Site scrape: " +:+ e).
Proof.
  intros Hfail. unfold _extract_from_site.
  apply records_call, records_then; [|intros; contain].
  apply (records_try_log _ (λ e, "Site scrape: " +:+ e)).
  rewrite Hfail. apply raises_bind, raises_perform.
Qed.

Lemma extract_from_site_records_article w cfg articles e :
  site_articles w cfg = Ok articles →
  Raise e ∈ firstn 5 articles →
  records (_extract_from_site w cfg) (site_url cfg) ("Article extraction: " +:+ e).
Proof.
  intros Hpage Hin. unfold _extract_from_site.
  apply records_call, records_then; [|intros; contain].
  apply records_try_ok. rewrite Hpage. apply records_perform_ok.
  apply records_then; [|intros; contain].
  apply (records_for_each _ _ (Raise e)); [done|intros; contain|].
  apply (records_try_log _ (λ e, "Article extraction: " +:+ e)).
  apply raises_bind, raises_perform.
Qed.

(** *** _scrape_generic_tech_news *)

Lemma scrape_selectors_keeps w url page selectors :
  keeps_errors (scrape_selectors w url page selectors).
Proof.
  induction selectors as [|selector rest IH];
    cbn [scrape_selectors]; [apply keeps_ret|].
  destruct (page selector); [done|]. keeps.
Qed.

Lemma scrape_selectors_raises w url page selectors e :
  selectors_failure page selectors = Some e →
  raises (scrape_selectors w url page selectors) e.
Proof.
  induction selectors as [|selector rest IH];
    cbn [scrape_selectors selectors_failure]; [discriminate|].
  destruct (page selector) as [|a l]; [done|]. intros Hfirst.
  by apply (raises_collect_first _
              (λ a, match article_candidate w url a with
                    | Some itm => [itm]
                    | None => []
                    end)).
Qed.

Lemma scrape_generic_contained w urls : contained (_scrape_generic_tech_news w urls).
Proof.
  unfold _scrape_generic_tech_news. contain.
  apply keeps_bind; [apply keeps_perform|]. intros page.
  apply keeps_bind; [apply scrape_selectors_keeps|]. intros. keeps.
Qed.

Lemma scrape_generic_records w urls url e :
  url ∈ urls →
  generic_failure w url = Some e →
  records (_scrape_generic_tech_news w urls) (generic_source url) ("Scrape: " +:+ e).
Proof.
  intros Hin Hfail. unfold _scrape_generic_tech_news.
  apply records_call, records_then; [|intros; contain].
  apply (records_for_each _ _ url); [done| |].
  { intros y. apply contained_try_except; [|intros; contain].
    apply keeps_bind; [apply keeps_perform|]. intros page.
    apply keeps_bind; [apply scrape_selectors_keeps|]. intros. keeps. }
  apply (records_try_log _ (λ e, "Scrape: " +:+ e)).
  unfold generic_failure in Hfail. destruct (generic_page w url) as [page|e'].
  - apply raises_perform_ok, raises_bind. by apply scrape_selectors_raises.
  - injection Hfail as ->. apply raises_bind, raises_perform.
Qed.

(** *** google_trends: a list always, and the tracker untouched *)

Lemma quiet_ret {A} (a : A) : quiet (ret a).
Proof. intros s. by exists a. Qed.

Lemma quiet_bind {A B} (m : M A) (k : A → M B) :
  quiet m → (∀ a, quiet (k a)) → quiet (bind m k).
Proof.
  intros Hm Hk s. unfold bind. destruct (Hm s) as (a & ->). apply Hk.
Qed.

Lemma quiet_collect {A B} (l : list A) (f : A → M (list B)) :
  (∀ x, quiet (f x)) → quiet (collect l f).
Proof.
  intros Hf. induction l as [|x l IH]; simpl; [apply quiet_ret|].
  apply quiet_bind; [done|]. intros ys. apply quiet_bind; [done|].
  intros zs. apply quiet_ret.
Qed.

Lemma trends_keyword_quiet w kw :
  quiet (try_except
           (data <- perform (related_queries w kw) ;;
            match data with
            | Some (Some queries) => ret (firstn 5 queries)
            | _ => ret []
            end)
           (λ _, ret [])).
Proof.
  intros s. unfold try_except, bind, perform.
  destruct (related_queries w kw) as [[[queries|]|]|e]; by eexists.
Qed.

Lemma google_trends_quiet w s :
  ∃ queries s', google_trends w s = (Ok queries, s')
    ∧ tracker s' = tracker s ∧ items s' = items s.
Proof.
  unfold google_trends, call.
  edestruct (quiet_bind
    (collect trends_kw_list (λ kw,
       try_except
         (data <- perform (related_queries w kw) ;;
          match data with
          | Some (Some queries) => ret (firstn 5 queries)
          | _ => ret []
          end)
         (λ _, ret [])))
    (λ all_trending_queries,
       ret (elements (list_to_set all_trending_queries : gset string)))) as (qs & ->).
  - apply quiet_collect. intros kw. apply trends_keyword_quiet.
  - intros a. apply quiet_ret.
  - by eexists _, _.
Qed.

(** *** hackernews: no handler of its own *)

Lemma hackernews_keeps w : keeps_errors (hackernews w).
Proof. unfold hackernews. keeps. Qed.

Lemma hackernews_raises w e : hn_storylinks w = Raise e → raises (hackernews w) e.
Proof.
  intros Hfail. unfold hackernews. rewrite Hfail.
  apply raises_call, raises_bind, raises_perform.
Qed.

Lemma contained_for_each_until {A} (l : list A) (body : A → M bool) :
  (∀ x, contained (body x)) → contained (for_each_until l body).
Proof.
  intros Hbody. induction l as [|x l IH]; simpl; [apply contained_ret|].
  apply contained_bind; auto. intros []; [apply contained_ret|done].
Qed.

Lemma hackernews_returns w links :
  hn_storylinks w = Ok links → contained (hackernews w).
Proof.
  intros Hpage. unfold hackernews. rewrite Hpage. apply contained_call.
  apply (contained_bind (perform (Ok links))).
  { intros s. exists links, s. split; [done|apply tracker_le_refl]. }
  intros links'. apply contained_bind; [|intros; contain].
  apply contained_for_each_until. intros a. contain.
Qed.

(** *** discover *)

Lemma rss_ingest_contained w : contained (
  for_each rss_urls (λ feed_url,
    try_except
      (feed <- perform (feedparser_parse w feed_url) ;;
       rss_items <- collect (firstn 5 feed) (λ entry,
                      e <- perform entry ;; ret [candidate (fst e) (snd e)]) ;;
       extend rss_items ;;;
       host <- index (PyStr.split_on "/" feed_url) 2 ;;
       log_success ("RSS " +:+ host) (length rss_items))
      (λ e, log_error ("RSS " +:+ feed_url) e))).
Proof.
  contain.
Qed.

Lemma collect_pool_contained w : contained (collect_pool w).
Proof.
  unfold collect_pool.
  apply contained_bind.
  { apply contained_for_each. intros cfg.
    apply contained_bind; [apply extract_from_site_contained|intros; contain]. }
  intros _. apply contained_bind.
  { apply contained_bind; [apply scrape_generic_contained|intros; contain]. }
  intros _. apply contained_bind.
  { apply contained_bind; [apply scrape_generic_contained|intros; contain]. }
  intros _. apply contained_bind.
  { apply contained_bind; [apply scrape_generic_contained|intros; contain]. }
  intros _. apply contained_bind.
  { apply contained_try_except; [|intros; contain].
    apply keeps_bind; [apply contained_keeps, google_news_contained|intros; keeps]. }
  intros _. apply contained_bind.
  { apply contained_try_except; [|intros; contain].
    apply keeps_bind; [apply hackernews_keeps|intros; keeps]. }
  intros _. apply contained_bind; [apply rss_ingest_contained|].
  intros _. apply contained_bind.
  { apply contained_try_except; [|intros; contain].
    apply keeps_bind; [apply contained_keeps, reddit_scrape_contained|intros; keeps]. }
  intros _. contain.
Qed.

Lemma discover_contained w : contained (discover w).
Proof.
  unfold discover. apply contained_call.
  apply contained_bind; [apply collect_pool_contained|intros; contain].
Qed.

Lemma discover_records_hackernews w e :
  hn_storylinks w = Raise e → records (discover w) "Hacker News" e.
Proof.
  intros Hfail. unfold discover. apply records_call.
  apply records_then; [|intros; contain].
  unfold collect_pool.
  apply records_after.
  { apply contained_for_each. intros cfg.
    apply contained_bind; [apply extract_from_site_contained|intros; contain]. }
  intros _. apply records_after.
  { apply contained_bind; [apply scrape_generic_contained|intros; contain]. }
  intros _. apply records_after.
  { apply contained_bind; [apply scrape_generic_contained|intros; contain]. }
  intros _. apply records_after.
  { apply contained_bind; [apply scrape_generic_contained|intros; contain]. }
  intros _. apply records_after.
  { apply contained_try_except; [|intros; contain].
    apply keeps_bind; [apply contained_keeps, google_news_contained|intros; keeps]. }
  intros _. apply records_then.
  { apply (records_try_log _ (λ e, e)). by apply raises_bind, hackernews_raises. }
  intros _. apply contained_bind; [apply rss_ingest_contained|].
  intros _. apply contained_bind.
  { apply contained_try_except; [|intros; contain].
    apply keeps_bind; [apply contained_keeps, reddit_scrape_contained|intros; keeps]. }
  intros _. contain.
Qed.

End FetcherLemmas.

Section FetcherTheorems.
Import Config Effects Effects.Notations World Discovery.

(** C6 (as amended): google_news, reddit_scrape, _extract_from_site and
    _scrape_generic_tech_news catch every failure inside their own body:
    they always return a list, and a failure of the fetch or of reading an
    entry or article is recorded in the error tracker under the name of its
    source.  google_trends also always returns a list.  hackernews has no
    handler: when its page fetch fails the exception leaves the method, is
    caught by discover and recorded there under "Hacker News"; discover itself
    always returns. *)
Theorem fetcher_failures_are_contained (w : world) (s : frame) :
  (∃ its s', google_news w s = (Ok its, s')
     ∧ ∀ query e, query ∈ google_news_queries →
         listing_failure (feedparser_parse w (google_news_rss_url query)) (Some 10) = Some e →
         logged (google_news_source query) e (tracker s'))
  ∧ (∃ its s', reddit_scrape w s = (Ok its, s')
     ∧ ∀ sub e, sub ∈ firstn 5 reddit_subs →
         listing_failure (reddit_hot w (reddit_json_url sub)) None = Some e →
         logged (reddit_source sub) e (tracker s'))
  ∧ (∀ cfg, ∃ its s', _extract_from_site w cfg s = (Ok its, s')
     ∧ (∀ e, site_articles w cfg = Raise e →
             logged (site_url cfg) ("Site scrape: " +:+ e) (tracker s'))
     ∧ (∀ articles e, site_articles w cfg = Ok articles → Raise e ∈ firstn 5 articles →
             logged (site_url cfg) ("Article extraction: " +:+ e) (tracker s')))
  ∧ (∀ urls, ∃ its s', _scrape_generic_tech_news w urls s = (Ok its, s')
     ∧ ∀ url e, url ∈ urls → generic_failure w url = Some e →
         logged (generic_source url) ("Scrape: " +:+ e) (tracker s'))
  ∧ (∃ queries s', google_trends w s = (Ok queries, s'))
  ∧ match hn_storylinks w with
    | Raise e => ∃ s', hackernews w s = (Raise e, s') ∧ tracker s' = tracker s
    | Ok _ => ∃ its s', hackernews w s = (Ok its, s')
    end
  ∧ (∃ its s', discover w s = (Ok its, s')
     ∧ ∀ e, hn_storylinks w = Raise e → logged "Hacker News" e (tracker s')).
Proof.
  repeat apply conj.
  - destruct (google_news_contained w s) as (its & s' & Hrun & _).
    exists its, s'. split; [done|]. intros query e Hin Hfail.
    destruct (google_news_records w query e Hin Hfail s) as (? & ? & Hrun' & Hlog).
    congruence.
  - destruct (reddit_scrape_contained w s) as (its & s' & Hrun & _).
    exists its, s'. split; [done|]. intros sub e Hin Hfail.
    destruct (reddit_scrape_records w sub e Hin Hfail s) as (? & ? & Hrun' & Hlog).
    congruence.
  - intros cfg. destruct (extract_from_site_contained w cfg s) as (its & s' & Hrun & _).
    exists its, s'. split; [done|]. split.
    + intros e Hfail.
      destruct (extract_from_site_records_site w cfg e Hfail s) as (? & ? & Hrun' & Hlog).
      congruence.
    + intros articles e Hpage Hin.
      destruct (extract_from_site_records_article w cfg articles e Hpage Hin s)
        as (? & ? & Hrun' & Hlog).
      congruence.
  - intros urls. destruct (scrape_generic_contained w urls s) as (its & s' & Hrun & _).
    exists its, s'. split; [done|]. intros url e Hin Hfail.
    destruct (scrape_generic_records w urls url e Hin Hfail s) as (? & ? & Hrun' & Hlog).
    congruence.
  - destruct (google_trends_quiet w s) as (queries & s' & Hrun & Htr & _). eauto.
  - destruct (hn_storylinks w) as [links|e] eqn:Hpage.
    + destruct (hackernews_returns w links Hpage s) as (its & s' & Hrun & _). eauto.
    + unfold hackernews, call, bind, perform. rewrite Hpage. by eexists.
  - destruct (discover_contained w s) as (its & s' & Hrun & _).
    exists its, s'. split; [done|]. intros e Hfail.
    destruct (discover_records_hackernews w e Hfail s) as (? & ? & Hrun' & Hlog).
    congruence.
Qed.

(** C6, as stated, fails for hackernews: with the network down the method
    raises to its caller and records nothing. *)
Lemma hackernews_propagates_failure :
  hackernews Samples.offline {| tracker := new_tracker; items := [] |}
  = (Raise "connection refused", {| tracker := new_tracker; items := [] |})
  ∧ ¬ ∃ its s', hackernews Samples.offline {| tracker := new_tracker; items := [] |}
                = (Ok its, s').
Proof.
  assert (Hrun : hackernews Samples.offline {| tracker := new_tracker; items := [] |}
                 = (Raise "connection refused", {| tracker := new_tracker; items := [] |}))
    by reflexivity.
  split; [exact Hrun|]. intros (its & s' & Hok). rewrite Hrun in Hok. discriminate.
Qed.

(** C6 at work: without network, discover still returns and the failure of
    the Hacker News fetch is on record. *)
Lemma fetcher_failures_sample :
  ∃ its s', discover Samples.offline {| tracker := new_tracker; items := [] |} = (Ok its, s')
    ∧ logged "Hacker News" "connection refused" (tracker s').
Proof.
  destruct (fetcher_failures_are_contained Samples.offline
              {| tracker := new_tracker; items := [] |})
    as (_ & _ & _ & _ & _ & _ & its & s' & Hrun & Hlog).
  exists its, s'. split; [exact Hrun|]. apply Hlog. reflexivity.
Defined.

End FetcherTheorems.

(** ** The pipeline *)
Section PipelineLemmas.
Import Config Effects Effects.Notations World Discovery Delivery Pipeline.

Lemma discover_result w s :
  ∃ pool s', discover w s = (Ok (discover_from_pool pool), s').
Proof.
  unfold discover, call, bind at 1.
  destruct (collect_pool_contained w {| tracker := tracker s; items := [] |})
    as (pool & s1 & -> & _).
  by eexists _, _.
Qed.

Lemma discover_from_pool_length pool : (length (discover_from_pool pool) ≤ 50)%nat.
Proof. unfold discover_from_pool. rewrite length_take. lia. Qed.

Lemma select_length posted raw : (length (select posted raw) ≤ POSTS_PER_DAY)%nat.
Proof. unfold select. rewrite length_take. lia. Qed.


Lemma select_fresh raw : select ∅ raw = firstn POSTS_PER_DAY raw.
Proof.
  unfold select. f_equal. induction raw as [|x raw IH]; simpl; [done|].
  rewrite IH. by rewrite bool_decide_eq_false_2 by set_solver.
Qed.

Lemma render_spec w sel : ∀ c msgs t,
  ∃ new t',
    render w sel c msgs t
    = ({| date := date c; titles := titles c ++ map title sel |}, msgs ++ new, t')
    ∧ length new = length sel.
Proof.
  induction sel as [|itm sel IH]; intros c msgs t; cbn [render].
  { exists [], t. rewrite !app_nil_r. by destruct c. }
  destruct (Signal.enrich w itm t) as [enriched t1].
  destruct (Formatter.build_post w enriched t1) as [post t2].
  destruct (IH {| date := date c; titles := titles c ++ [title itm] |}
               (msgs ++ [post]) t2) as (new & t' & -> & Hlen).
  exists (post :: new), t'. simpl. rewrite <- !app_assoc. simpl.
  split; [done|]. by rewrite Hlen.
Qed.


Lemma select_sublist posted raw : select posted raw `sublist_of` raw.
Proof.
  unfold select. etrans; [apply sublist_take|].
  induction raw as [|x raw IH]; simpl; [done|].
  destruct (negb _); [by apply sublist_skip|by apply sublist_cons].
Qed.

Lemma run_loop_trace w msgs : ∀ st acc,
  ∃ evs, trace (fst (fold_left (run_step w) msgs (st, acc))) = trace st ++ evs.
Proof.
  induction msgs as [|msg msgs IH]; intros st acc; cbn [fold_left].
  - exists []. by rewrite app_nil_r.
  - rewrite run_step_eq. edestruct IH as (evs & ->).
    destruct (send_post_trace w msg st) as (evs1 & Htr & _).
    unfold after_message. simpl. rewrite Htr, <- !app_assoc. by eexists.
Qed.

(** What [run] adds to the trace: one first attempt per message when the
    application starts, nothing when it does not. *)
Lemma run_trace w msgs st :
  ∃ evs, trace (run w msgs st) = trace st ++ evs
    ∧ first_attempts evs
      = match app_start w with
        | Ok _ => map truncate msgs
        | Raise _ => []
        end.
Proof.
  unfold run. destruct (app_start w) as [[]|e].
  2: { exists []. by rewrite app_nil_r. }
  destruct (run_fold w msgs st []) as (_ & _ & _ & Hfirst & _).
  destruct (run_loop_trace w msgs st []) as (evs & Htr). fold (run_loop w msgs st) in Htr.
  rewrite Htr, first_attempts_app in Hfirst. apply app_inv_head in Hfirst.
  destruct (run_loop w msgs st) as [st' failed]. simpl in *.
  assert (Hpersist : ∃ evs', trace (persist_failed failed st') = trace st ++ evs'
                             ∧ first_attempts evs' = map truncate msgs).
  { unfold persist_failed. destruct failed; simpl.
    - by exists evs.
    - rewrite Htr, <- app_assoc. eexists. split; [done|].
      rewrite first_attempts_app. simpl. by rewrite app_nil_r. }
  destruct Hpersist as (evs' & Htr' & Hfirst').
  exists evs'. by destruct (app_stop w).
Qed.

Lemma load_cache_readable w fs :
  cache_file fs ≠ Corrupt → ∃ c posted, load_cache w fs = Ok (c, posted).
Proof.
  intros Hfile. unfold load_cache.
  destruct (cache_file fs) as [| |c]; [by eexists _, _|done|].
  destruct (String.eqb _ _); by eexists _, _.
Qed.

(** A run that ends before it has written anything. *)
Lemma main_early w t fs :
  cache_file fs = Corrupt ∨ raised (trend_req w) = true →
  ∃ e, main w t fs = stopped e fs.
Proof.
  intros Hearly. unfold main.
  destruct (load_cache w fs) as [[c posted]|e] eqn:Hload; [|by eexists].
  destruct (trend_req w) as [[]|e]; [|by eexists].
  destruct Hearly as [Hfile|]; [|done].
  unfold load_cache in Hload. by rewrite Hfile in Hload.
Qed.

(** One run that gets to the discovery, step by step. *)
Lemma main_spec w t fs :
  cache_file fs ≠ Corrupt →
  raised (trend_req w) = false →
  ∃ c posted pool evs,
    load_cache w fs = Ok (c, posted)
    ∧ raw_items (main w t fs) = discover_from_pool pool
    ∧ selected (main w t fs) = select posted (raw_items (main w t fs))
    ∧ length (messages (main w t fs)) = length (selected (main w t fs))
    ∧ cache_file (files_after (main w t fs))
      = Holds {| date := date c;
                 titles := titles c ++ map title (selected (main w t fs)) |}
    ∧ events (main w t fs)
      = WriteCache (date c) (titles c ++ map title (selected (main w t fs))) :: evs
    ∧ first_attempts evs
      = match app_start w with
        | Ok _ => map truncate (messages (main w t fs))
        | Raise _ => []
        end.
Proof.
  intros Hfile Htrend. unfold main.
  destruct (load_cache_readable w fs Hfile) as (c & posted & ->).
  destruct (trend_req w) as [[]|e]; [|done].
  destruct (discover_result w {| tracker := new_tracker; items := [] |})
    as (pool & s' & ->). cbn [fst].
  destruct (render_spec w (select posted (discover_from_pool pool)) c [] t)
    as (msgs & t' & -> & Hlen). simpl app.
  edestruct (run_trace w msgs) as (evs & Htr & Hfirst).
  eexists c, posted, pool, evs. split; [done|].
  cbn [raw_items selected messages files_after events cache_file date titles].
  rewrite Htr. by repeat split.
Qed.

Lemma main_cases w t fs :
  (∃ e, main w t fs = stopped e fs
        ∧ (cache_file fs = Corrupt ∨ raised (trend_req w) = true))
  ∨ (cache_file fs ≠ Corrupt ∧ raised (trend_req w) = false).
Proof.
  assert (Hdec : cache_file fs = Corrupt ∨ cache_file fs ≠ Corrupt)
    by (destruct (cache_file fs); auto).
  destruct Hdec as [Hfile|Hfile].
  { left. destruct (main_early w t fs) as (e & He); [by left|]. exists e. auto. }
  destruct (raised (trend_req w)) eqn:Htrend.
  { left. destruct (main_early w t fs) as (e & He); [by right|]. exists e. auto. }
  by right.
Qed.


End PipelineLemmas.

Section PipelineTheorems.
Import Config Effects Effects.Notations World Discovery Delivery Pipeline.

(** C10: whatever way a run ends, it has selected at most 20 items
    (POSTS_PER_DAY), taken in order from at most 50 discovered ones; it has
    rendered one message per selected item, and the delivery engine, when
    its application starts, makes one first attempt per message, so at most
    20 messages are handed over.  The bound is reached: a run that starts
    without a cache file and gets to the discovery selects the first 20
    discovered items. *)
Theorem at_most_twenty_posts (w : world) (t : tape) (fs : files) :
  (length (raw_items (main w t fs)) ≤ 50)%nat
  ∧ (length (selected (main w t fs)) ≤ 20)%nat
  ∧ selected (main w t fs) `sublist_of` raw_items (main w t fs)
  ∧ length (messages (main w t fs)) = length (selected (main w t fs))
  ∧ first_attempts (events (main w t fs))
    = match app_start w with
      | Ok _ => map truncate (messages (main w t fs))
      | Raise _ => []
      end
  ∧ (cache_file fs = Missing →
     selected (main w t fs) = firstn 20 (raw_items (main w t fs))).
Proof.
  destruct (main_cases w t fs) as [(e & -> & _)|[Hfile Htrend]].
  { cbn [stopped raw_items selected messages events].
    split; [simpl; lia|]. split; [simpl; lia|]. split; [done|]. split; [done|].
    split; [by destruct (app_start w)|done]. }
  destruct (main_spec w t fs Hfile Htrend)
    as (c & posted & pool & evs & Hload & Hraw & Hsel & Hmsgs & _ & Hev & Hfirst).
  split; [rewrite Hraw; apply discover_from_pool_length|].
  split; [rewrite Hsel; apply select_length|].
  split; [rewrite Hsel; apply select_sublist|].
  split; [done|]. split.
  - rewrite Hev. simpl. exact Hfirst.
  - intros Hmissing. unfold load_cache in Hload. rewrite Hmissing in Hload.
    injection Hload as <- <-. etrans; [exact Hsel|apply select_fresh].
Qed.

(** C10 at work: on a day with news and without a cache file, 45 items are
    discovered and the first 20 of them are selected, rendered and sent. *)
Lemma at_most_twenty_posts_sample :
  length (raw_items (main (Samples.newsday "2026-11-03") []
                       {| cache_file := Missing; failed_posts := Missing |})) = 45
  ∧ length (selected (main (Samples.newsday "2026-11-03") []
                        {| cache_file := Missing; failed_posts := Missing |})) = 20
  ∧ length (messages (main (Samples.newsday "2026-11-03") []
                        {| cache_file := Missing; failed_posts := Missing |})) = 20
  ∧ length (first_attempts
              (events (main (Samples.newsday "2026-11-03") []
                         {| cache_file := Missing; failed_posts := Missing |}))) = 20.
Proof.
  destruct (at_most_twenty_posts (Samples.newsday "2026-11-03") []
              {| cache_file := Missing; failed_posts := Missing |})
    as (_ & _ & _ & Hmsgs & Hfirst & Hcap).
  assert (Hraw : length (raw_items (main (Samples.newsday "2026-11-03") []
                            {| cache_file := Missing; failed_posts := Missing |})) = 45)
    by (vm_compute; reflexivity).
  assert (Hsel : length (selected (main (Samples.newsday "2026-11-03") []
                            {| cache_file := Missing; failed_posts := Missing |})) = 20).
  { rewrite Hcap by reflexivity. rewrite length_take, Hraw. reflexivity. }
  split; [exact Hraw|]. split; [exact Hsel|]. split; [by rewrite Hmsgs|].
  rewrite Hfirst. cbn [Samples.newsday app_start]. by rewrite length_map, Hmsgs.
Defined.



End PipelineTheorems.

(** ** The card layout *)
Section FormatterLemmas.
Import Effects World Signal Formatter.

Lemma append_assoc (a b c : string) : (a +:+ b) +:+ c = a +:+ b +:+ c.
Proof. induction a as [|x a IH]; [done|]. rewrite !append_cons. by f_equal. Qed.

Lemma newlines_app (a b : string) : newlines (a +:+ b) = newlines a + newlines b.
Proof.
  induction a as [|x a IH]; [done|]. rewrite append_cons. simpl. rewrite IH. lia.
Qed.

Lemma nth_Forall {A} (P : A → Prop) (l : list A) (d : A) (i : nat) :
  Forall P l → P d → P (nth i l d).
Proof.
  intros Hl Hd. revert i. induction Hl; intros [|i]; simpl; auto.
Qed.

Lemma choice_Forall {A} (P : A → Prop) (d : A) (l : list A) (t : tape) :
  Forall P l → P d → P (fst (choice d l t)).
Proof.
  intros Hl Hd. unfold choice. destruct (next t) as [n t']. simpl.
  by apply nth_Forall.
Qed.

Lemma choice_elem_of {A} (d x : A) (l : list A) (t : tape) :
  fst (choice d (x :: l) t) ∈ x :: l.
Proof.
  unfold choice. destruct (next t) as [n t']. cbn [fst].
  apply list_elem_of_In, nth_In, Nat.mod_upper_bound. simpl. lia.
Qed.

Lemma remove_nth_Forall {A} (P : A → Prop) (l : list A) (i : nat) :
  Forall P l → Forall P (remove_nth i l).
Proof.
  intros Hl. revert i. induction Hl; intros [|i]; simpl; auto.
Qed.

Lemma sample_Forall {A} (P : A → Prop) (k : nat) : ∀ (l : list A) (t : tape),
  Forall P l → Forall P (fst (sample k l t)).
Proof.
  induction k as [|k IH]; intros l t Hl; simpl; [constructor|].
  destruct (next t) as [n t1].
  destruct (nth_error l (n mod length l)) as [x|] eqn:Hx; [|constructor].
  specialize (IH (remove_nth (n mod length l) l) t1 (remove_nth_Forall _ _ _ Hl)).
  destruct (sample k _ t1) as [xs t2]. simpl in *. constructor; [|done].
  rewrite Forall_forall in Hl. apply Hl, list_elem_of_In. by eapply nth_error_In.
Qed.

Lemma pool_Forall (P : string → Prop) (name : string) pools :
  Forall (λ kv, Forall P (snd kv)) pools → Forall P (pool name pools).
Proof.
  induction 1 as [|[k v] pools Hv _ IH]; simpl; [constructor|].
  by destruct (String.eqb name k).
Qed.

Lemma emote_pools_plain name : Forall plain (pool name EMOTE_POOLS).
Proof. apply pool_Forall. repeat constructor. Qed.

Lemma hashtag_pools_plain name : Forall plain (pool name HASHTAG_POOLS).
Proof. apply pool_Forall. repeat constructor. Qed.

Lemma emote_plain w title tag t : plain (fst (_get_dynamic_emote w title tag t)).
Proof.
  unfold _get_dynamic_emote. apply (choice_Forall plain); [apply emote_pools_plain|done].
Qed.

Lemma plain_app (a b : string) : plain a → plain b → plain (a +:+ b).
Proof. unfold plain. rewrite newlines_app. lia. Qed.

Lemma plain_cons (c : ascii) (s : string) :
  plain (String c s) → Ascii.eqb c (ascii_of_nat 10) = false ∧ plain s.
Proof.
  unfold plain. simpl. destruct (Ascii.eqb c (ascii_of_nat 10)); [lia|]. by split.
Qed.

Lemma dict_get_plain k kw :
  Forall (λ kv : string * string, plain (snd kv)) kw →
  plain (default EmptyString (dict_get k kw)).
Proof.
  induction 1 as [|[k' v] kw Hv _ IH]; simpl; [done|].
  by destruct (String.eqb k k').
Qed.

Lemma format_from_plain kw template :
  Forall (λ kv : string * string, plain (snd kv)) kw →
  plain template → ∀ field, plain (format_from kw field template).
Proof.
  intros Hkw. induction template as [|c rest IH]; intros Htemplate field; [done|].
  apply plain_cons in Htemplate as [Hc Hrest]. simpl.
  destruct field as [name|].
  - destruct (Ascii.eqb c "}"); [|by apply IH].
    apply plain_app; [by apply dict_get_plain|by apply IH].
  - destruct (Ascii.eqb c "{"); [by apply IH|].
    unfold plain. simpl. rewrite Hc. by apply IH.
Qed.

Lemma insight_context_plain w company title :
  plain company →
  Forall (λ kv : string * string, plain (snd kv)) (insight_context w company title).
Proof.
  intros Hcompany. unfold insight_context.
  repeat match goal with |- context [if ?b then _ else _] => destruct b end;
    repeat constructor; done.
Qed.

Lemma insight_template w company title t :
  ∃ template, template ∈ INSIGHT_TEMPLATES
    ∧ fst (_generate_insight w company title t)
      = format template (insight_context w company title).
Proof.
  unfold _generate_insight.
  pose proof (choice_elem_of EmptyString
                "Signals a major power shift in {industry}."
                (tl INSIGHT_TEMPLATES) t) as Hin.
  change (_ :: tl INSIGHT_TEMPLATES) with INSIGHT_TEMPLATES in Hin.
  destruct (choice EmptyString INSIGHT_TEMPLATES t) as [template t']. by exists template.
Qed.

Lemma insight_plain w company title t :
  plain company → plain (fst (_generate_insight w company title t)).
Proof.
  intros Hcompany.
  destruct (insight_template w company title t) as (template & Hin & ->).
  apply format_from_plain; [by apply insight_context_plain|].
  revert template Hin. apply Forall_forall. repeat constructor.
Qed.

Lemma fill_general_plain rounds : ∀ tags t,
  Forall plain tags → Forall plain (fst (fill_general rounds tags t)).
Proof.
  induction rounds as [|rounds IH]; intros tags t Htags; cbn [fill_general]; [done|].
  pose proof (sample_Forall plain 1 _ t (hashtag_pools_plain "general")) as Hg.
  destruct (sample 1 (pool "general" HASHTAG_POOLS) t) as [g t'].
  apply IH, Forall_app. by split.
Qed.

Lemma collect_hashtags_plain w title company country t :
  Forall plain (fst (collect_hashtags w title company country t)).
Proof.
  unfold collect_hashtags.
  assert (Hsample : ∀ k name t0, Forall plain (fst (sample k (pool name HASHTAG_POOLS) t0))).
  { intros. apply sample_Forall, hashtag_pools_plain. }
  assert (Hnone : ∀ t0 : tape, Forall plain (fst (([] : list string), t0))) by constructor.
  repeat match goal with
         | |- context [let '(_, _) := ?p in _] =>
             let H := fresh "H" in
             assert (H : Forall plain (fst p))
               by (repeat match goal with
                          | |- context [if ?b then _ else _] => destruct b
                          end; auto);
             destruct p
         end.
  cbn [fst] in *. apply fill_general_plain. rewrite !Forall_app. by repeat split.
Qed.

Lemma set_order_plain tags t :
  Forall plain tags → Forall plain (fst (set_order tags t)).
Proof.
  intros Htags. unfold set_order. apply sample_Forall.
  apply Forall_forall. intros x Hin. rewrite elem_of_remove_dups in Hin.
  rewrite Forall_forall in Htags. exact (Htags x Hin).
Qed.

Lemma tag_with_dots_plain tags : ∀ i,
  Forall plain tags → Forall plain (tag_with_dots i tags).
Proof.
  induction tags as [|tag tags IH]; intros i Htags; cbn [tag_with_dots]; [constructor|].
  inversion Htags; subst. constructor; [|by apply IH].
  apply plain_app; [done|]. apply plain_app; [done|].
  apply (nth_Forall plain); [repeat constructor|done].
Qed.

Lemma join_plain sep l : plain sep → Forall plain l → plain (PyStr.join sep l).
Proof.
  intros Hsep. induction 1 as [|x l Hx Hl IH]; [done|]. simpl.
  destruct l; [done|]. apply plain_app; [done|]. by apply plain_app.
Qed.

Lemma hashtags_plain w title company country t :
  plain (fst (_generate_hashtags w title company country t)).
Proof.
  unfold _generate_hashtags.
  pose proof (collect_hashtags_plain w title company country t) as Htags.
  destruct (collect_hashtags w title company country t) as [tags t1].
  pose proof (set_order_plain tags t1 Htags) as Hordered.
  destruct (set_order tags t1) as [ordered t2]. cbn [fst] in *.
  apply join_plain; [done|]. apply tag_with_dots_plain. by apply Forall_take.
Qed.

(** *** The emote *)

Lemma emote_from_pool w title tag t :
  fst (_get_dynamic_emote w title tag t) ∈ pool (emote_pool_name w title tag) EMOTE_POOLS.
Proof.
  unfold _get_dynamic_emote, emote_pool_name.
  repeat match goal with |- context [if ?b then _ else _] => destruct b end;
    apply choice_elem_of.
Qed.

(** *** The hashtags *)

Lemma remove_nth_length {A} (l : list A) (i : nat) :
  (i < length l)%nat → S (length (remove_nth i l)) = length l.
Proof.
  revert i. induction l as [|x l IH]; intros [|i] Hi; simpl in *; try lia.
  rewrite IH; lia.
Qed.

Lemma remove_nth_sublist {A} (l : list A) (i : nat) : remove_nth i l `sublist_of` l.
Proof.
  revert i. induction l as [|x l IH]; intros [|i]; simpl.
  - constructor.
  - constructor.
  - by apply sublist_cons.
  - by apply sublist_skip.
Qed.

Lemma remove_nth_not_in {A} (l : list A) (i : nat) (x : A) :
  NoDup l → nth_error l i = Some x → x ∉ remove_nth i l.
Proof.
  revert i. induction l as [|y l IH]; intros [|i] Hnodup Hx; simpl in *; try discriminate.
  - injection Hx as ->. by apply NoDup_cons in Hnodup as [? _].
  - apply NoDup_cons in Hnodup as [Hy Hnodup]. intros Hin.
    apply elem_of_cons in Hin as [->|Hin].
    + apply Hy, list_elem_of_In. by eapply nth_error_In.
    + by eapply IH.
Qed.

(** [random.sample]: [k] distinct positions of the list. *)
Lemma sample_spec {A} (k : nat) : ∀ (l : list A) (t : tape),
  (k ≤ length l)%nat →
  length (fst (sample k l t)) = k
  ∧ (∀ x, x ∈ fst (sample k l t) → x ∈ l)
  ∧ (NoDup l → NoDup (fst (sample k l t))).
Proof.
  induction k as [|k IH]; intros l t Hk; simpl.
  { repeat split; [set_solver|constructor]. }
  destruct (next t) as [n t1].
  assert (Hi : (n mod length l < length l)%nat) by (apply Nat.mod_upper_bound; lia).
  destruct (nth_error l (n mod length l)) as [x|] eqn:Hx.
  2: { apply nth_error_None in Hx. lia. }
  pose proof (remove_nth_length l _ Hi) as Hlen.
  destruct (IH (remove_nth (n mod length l) l) t1) as (Hk' & Hin & Hnodup); [lia|].
  destruct (sample k (remove_nth (n mod length l) l) t1) as [xs t2]. cbn [fst] in *.
  split; [simpl; lia|]. split.
  - intros y Hy. apply elem_of_cons in Hy as [->|Hy].
    + apply list_elem_of_In. by eapply nth_error_In.
    + eapply elem_of_sublist; [by apply Hin|apply remove_nth_sublist].
  - intros Hl. apply NoDup_cons. split.
    + intros Hxin. apply Hin in Hxin. by eapply remove_nth_not_in.
    + apply Hnodup. eapply sublist_NoDup; [exact Hl|apply remove_nth_sublist].
Qed.

Lemma fill_general_length rounds : ∀ tags t,
  length (fst (fill_general rounds tags t)) = length tags + rounds.
Proof.
  induction rounds as [|rounds IH]; intros tags t; cbn [fill_general]; [simpl; lia|].
  destruct (sample_spec 1 (pool "general" HASHTAG_POOLS) t) as (Hone & _); [simpl; lia|].
  destruct (sample 1 (pool "general" HASHTAG_POOLS) t) as [g t']. cbn [fst] in Hone.
  rewrite IH, length_app. lia.
Qed.

Lemma sample_from_pools k name t :
  Forall from_pools (fst (sample k (pool name HASHTAG_POOLS) t)).
Proof. apply sample_Forall. apply Forall_forall. intros tag Hin. by exists name. Qed.

Lemma fill_general_from_pools rounds : ∀ tags t,
  Forall from_pools tags → Forall from_pools (fst (fill_general rounds tags t)).
Proof.
  induction rounds as [|rounds IH]; intros tags t Htags; cbn [fill_general]; [done|].
  pose proof (sample_from_pools 1 "general" t) as Hg.
  destruct (sample 1 (pool "general" HASHTAG_POOLS) t) as [g t'].
  apply IH, Forall_app. by split.
Qed.

Lemma collect_hashtags_spec w title company country t :
  (4 ≤ length (fst (collect_hashtags w title company country t)))%nat
  ∧ Forall from_pools (fst (collect_hashtags w title company country t)).
Proof.
  unfold collect_hashtags.
  assert (Hnone : ∀ t0 : tape, Forall from_pools (fst (([] : list string), t0)))
    by constructor.
  pose proof sample_from_pools as Hsample.
  repeat match goal with
         | |- context [let '(_, _) := ?p in _] =>
             let H := fresh "H" in
             assert (H : Forall from_pools (fst p))
               by (repeat match goal with
                          | |- context [if ?b then _ else _] => destruct b
                          end; auto);
             destruct p
         end.
  cbn [fst] in *. split.
  - rewrite fill_general_length. lia.
  - apply fill_general_from_pools. rewrite !Forall_app. by repeat split.
Qed.

(** The hashtag line: between 1 and 6 hashtags of the pools, no hashtag
    twice, each followed by its coloured dot. *)
Lemma hashtags_spec w title company country t :
  ∃ tags,
    fst (_generate_hashtags w title company country t)
    = PyStr.join "   " (tag_with_dots 0 tags)
    ∧ (1 ≤ length tags ≤ 6)%nat
    ∧ NoDup tags
    ∧ Forall from_pools tags.
Proof.
  unfold _generate_hashtags.
  destruct (collect_hashtags_spec w title company country t) as [Hfour Hpools].
  destruct (collect_hashtags w title company country t) as [tags t1]. cbn [fst] in *.
  unfold set_order.
  destruct (sample_spec (length (remove_dups tags)) (remove_dups tags) t1)
    as (Hlen & Hin & Hnodup); [done|].
  destruct (sample (length (remove_dups tags)) (remove_dups tags) t1)
    as [ordered t2]. cbn [fst] in *.
  exists (firstn 6 ordered). split; [done|]. split; [|split].
  - rewrite length_take, Hlen.
    assert (length (remove_dups tags) ≠ 0).
    { destruct tags as [|tag tags]; [simpl in Hfour; lia|].
      intros Hzero. apply length_zero_iff_nil in Hzero.
      assert (Htag : tag ∈ remove_dups (tag :: tags)) by (apply elem_of_remove_dups; by left).
      rewrite Hzero in Htag. by apply elem_of_nil in Htag. }
    lia.
  - eapply sublist_NoDup; [|apply sublist_take]. apply Hnodup, NoDup_remove_dups.
  - apply Forall_take, Forall_forall. intros tag Htag.
    apply Hin in Htag. apply (proj1 (elem_of_remove_dups _ _)) in Htag.
    rewrite Forall_forall in Hpools. exact (Hpools _ Htag).
Qed.

(** *** The description *)

Lemma newlines_of_list (l : list ascii) :
  Forall (λ c, PyStr.is_space c = false) l → plain (string_of_list_ascii l).
Proof.
  induction 1 as [|c l Hc _ IH]; [done|]. unfold plain in *. simpl.
  destruct (Ascii.eqb c (ascii_of_nat 10)) eqn:Hnl; [|done].
  apply Ascii.eqb_eq in Hnl. subst c. discriminate.
Qed.

Lemma flush_plain (cur : list ascii) :
  Forall (λ c, PyStr.is_space c = false) cur →
  Forall plain match cur with
               | [] => []
               | _ => [string_of_list_ascii (rev cur)]
               end.
Proof.
  intros Hcur. destruct cur; [constructor|]. constructor; [|constructor].
  apply newlines_of_list. by apply Forall_rev.
Qed.

(** The words of [split()] hold no line break. *)
Lemma split_ws_from_plain (n : nat) : ∀ s cur,
  (String.length s ≤ n)%nat →
  Forall (λ c, PyStr.is_space c = false) cur →
  Forall plain (PyStr.split_ws_from cur s).
Proof.
  induction n as [|n IH]; intros s cur Hlen Hcur.
  { destruct s; [|simpl in Hlen; lia]. by apply flush_plain. }
  destruct s as [|c1 s1]; [by apply flush_plain|].
  cbn [PyStr.split_ws_from]. simpl in Hlen.
  pose proof (flush_plain cur Hcur) as Hflush.
  destruct (PyStr.is_space c1) eqn:Hc1.
  { apply Forall_app. split; [done|]. apply IH; [lia|constructor]. }
  assert (Hword : Forall plain (PyStr.split_ws_from (c1 :: cur) s1))
    by (apply IH; [lia|by constructor]).
  destruct s1 as [|c2 s2]; [done|]. simpl in Hlen.
  destruct (PyStr.is_space2 c1 c2).
  { apply Forall_app. split; [done|]. apply IH; [lia|constructor]. }
  destruct s2 as [|c3 s3]; [done|]. simpl in Hlen.
  destruct (PyStr.is_space3 c1 c2 c3); [|done].
  apply Forall_app. split; [done|]. apply IH; [lia|constructor].
Qed.

Lemma nonempty_app (a b : string) : b ≠ EmptyString → a +:+ b ≠ EmptyString.
Proof. intros Hb. destruct a; [done|]. by rewrite append_cons. Qed.

(** The description [build_post] asks for: one line, never empty. *)
Lemma description_one_line title :
  plain (_generate_description title EmptyString)
  ∧ _generate_description title EmptyString ≠ EmptyString.
Proof.
  unfold _generate_description. cbn [PyStr.truthy andb].
  destruct (8 <? length (PyStr.split_ws title))%nat; [|done]. split.
  - apply plain_app; [|done]. apply join_plain; [done|].
    apply Forall_drop. unfold PyStr.split_ws.
    apply (split_ws_from_plain (String.length title)); [done|constructor].
  - by apply nonempty_app.
Qed.

(** The card is the layout filled with the three drawn parts. *)
Lemma build_post_card w data t :
  ∃ t1 t2,
    fst (build_post w data t)
    = card (headline_line (fst (_get_dynamic_emote w (headline data) (tag data) t)) data)
           (stock_line w data) (company_line w data)
           (_generate_description (headline data) EmptyString)
           (fst (_generate_insight w (company data) (headline data) t1))
           (fst (_generate_hashtags w (headline data) (company data) (country data) t2))
           (source_line w data).
Proof.
  unfold build_post.
  destruct (_get_dynamic_emote w (headline data) (tag data) t) as [emote t1].
  exists t1.
  destruct (_generate_insight w (company data) (headline data) t1) as [insight t2].
  exists t2.
  destruct (_generate_hashtags w (headline data) (company data) (country data) t2)
    as [hashtags t3].
  cbn [fst]. unfold card, headline_line, company_line, source_line.
  by rewrite !append_assoc.
Qed.

Lemma newlines_card a b c d e f g :
  newlines (card a b c d e f g)
  = newlines a + newlines b + newlines c + newlines d + newlines e + newlines f
    + newlines g + 13.
Proof.
  unfold card. rewrite !newlines_app.
  change (newlines nl) with 1.
  change (newlines "📝 *Description:*") with 0.
  change (newlines "🧠 *Why it matters:*") with 0. lia.
Qed.

End FormatterLemmas.

Section FormatterTheorems.
Import Effects World Signal Formatter.

(** C9 (as amended): whatever the random draws, the card is the fixed layout
    filled in this order: headline line (emote and starred headline), price
    line, company/country/date line, description block, insight block,
    hashtag line, source line.  Two runs on the same item differ at most in
    the emote, the insight and the hashtags.  The emote is one of the pool
    the headline selects and holds no line break; the description is one
    line and never empty; the insight is one of the templates filled with the
    item's context; the hashtag line is one line of 1 to 6 distinct hashtags
    of the pools, each with its dot.  For a company name without line break
    the two cards have the same number of lines. *)
Theorem build_post_same_layout (w : world) (data : enriched) (t1 t2 : tape) :
  ∃ emote1 insight1 tags1 emote2 insight2 tags2,
    fst (build_post w data t1)
    = card (headline_line emote1 data) (stock_line w data) (company_line w data)
           (_generate_description (headline data) EmptyString)
           insight1 (PyStr.join "   " (tag_with_dots 0 tags1)) (source_line w data)
    ∧ fst (build_post w data t2)
      = card (headline_line emote2 data) (stock_line w data) (company_line w data)
             (_generate_description (headline data) EmptyString)
             insight2 (PyStr.join "   " (tag_with_dots 0 tags2)) (source_line w data)
    ∧ (∃ price, stock_line w data = "📊 " +:+ price)
    ∧ emote1 ∈ pool (emote_pool_name w (headline data) (tag data)) EMOTE_POOLS
    ∧ emote2 ∈ pool (emote_pool_name w (headline data) (tag data)) EMOTE_POOLS
    ∧ plain emote1 ∧ plain emote2
    ∧ plain (_generate_description (headline data) EmptyString)
    ∧ _generate_description (headline data) EmptyString ≠ EmptyString
    ∧ (∃ template1 template2,
         template1 ∈ INSIGHT_TEMPLATES ∧ template2 ∈ INSIGHT_TEMPLATES
         ∧ insight1 = format template1 (insight_context w (company data) (headline data))
         ∧ insight2 = format template2 (insight_context w (company data) (headline data)))
    ∧ ((1 ≤ length tags1 ≤ 6)%nat ∧ NoDup tags1 ∧ Forall from_pools tags1
       ∧ plain (PyStr.join "   " (tag_with_dots 0 tags1)))
    ∧ ((1 ≤ length tags2 ≤ 6)%nat ∧ NoDup tags2 ∧ Forall from_pools tags2
       ∧ plain (PyStr.join "   " (tag_with_dots 0 tags2)))
    ∧ (plain (company data) →
       newlines (fst (build_post w data t1)) = newlines (fst (build_post w data t2))).
Proof.
  destruct (build_post_card w data t1) as (t1' & t1'' & Hcard1).
  destruct (build_post_card w data t2) as (t2' & t2'' & Hcard2).
  destruct (insight_template w (company data) (headline data) t1') as (tpl1 & Hin1 & Hfmt1).
  destruct (insight_template w (company data) (headline data) t2') as (tpl2 & Hin2 & Hfmt2).
  pose proof (emote_plain w (headline data) (tag data) t1) as He1.
  pose proof (emote_plain w (headline data) (tag data) t2) as He2.
  pose proof (emote_from_pool w (headline data) (tag data) t1) as Hp1.
  pose proof (emote_from_pool w (headline data) (tag data) t2) as Hp2.
  pose proof (hashtags_plain w (headline data) (company data) (country data) t1'') as Hh1.
  pose proof (hashtags_plain w (headline data) (company data) (country data) t2'') as Hh2.
  destruct (hashtags_spec w (headline data) (company data) (country data) t1'')
    as (tags1 & Htags1 & Hlen1 & Hnodup1 & Hpools1).
  destruct (hashtags_spec w (headline data) (company data) (country data) t2'')
    as (tags2 & Htags2 & Hlen2 & Hnodup2 & Hpools2).
  destruct (description_one_line (headline data)) as [Hd Hd'].
  rewrite Htags1 in Hcard1, Hh1. rewrite Htags2 in Hcard2, Hh2.
  eexists _, _, tags1, _, _, tags2. split; [exact Hcard1|]. split; [exact Hcard2|].
  split.
  { unfold stock_line. destruct (_convert_to_inr w (stock data)) as [inr_price arrow].
    destruct (negb _); by eexists. }
  split; [done|]. split; [done|]. split; [done|]. split; [done|].
  split; [done|]. split; [done|]. split.
  { by exists tpl1, tpl2. }
  split; [done|]. split; [done|].
  intros Hcompany. rewrite Hcard1, Hcard2, !newlines_card.
  pose proof (insight_plain w (company data) (headline data) t1' Hcompany) as Hi1.
  pose proof (insight_plain w (company data) (headline data) t2' Hcompany) as Hi2.
  unfold headline_line. rewrite !newlines_app.
  unfold plain in *. lia.
Qed.

(** C9, as stated, fails: with a company name that spans two lines, a draw
    of an insight template that names the company gives a card with one
    line more than a draw of a template that does not. *)
Lemma company_line_break_changes_line_count :
  newlines (fst (build_post Samples.offline Samples.two_line_item [0; 0])) = 15
  ∧ newlines (fst (build_post Samples.offline Samples.two_line_item [0; 1])) = 16
  ∧ ¬ (newlines (fst (build_post Samples.offline Samples.two_line_item [0; 0]))
       = newlines (fst (build_post Samples.offline Samples.two_line_item [0; 1]))).
Proof.
  assert (H0 : newlines (fst (build_post Samples.offline Samples.two_line_item [0; 0])) = 15)
    by (vm_compute; reflexivity).
  assert (H1 : newlines (fst (build_post Samples.offline Samples.two_line_item [0; 1])) = 16)
    by (vm_compute; reflexivity).
  split; [exact H0|]. split; [exact H1|]. rewrite H0, H1. discriminate.
Qed.

(** C9 at work: two different sequences of draws, same number of lines. *)
Lemma build_post_same_layout_sample :
  newlines (fst (build_post Samples.offline Samples.meta_item [0; 0; 0; 0; 0; 0; 0; 0]))
  = newlines (fst (build_post Samples.offline Samples.meta_item [1; 2; 3; 4; 5; 6; 7; 8])).
Proof.
  destruct (build_post_same_layout Samples.offline Samples.meta_item
              [0; 0; 0; 0; 0; 0; 0; 0] [1; 2; 3; 4; 5; 6; 7; 8])
    as (e1 & i1 & h1 & e2 & i2 & h2
        & _ & _ & _ & _ & _ & _ & _ & _ & _ & _ & _ & _ & Hlines).
  apply Hlines. reflexivity.
Defined.

End FormatterTheorems.

(** * Further properties of the code *)

(** ** Deduplication, beyond the claims *)
Section DedupMore.
Import Config Discovery.

Lemma is_seen_false st x :
  is_seen st x = false ↔
  (title x ∉ seen_title st) ∧ (url x ∉ seen_url st)
  ∧ (content_hash x ∉ seen_hashes st).
Proof.
  unfold is_seen. rewrite !orb_false_iff, !bool_decide_eq_false. tauto.
Qed.

(** Entries that clash neither with what was seen nor with one another are
    all appended, in order. *)
Lemma dedup_fold_distinct l : ∀ st,
  NoDup (map title l) → NoDup (map url l) → NoDup (map content_hash l) →
  Forall (λ x, is_seen st x = false) l →
  deduped (fold_left dedup_step l st) = deduped st ++ l.
Proof.
  induction l as [|x l IH]; intros st Nt Nu Nh Hfresh; simpl.
  { by rewrite app_nil_r. }
  apply NoDup_cons in Nt as [Hxt Nt]. apply NoDup_cons in Nu as [Hxu Nu].
  apply NoDup_cons in Nh as [Hxh Nh]. apply Forall_cons in Hfresh as [Hx Hl].
  unfold dedup_step at 2. rewrite Hx. rewrite IH; auto.
  - simpl. by rewrite <- app_assoc.
  - rewrite Forall_forall in Hl. apply Forall_forall. intros y Hy.
    specialize (Hl y Hy). apply is_seen_false in Hl as (Ht & Hu & Hh).
    assert (Hmap : ∀ f : item → string, f y ∈ map f l).
    { intros f. apply list_elem_of_In, in_map, list_elem_of_In, Hy. }
    apply is_seen_false. simpl. rewrite !elem_of_union, !elem_of_singleton.
    repeat split; intros [Heq|Hin]; auto.
    + apply Hxt. rewrite <- Heq. apply Hmap.
    + apply Hxu. rewrite <- Heq. apply Hmap.
    + apply Hxh. rewrite <- Heq. apply Hmap.
Qed.

Lemma dedup_fold_sublist l : ∀ st,
  ∃ kept, deduped (fold_left dedup_step l st) = deduped st ++ kept
    ∧ kept `sublist_of` l.
Proof.
  induction l as [|x l IH]; intros st; simpl.
  { exists []. by rewrite app_nil_r. }
  destruct (IH (dedup_step st x)) as (kept & -> & Hsub).
  unfold dedup_step. destruct (is_seen st x); simpl.
  - exists kept. split; [done|]. by apply sublist_cons.
  - exists (x :: kept). rewrite <- app_assoc. split; [done|]. by apply sublist_skip.
Qed.

(** X1: a pool whose titles, URLs and fingerprints are pairwise distinct
    passes the dedup loop whole and in order. *)
Theorem dedup_keeps_distinct_pool (pool : list item) :
  NoDup (map title pool) → NoDup (map url pool) → NoDup (map content_hash pool) →
  deduped (dedup_loop pool) = pool.
Proof.
  intros Nt Nu Nh. unfold dedup_loop.
  rewrite dedup_fold_distinct; auto.
  apply Forall_forall. intros x _. apply is_seen_false. simpl. set_solver.
Qed.

Lemma dedup_keeps_distinct_pool_sample :
  deduped (dedup_loop [candidate "a" "https://a.example"; candidate "b" "https://b.example"])
  = [candidate "a" "https://a.example"; candidate "b" "https://b.example"].
Proof.
  apply dedup_keeps_distinct_pool;
    apply (bool_decide_unpack _); vm_compute; exact I.
Defined.

(** X2: the dedup loop is idempotent: run on its own result, it keeps
    everything. *)
Theorem dedup_idempotent (pool : list item) :
  deduped (dedup_loop (deduped (dedup_loop pool))) = deduped (dedup_loop pool).
Proof.
  destruct (dedup_loop_inv pool) as [_ _ _ Nt Nu Nh _ _].
  unfold dedup_loop at 1. rewrite dedup_fold_distinct; auto.
  apply Forall_forall. intros x _. apply is_seen_false. simpl. set_solver.
Qed.

(** X3: the dedup loop only drops entries: what it keeps is a subsequence of
    the pool, and every entry of the pool, kept or dropped, has its title,
    its URL or its fingerprint carried by a kept entry. *)
Theorem dedup_drops_only_clashing_entries (pool : list item) :
  deduped (dedup_loop pool) `sublist_of` pool
  ∧ Forall (λ x, ∃ y, y ∈ deduped (dedup_loop pool)
                   ∧ (title y = title x ∨ url y = url x
                      ∨ content_hash y = content_hash x)) pool.
Proof.
  split.
  - destruct (dedup_fold_sublist pool dedup_init) as (kept & Heq & Hsub).
    unfold dedup_loop. by rewrite Heq.
  - destruct (dedup_loop_inv pool) as [Ht Hu Hh _ _ _ Hcov _].
    eapply Forall_impl; [exact Hcov|]. intros x Hseen. simpl in Hseen.
    apply is_seen_true in Hseen as [Hin|[Hin|Hin]].
    + apply Ht, list_elem_of_In, in_map_iff in Hin as (y & Heq & Hy).
      exists y. split; [by apply list_elem_of_In|auto].
    + apply Hu, list_elem_of_In, in_map_iff in Hin as (y & Heq & Hy).
      exists y. split; [by apply list_elem_of_In|auto].
    + apply Hh, list_elem_of_In, in_map_iff in Hin as (y & Heq & Hy).
      exists y. split; [by apply list_elem_of_In|auto].
Qed.

(** *** How many entries [discover] returns *)

Lemma unseen_backups_agree bs : ∀ s1 s2 : gset string,
  (∀ h, h ∈ map content_hash bs → h ∈ s1 ↔ h ∈ s2) →
  unseen_backups s1 bs = unseen_backups s2 bs.
Proof.
  induction bs as [|b bs IH]; intros s1 s2 Hagree; simpl; [done|].
  assert (Hb : content_hash b ∈ s1 ↔ content_hash b ∈ s2).
  { apply Hagree. simpl. by left. }
  case_bool_decide as H1; case_bool_decide as H2; try tauto.
  - apply IH. intros h Hin. apply Hagree. simpl. by right.
  - f_equal. apply IH. intros h Hin.
    rewrite !elem_of_union, !elem_of_singleton, (Hagree h); [done|]. simpl. by right.
Qed.

Lemma unseen_backups_many bs : ∀ seen : gset string,
  NoDup (map content_hash bs) →
  (length bs ≤ length (unseen_backups seen bs) + size seen)%nat.
Proof.
  induction bs as [|b bs IH]; intros seen Hnodup; simpl; [lia|].
  apply NoDup_cons in Hnodup as [Hb Hnodup].
  case_bool_decide as Hseen.
  - rewrite (unseen_backups_agree bs seen (seen ∖ {[content_hash b]})).
    + specialize (IH (seen ∖ {[content_hash b]}) Hnodup).
      rewrite size_difference in IH by (by apply singleton_subseteq_l).
      rewrite size_singleton in IH.
      assert (size seen ≠ 0).
      { intros Hzero. apply size_empty_iff in Hzero.
        apply (not_elem_of_empty (C:=gset string) (content_hash b)).
        by rewrite <- Hzero. }
      lia.
    + intros h Hin. rewrite elem_of_difference, elem_of_singleton.
      split; [|tauto]. intros Hh. split; [done|]. by intros ->.
  - simpl. rewrite (unseen_backups_agree bs _ seen).
    + specialize (IH seen Hnodup). lia.
    + intros h Hin. rewrite elem_of_union, elem_of_singleton.
      split; [|tauto]. by intros [->|Hh].
Qed.

Lemma backup_loop_at_most_10 bs : ∀ st,
  (length (deduped st) < 10)%nat →
  (length (deduped (backup_loop bs st)) ≤ 10)%nat.
Proof.
  induction bs as [|b bs IH]; intros st Hlen; cbn [backup_loop]; [lia|].
  assert (Hstep : (length (deduped (backup_step st b)) ≤ S (length (deduped st)))%nat).
  { unfold backup_step. case_bool_decide; simpl; rewrite ?length_app; simpl; lia. }
  destruct (10 <=? length (deduped (backup_step st b)))%nat eqn:Hstop.
  - lia.
  - apply Nat.leb_gt in Hstop. by apply IH.
Qed.

Lemma backup_hashes_distinct : NoDup (map content_hash BACKUP_HEADLINES).
Proof. apply (bool_decide_unpack _). vm_compute. exact I. Qed.

Lemma discover_length_cases (pool : list item) :
  if (length (deduped (dedup_loop pool)) <? 5)%nat
  then (8 ≤ length (discover_from_pool pool) ≤ 10)%nat
  else length (discover_from_pool pool)
       = Nat.min 50 (length (deduped (dedup_loop pool))).
Proof.
  unfold discover_from_pool, fallback.
  destruct (length (deduped (dedup_loop pool)) <? 5)%nat eqn:Hfew;
    [|apply length_take].
  apply Nat.ltb_lt in Hfew.
  destruct (backup_loop_spec BACKUP_HEADLINES (dedup_loop pool))
    as (k & Hk & Heq & Hend & _); [lia|].
  pose proof (sublist_length _ _ (unseen_backups_sublist (firstn k BACKUP_HEADLINES)
                (seen_hashes (dedup_loop pool)))) as Hup.
  rewrite length_take in Hup.
  assert (Hlen : (8 ≤ length (deduped (backup_loop BACKUP_HEADLINES (dedup_loop pool)))
                  ≤ 10)%nat).
  { pose proof (backup_loop_at_most_10 BACKUP_HEADLINES (dedup_loop pool)) as Hmost.
    split; [|lia].
    destruct Hend as [-> | Hten]; [|lia].
    rewrite firstn_all in Heq, Hup. rewrite Heq, length_app.
    pose proof (unseen_backups_many BACKUP_HEADLINES (seen_hashes (dedup_loop pool))
                  backup_hashes_distinct) as Hmany.
    assert (Hsize : size (seen_hashes (dedup_loop pool))
                    = length (deduped (dedup_loop pool))).
    { destruct (dedup_loop_inv pool) as [_ _ Hh _ _ Nh _ _].
      rewrite <- (length_map content_hash).
      rewrite <- (size_list_to_set (C:=gset string)) by done.
      f_equal. apply set_eq. intros h. rewrite Hh. by rewrite elem_of_list_to_set. }
    change (length BACKUP_HEADLINES) with 8 in *. lia. }
  rewrite length_take. lia.
Qed.

(** X4: [discover] never returns fewer than 5 entries nor more than 50: with 5
    or more survivors it returns (the first 50 of) them, with fewer it returns
    between 8 and 10, backups included. *)
Theorem discover_returns_5_to_50 (pool : list item) :
  (5 ≤ length (discover_from_pool pool) ≤ 50)%nat
  ∧ if (length (deduped (dedup_loop pool)) <? 5)%nat
    then (8 ≤ length (discover_from_pool pool) ≤ 10)%nat
    else length (discover_from_pool pool)
         = Nat.min 50 (length (deduped (dedup_loop pool))).
Proof.
  pose proof (discover_length_cases pool) as Hcases.
  split; [|exact Hcases].
  destruct (length (deduped (dedup_loop pool)) <? 5)%nat eqn:Hfew; [lia|].
  apply Nat.ltb_ge in Hfew. lia.
Qed.

End DedupMore.

(** ** Delivery, beyond the claims *)
Section DeliveryMore.
Import Effects World Delivery.

(** What [send_loop] costs: [n] calls of the transport, all but the last
    failed; a pause after every failed call. *)
Lemma send_loop_account w text remaining : ∀ attempts delay st,
  ∃ n : nat,
    (n ≤ remaining)%nat
    ∧ calls (snd (send_loop w text remaining attempts delay st)) = calls st + n
    ∧ (if fst (send_loop w text remaining attempts delay st)
       then (1 ≤ n)%nat
            ∧ draws (snd (send_loop w text remaining attempts delay st))
              = draws st + (n - 1)
            ∧ Forall (λ i, raised (send_message w (calls st + i) text) = true)
                     (seq 0 (n - 1))
            ∧ raised (send_message w (calls st + (n - 1)) text) = false
       else n = remaining
            ∧ draws (snd (send_loop w text remaining attempts delay st))
              = draws st + n
            ∧ Forall (λ i, raised (send_message w (calls st + i) text) = true)
                     (seq 0 n)).
Proof.
  induction remaining as [|remaining IH]; intros attempts delay st; cbn [send_loop].
  { exists 0. simpl. rewrite !Nat.add_0_r. repeat split; auto. }
  destruct (send_message w (calls st) text) as [[]|e] eqn:Hsend.
  - exists 1. simpl. rewrite !Nat.add_0_r, Hsend. repeat split; auto; lia.
  - edestruct IH as (n & Hn & Hcalls & Hrest). rewrite Hcalls. cbn [calls record].
    exists (S n). split; [lia|]. split; [lia|].
    assert (Hshift : ∀ m, Forall (λ i, raised (send_message w (S (calls st) + i) text) = true)
                                 (seq 0 m) →
                          Forall (λ i, raised (send_message w (calls st + i) text) = true)
                                 (seq 0 (S m))).
    { intros m Hm. cbn [seq]. constructor.
      - by rewrite Nat.add_0_r, Hsend.
      - rewrite <- seq_shift. apply Forall_map. eapply Forall_impl; [exact Hm|].
        intros i Hi. simpl in *. by rewrite <- Nat.add_succ_comm. }
    destruct (fst (send_loop _ _ _ _ _ _)).
    + destruct Hrest as (H1 & Hdraws & Hall & Hlast). cbn [draws record] in Hdraws.
      split; [lia|]. split; [lia|]. split.
      * replace (S n - 1) with (S (n - 1)) by lia. by apply Hshift.
      * replace (calls st + (S n - 1)) with (S (calls st) + (n - 1)) by lia. done.
    + destruct Hrest as (-> & Hdraws & Hall). cbn [draws record] in Hdraws.
      split; [done|]. split; [lia|]. by apply Hshift.
Qed.


(** X6: when all three attempts fail, [send_post] returns False after the
    pauses 5 s, 10 s and 20 s (plus jitter): it also waits after the third
    failure, before giving up. *)
Theorem send_post_gives_up_after_three (w : world) (text : string) (st : state) :
  raised (send_message w (calls st) (truncate text)) = true →
  raised (send_message w (S (calls st)) (truncate text)) = true →
  raised (send_message w (S (S (calls st))) (truncate text)) = true →
  fst (send_post w text st) = false
  ∧ ∃ d1 d2 d3,
      trace (snd (send_post w text st))
      = trace st ++ [Send 0 (truncate text) false; Sleep d1;
                     Send 1 (truncate text) false; Sleep d2;
                     Send 2 (truncate text) false; Sleep d3]
      ∧ (d1 == 5 + jitter w (draws st))%Q
      ∧ (d2 == 10 + jitter w (S (draws st)))%Q
      ∧ (d3 == 20 + jitter w (S (S (draws st))))%Q.
Proof.
  intros H0 H1 H2. split; [by apply send_post_exhausted|].
  unfold send_post. simpl.
  destruct (send_message w (calls st) (truncate text)); [discriminate|]. simpl.
  destruct (send_message w (S (calls st)) (truncate text)); [discriminate|]. simpl.
  destruct (send_message w (S (S (calls st))) (truncate text)); [discriminate|]. simpl.
  rewrite <- !app_assoc. simpl. eexists _, _, _. split; [done|].
  split; [reflexivity|]. split.
  - assert (5 * 2 == 10)%Q as -> by reflexivity. reflexivity.
  - assert (5 * 2 * 2 == 20)%Q as -> by reflexivity. reflexivity.
Qed.

Lemma send_post_gives_up_sample :
  fst (send_post (Samples.flaky 3) "hello" Samples.idle) = false
  ∧ ∃ d1 d2 d3,
      trace (snd (send_post (Samples.flaky 3) "hello" Samples.idle))
      = [] ++ [Send 0 "hello" false; Sleep d1; Send 1 "hello" false; Sleep d2;
               Send 2 "hello" false; Sleep d3]
      ∧ (d1 == 5 + 1)%Q ∧ (d2 == 10 + 1)%Q ∧ (d3 == 20 + 1)%Q.
Proof.
  apply (send_post_gives_up_after_three (Samples.flaky 3) "hello" Samples.idle);
    reflexivity.
Defined.

(** X7: cutting a text is idempotent: a body that was cut once is never cut
    again. *)
Theorem truncate_idempotent (text : string) :
  truncate (truncate text) = truncate text.
Proof.
  pose proof (truncate_len text) as Hlen.
  unfold truncate at 1. unfold max_len.
  destruct (4096 <? PyStr.len (truncate text))%nat eqn:Hlong; [|done].
  apply Nat.ltb_lt in Hlong.
  destruct (4096 <? PyStr.len text)%nat eqn:Hlong'; [lia|].
  apply Nat.ltb_ge in Hlong'. lia.
Qed.

End DeliveryMore.

Section RunMore.
Import Effects World Delivery Timing.

Lemma run_loop_cons w msg msgs st :
  fst (run_loop w (msg :: msgs) st) = fst (run_loop w msgs (after_message w st msg))
  ∧ snd (run_loop w (msg :: msgs) st)
    = (if fst (send_post w msg st) then [] else [msg])
      ++ snd (run_loop w msgs (after_message w st msg)).
Proof.
  unfold run_loop at 1 3. cbn [fold_left]. rewrite run_step_eq.
  destruct (run_fold w msgs (after_message w st msg)
              (if fst (send_post w msg st) then [] else [] ++ [msg]))
    as (Hst & Hfailed & _).
  split; [exact Hst|]. rewrite Hfailed. by destruct (fst (send_post w msg st)).
Qed.

Lemma send_post_cost w text st :
  ∃ n : nat,
    (1 ≤ n ≤ 3)%nat
    ∧ calls (snd (send_post w text st)) = calls st + n
    ∧ draws (snd (send_post w text st))
      = draws st + (if fst (send_post w text st) then n - 1 else 3).
Proof.
  unfold send_post.
  destruct (send_loop_account w (truncate text) 3 0 5%Q st) as (n & Hn & Hcalls & Hrest).
  exists n. destruct (fst (send_loop _ _ _ _ _ _)).
  - destruct Hrest as (H1 & Hdraws & _). repeat split; auto; lia.
  - destruct Hrest as (-> & Hdraws & _). repeat split; auto.
Qed.

(** What the end of [run] leaves of the counters and of the trace. *)
Lemma run_ends w msgs st :
  app_start w = Ok tt →
  calls (run w msgs st)
  = calls (persist_failed (snd (run_loop w msgs st)) (fst (run_loop w msgs st)))
  ∧ draws (run w msgs st)
    = draws (persist_failed (snd (run_loop w msgs st)) (fst (run_loop w msgs st)))
  ∧ trace (run w msgs st)
    = trace (persist_failed (snd (run_loop w msgs st)) (fst (run_loop w msgs st)))
  ∧ failed_file (run w msgs st)
    = failed_file (persist_failed (snd (run_loop w msgs st)) (fst (run_loop w msgs st))).
Proof.
  intros Hstart. rewrite (run_started w msgs st Hstart). by destruct (app_stop w).
Qed.

(** X8: once the application has started, a run of [n] messages calls the
    transport at least [n] and at most [3 n] times, and draws at most [3 n]
    jitters. *)
Theorem run_calls_bounded (w : world) (msgs : list string) (st : state) :
  app_start w = Ok tt →
  (calls st + length msgs ≤ calls (run w msgs st) ≤ calls st + 3 * length msgs)%nat
  ∧ (draws st ≤ draws (run w msgs st) ≤ draws st + 3 * length msgs)%nat.
Proof.
  intros Hstart.
  assert (Hloop : ∀ msgs st,
    (calls st + length msgs ≤ calls (fst (run_loop w msgs st))
     ≤ calls st + 3 * length msgs)%nat
    ∧ (draws st ≤ draws (fst (run_loop w msgs st)) ≤ draws st + 3 * length msgs)%nat).
  { clear. induction msgs as [|msg msgs IH]; intros st.
    - unfold run_loop. simpl. lia.
    - destruct (run_loop_cons w msg msgs st) as [-> _].
      specialize (IH (after_message w st msg)).
      destruct (send_post_cost w msg st) as (n & Hn & Hcalls & Hdraws).
      assert (Hc : calls (after_message w st msg) = calls st + n) by exact Hcalls.
      assert (Hd : draws (after_message w st msg)
                   = draws st + (if fst (send_post w msg st) then n - 1 else 3))
        by exact Hdraws.
      cbn [length]. destruct (fst (send_post w msg st)); lia. }
  specialize (Hloop msgs st).
  destruct (run_ends w msgs st Hstart) as (-> & -> & _).
  destruct (run_loop w msgs st) as [st' failed]. cbn [fst snd] in *.
  unfold persist_failed. by destruct failed.
Qed.

Lemma run_calls_bounded_sample :
  (calls Samples.idle + length ["one"; "two"]
   ≤ calls (run (Samples.flaky 4) ["one"; "two"] Samples.idle)
   ≤ calls Samples.idle + 3 * length ["one"; "two"])%nat
  ∧ (draws Samples.idle
     ≤ draws (run (Samples.flaky 4) ["one"; "two"] Samples.idle)
     ≤ draws Samples.idle + 3 * length ["one"; "two"])%nat.
Proof.
  apply (run_calls_bounded (Samples.flaky 4) ["one"; "two"] Samples.idle).
  reflexivity.
Defined.



Lemma send_post_accepted w text st :
  raised (send_message w (calls st) (truncate text)) = false →
  send_post w text st
  = (true, record [Send 0 (truncate text) true] (S (calls st)) (draws st) st).
Proof.
  intros Hok. unfold send_post. simpl.
  by destruct (send_message w (calls st) (truncate text)) as [[]|].
Qed.

(** X10: when the application starts and shuts down and the transport
    accepts every message at once, a run sends each body exactly once, in
    batch order, pauses 30 s after each, draws no jitter, and leaves the
    failure log as it was, without writing it. *)
Theorem run_without_failures (w : world) (msgs : list string) (st : state) :
  app_start w = Ok tt →
  app_stop w = Ok tt →
  (∀ n text, raised (send_message w n text) = false) →
  run w msgs st
  = {| calls := calls st + length msgs;
       draws := draws st;
       failed_file := failed_file st;
       trace := trace st ++ flat_map smooth msgs;
       failure := failure st |}.
Proof.
  intros Hstart Hstop Hok.
  assert (Hloop : ∀ msgs st,
    run_loop w msgs st
    = ({| calls := calls st + length msgs; draws := draws st;
          failed_file := failed_file st;
          trace := trace st ++ flat_map smooth msgs;
          failure := failure st |}, [])).
  { clear msgs st. induction msgs as [|msg msgs IH]; intros st.
    - unfold run_loop. simpl. rewrite Nat.add_0_r, app_nil_r. by destruct st.
    - destruct (run_loop_cons w msg msgs st) as [Hfst Hsnd].
      rewrite IH in Hfst, Hsnd. unfold after_message in Hfst.
      rewrite send_post_accepted in Hfst, Hsnd by apply Hok.
      cbn [fst snd calls draws failed_file trace failure record] in Hfst, Hsnd.
      destruct (run_loop w (msg :: msgs) st) as [st' failed].
      cbn [fst snd] in Hfst, Hsnd. subst. f_equal. f_equal; [simpl; lia|].
      rewrite <- !app_assoc. done. }
  rewrite (run_started w msgs st Hstart), Hstop, Hloop. reflexivity.
Qed.

Lemma run_without_failures_sample :
  run (Samples.flaky 0) ["one"; "two"] Samples.idle
  = {| calls := 0 + 2; draws := 0; failed_file := Missing;
       trace := [] ++ flat_map smooth ["one"; "two"]; failure := None |}.
Proof.
  apply (run_without_failures (Samples.flaky 0) ["one"; "two"] Samples.idle);
    reflexivity.
Defined.

End RunMore.

Section TimingMore.
Import Effects World Delivery Timing.
Local Open Scope Q_scope.

Lemma waited_app (a b : list event) : waited (a ++ b) == waited a + waited b.
Proof.
  unfold waited. induction a as [|[] a IH]; simpl; try lra.
Qed.

Lemma send_post_waits w text st :
  (∀ n, 0 <= jitter w n ∧ jitter w n <= 3) →
  ∃ evs, trace (snd (send_post w text st)) = (trace st ++ evs)%list
    ∧ 0 <= waited evs ∧ waited evs <= 44.
Proof.
  intros Hj.
  pose proof (Hj (draws st)) as [? ?]. pose proof (Hj (S (draws st))) as [? ?].
  pose proof (Hj (S (S (draws st)))) as [? ?].
  unfold send_post. simpl.
  destruct (send_message w (calls st) (truncate text)); simpl.
  { eexists. split; [done|]. unfold waited. simpl. lra. }
  destruct (send_message w (S (calls st)) (truncate text)); simpl.
  { rewrite <- !app_assoc. eexists. split; [done|]. unfold waited. simpl. lra. }
  destruct (send_message w (S (S (calls st))) (truncate text)); simpl.
  { rewrite <- !app_assoc. eexists. split; [done|]. unfold waited. simpl. lra. }
  rewrite <- !app_assoc. eexists. split; [done|]. unfold waited. simpl. lra.
Qed.

(** X11: once the application has started, and with every jitter within
    0..3 s, a run of [n] messages spends at least [30 n] and at most [74 n]
    seconds waiting: per message at most 5 + 10 + 20 s of back-off, 9 s of
    jitter and the 30 s inter-post pause. *)
Theorem run_waits_bounded (w : world) (msgs : list string) (st : state) :
  app_start w = Ok tt →
  (∀ n, 0 <= jitter w n ∧ jitter w n <= 3) →
  ∃ evs, trace (run w msgs st) = (trace st ++ evs)%list
    ∧ 30 * inject_Z (Z.of_nat (length msgs)) <= waited evs
    ∧ waited evs <= 74 * inject_Z (Z.of_nat (length msgs)).
Proof.
  intros Hstart Hj.
  assert (Hloop : ∀ msgs st,
    ∃ evs, trace (fst (run_loop w msgs st)) = (trace st ++ evs)%list
      ∧ 30 * inject_Z (Z.of_nat (length msgs)) <= waited evs
      ∧ waited evs <= 74 * inject_Z (Z.of_nat (length msgs))).
  { clear msgs st. induction msgs as [|msg msgs IH]; intros st.
    - exists []. unfold run_loop. simpl. rewrite app_nil_r.
      split; [done|]. unfold waited. cbn [length Z.of_nat sleeps fold_right].
      change (inject_Z (Z.of_nat 0)) with 0. lra.
    - destruct (run_loop_cons w msg msgs st) as [-> _].
      destruct (IH (after_message w st msg)) as (evs & -> & Hlo & Hhi).
      destruct (send_post_waits w msg st Hj) as (evs1 & Htr & Hlo1 & Hhi1).
      unfold after_message. cbn [trace record]. rewrite Htr, <- !app_assoc.
      eexists. split; [done|].
      rewrite !waited_app. cbn [length]. rewrite Nat2Z.inj_succ. unfold Z.succ.
      rewrite inject_Z_plus.
      change (waited [Sleep Config.DELAY_BETWEEN_POSTS]) with (30 + 0).
      change (inject_Z 1) with 1. lra. }
  destruct (Hloop msgs st) as (evs & Htr & Hlo & Hhi).
  destruct (run_ends w msgs st Hstart) as (_ & _ & -> & _).
  destruct (run_loop w msgs st) as [st' failed]. cbn [fst snd] in *.
  unfold persist_failed. destruct failed; cbn [trace].
  - by exists evs.
  - rewrite Htr, <- app_assoc. eexists. split; [done|]. rewrite waited_app.
    unfold waited at 2 4. simpl. lra.
Qed.

Lemma run_waits_bounded_sample :
  ∃ evs, trace (run (Samples.flaky 4) ["one"; "two"] Samples.idle) = ([] ++ evs)%list
    ∧ 30 * inject_Z (Z.of_nat 2) <= waited evs
    ∧ waited evs <= 74 * inject_Z (Z.of_nat 2).
Proof.
  apply (run_waits_bounded (Samples.flaky 4) ["one"; "two"] Samples.idle);
    [reflexivity|]. intros n. simpl. lra.
Defined.

End TimingMore.

(** ** The pipeline, beyond the claims *)
Section PipelineMore.
Import Config Effects Effects.Notations World Discovery Delivery Pipeline.

Lemma patterns_with_telegram w start send stop title patterns :
  Signal.company_from_patterns (Samples.with_telegram w start send stop) title patterns
  = Signal.company_from_patterns w title patterns.
Proof. induction patterns as [|p ps IH]; [done|]. simpl. by rewrite IH. Qed.

Lemma rewrite_headline_with_telegram w start send stop company title t :
  Signal.rewrite_headline (Samples.with_telegram w start send stop) company title t
  = Signal.rewrite_headline w company title t.
Proof.
  unfold Signal.rewrite_headline.
  replace (map (lower (Samples.with_telegram w start send stop)) Signal.verbs)
    with (map (lower w) Signal.verbs) by by apply map_ext.
  reflexivity.
Qed.

Lemma enrich_with_telegram w start send stop itm t :
  Signal.enrich (Samples.with_telegram w start send stop) itm t = Signal.enrich w itm t.
Proof.
  unfold Signal.enrich, Signal.extract_company.
  rewrite patterns_with_telegram, rewrite_headline_with_telegram. reflexivity.
Qed.

Lemma build_post_with_telegram w start send stop data t :
  Formatter.build_post (Samples.with_telegram w start send stop) data t
  = Formatter.build_post w data t.
Proof. reflexivity. Qed.

Lemma render_with_telegram w start send stop sel : ∀ c msgs t,
  render (Samples.with_telegram w start send stop) sel c msgs t = render w sel c msgs t.
Proof.
  induction sel as [|itm sel IH]; intros c msgs t; cbn [render]; [done|].
  rewrite enrich_with_telegram.
  destruct (Signal.enrich w itm t) as [enriched t1].
  rewrite build_post_with_telegram.
  destruct (Formatter.build_post w enriched t1) as [post t2]. apply IH.
Qed.

(** X12: what a run discovers, selects, renders and records in the cache
    does not depend on Telegram: with any other start-up, transport and
    shutdown the same items are selected, the same messages rendered and the
    same cache written, so a title is recorded as posted whether or not its
    delivery succeeds, or is even attempted. *)
Theorem cache_ignores_delivery_outcome
    (w : world) (start stop : outcome unit) (send : nat → string → outcome unit)
    (t : tape) (fs : files) :
  raw_items (main (Samples.with_telegram w start send stop) t fs) = raw_items (main w t fs)
  ∧ selected (main (Samples.with_telegram w start send stop) t fs) = selected (main w t fs)
  ∧ messages (main (Samples.with_telegram w start send stop) t fs) = messages (main w t fs)
  ∧ cache_file (files_after (main (Samples.with_telegram w start send stop) t fs))
    = cache_file (files_after (main w t fs)).
Proof.
  unfold main.
  change (load_cache (Samples.with_telegram w start send stop) fs) with (load_cache w fs).
  destruct (load_cache w fs) as [[c posted]|e]; [|done].
  change (trend_req (Samples.with_telegram w start send stop)) with (trend_req w).
  destruct (trend_req w) as [[]|e]; [|done].
  change (Discovery.discover (Samples.with_telegram w start send stop))
    with (Discovery.discover w).
  destruct (fst (Discovery.discover w {| tracker := new_tracker; items := [] |}))
    as [raw|e]; [|done].
  rewrite render_with_telegram.
  by destruct (render w (select posted raw) c [] t) as [[c' msgs] t'].
Qed.

(** X13: the first run of a day (no cache file, or one of another date) that
    gets to the discovery selects at least 5 and at most 20 items, whatever
    the sources return: when discovery finds too little, the backup headlines
    fill in. *)
Theorem first_run_selects_5_to_20 (w : world) (t : tape) (fs : files) :
  match cache_file fs with
  | Holds c => date c ≠ today_key w
  | Missing => True
  | Corrupt => False
  end →
  trend_req w = Ok tt →
  selected (main w t fs) = firstn POSTS_PER_DAY (raw_items (main w t fs))
  ∧ (5 ≤ length (selected (main w t fs)) ≤ 20)%nat
  ∧ length (messages (main w t fs)) = length (selected (main w t fs)).
Proof.
  intros Hcache Htrend.
  assert (Hfile : cache_file fs ≠ Corrupt).
  { intros Heq. by rewrite Heq in Hcache. }
  destruct (main_spec w t fs Hfile)
    as (c & posted & pool & evs & Hload & Hraw & Hsel & Hmsgs & _);
    [by rewrite Htrend|].
  assert (Hposted : posted = ∅).
  { unfold load_cache in Hload. destruct (cache_file fs) as [| |c0]; [|done|].
    - by injection Hload as <- <-.
    - destruct (String.eqb (date c0) (today_key w)) eqn:Hdate.
      + by apply String.eqb_eq in Hdate.
      + by injection Hload as <- <-. }
  subst posted. rewrite select_fresh in Hsel.
  split; [done|]. split; [|done].
  rewrite Hsel, length_take, Hraw.
  pose proof (discover_length_cases pool) as Hcases.
  change POSTS_PER_DAY with 20.
  destruct (length (deduped (dedup_loop pool)) <? 5)%nat eqn:Hfew; [lia|].
  apply Nat.ltb_ge in Hfew. lia.
Qed.

Lemma first_run_selects_5_to_20_sample :
  selected (main (Samples.newsday "2026-11-03") []
              {| cache_file := Holds {| date := "2026-11-02"; titles := ["Old story"] |};
                 failed_posts := Missing |})
  = firstn POSTS_PER_DAY
      (raw_items (main (Samples.newsday "2026-11-03") []
         {| cache_file := Holds {| date := "2026-11-02"; titles := ["Old story"] |};
            failed_posts := Missing |}))
  ∧ (5 ≤ length (selected (main (Samples.newsday "2026-11-03") []
           {| cache_file := Holds {| date := "2026-11-02"; titles := ["Old story"] |};
              failed_posts := Missing |})) ≤ 20)%nat
  ∧ length (messages (main (Samples.newsday "2026-11-03") []
              {| cache_file := Holds {| date := "2026-11-02"; titles := ["Old story"] |};
                 failed_posts := Missing |}))
    = length (selected (main (Samples.newsday "2026-11-03") []
                {| cache_file := Holds {| date := "2026-11-02"; titles := ["Old story"] |};
                   failed_posts := Missing |})).
Proof.
  apply (first_run_selects_5_to_20 (Samples.newsday "2026-11-03") []
           {| cache_file := Holds {| date := "2026-11-02"; titles := ["Old story"] |};
              failed_posts := Missing |}); [|reflexivity].
  cbn [cache_file date Samples.newsday today_key]. discriminate.
Defined.

(** X14: within a day the cache only grows: a run that finds a cache file of
    today's date and gets to the discovery writes back its titles, in order,
    followed by the titles of the items it selected. *)
Theorem same_day_cache_grows (w : world) (t : tape) (fs : files) (c : cache) :
  cache_file fs = Holds c → date c = today_key w → trend_req w = Ok tt →
  cache_file (files_after (main w t fs))
  = Holds {| date := today_key w;
             titles := titles c ++ map title (selected (main w t fs)) |}.
Proof.
  intros Hcache Hdate Htrend.
  assert (Hfile : cache_file fs ≠ Corrupt) by by rewrite Hcache.
  destruct (main_spec w t fs Hfile)
    as (c0 & posted & pool & evs & Hload & _ & _ & _ & Hafter & _);
    [by rewrite Htrend|].
  unfold load_cache in Hload. rewrite Hcache, Hdate, String.eqb_refl in Hload.
  injection Hload as <- _. by rewrite Hafter, Hdate.
Qed.

Lemma same_day_cache_grows_sample :
  cache_file (files_after (main (Samples.newsday "2026-11-03") []
     {| cache_file := Holds {| date := "2026-11-03"; titles := ["Old story"] |};
        failed_posts := Missing |}))
  = Holds {| date := today_key (Samples.newsday "2026-11-03");
             titles := titles {| date := "2026-11-03"; titles := ["Old story"] |}
                       ++ map title (selected (main (Samples.newsday "2026-11-03") []
                            {| cache_file :=
                                 Holds {| date := "2026-11-03"; titles := ["Old story"] |};
                               failed_posts := Missing |})) |}.
Proof.
  apply (same_day_cache_grows (Samples.newsday "2026-11-03") []
           {| cache_file := Holds {| date := "2026-11-03"; titles := ["Old story"] |};
              failed_posts := Missing |}); reflexivity.
Defined.

Lemma run_sends w msgs : ∀ st,
  ∃ evs, trace (run w msgs st) = trace st ++ evs
    ∧ (length (sent_bodies evs) ≤ 3 * length msgs)%nat
    ∧ Forall (λ body, (PyStr.len body ≤ 4096)%nat) (sent_bodies evs).
Proof.
  assert (Hpost : ∀ msg st,
    ∃ evs, trace (snd (send_post w msg st)) = trace st ++ evs
      ∧ (length (sent_bodies evs) ≤ 3)%nat
      ∧ Forall (λ body, (PyStr.len body ≤ 4096)%nat) (sent_bodies evs)).
  { intros msg st.
    assert (Hlen : (PyStr.len (truncate msg) ≤ 4096)%nat).
    { rewrite truncate_len. destruct (4096 <? PyStr.len msg)%nat eqn:Hlong; [lia|].
      by apply Nat.ltb_ge in Hlong. }
    unfold send_post. simpl.
    destruct (send_message w (calls st) (truncate msg)); simpl.
    { eexists. split; [done|]. simpl. split; [lia|repeat (constructor; [exact Hlen|]); constructor]. }
    destruct (send_message w (S (calls st)) (truncate msg)); simpl.
    { rewrite <- !app_assoc. eexists. split; [done|]. simpl.
      split; [lia|repeat (constructor; [exact Hlen|]); constructor]. }
    destruct (send_message w (S (S (calls st))) (truncate msg)); simpl.
    { rewrite <- !app_assoc. eexists. split; [done|]. simpl.
      split; [lia|repeat (constructor; [exact Hlen|]); constructor]. }
    rewrite <- !app_assoc. eexists. split; [done|]. simpl.
    split; [lia|repeat (constructor; [exact Hlen|]); constructor]. }
  assert (Hloop : ∀ msgs st,
    ∃ evs, trace (fst (run_loop w msgs st)) = trace st ++ evs
      ∧ (length (sent_bodies evs) ≤ 3 * length msgs)%nat
      ∧ Forall (λ body, (PyStr.len body ≤ 4096)%nat) (sent_bodies evs)).
  { clear msgs. induction msgs as [|msg msgs IH]; intros st.
    - exists []. unfold run_loop. simpl. rewrite app_nil_r. by repeat split.
    - destruct (run_loop_cons w msg msgs st) as [-> _].
      destruct (IH (after_message w st msg)) as (evs & -> & Hn & Hall).
      destruct (Hpost msg st) as (evs1 & Htr & Hn1 & Hall1).
      unfold after_message. cbn [trace record]. rewrite Htr, <- !app_assoc.
      eexists. split; [done|]. rewrite !sent_bodies_app, !length_app. cbn [length].
      split; [simpl; lia|]. rewrite !Forall_app. by repeat split. }
  intros st. unfold run. destruct (app_start w) as [[]|e].
  2: { exists []. rewrite app_nil_r. split; [done|]. split; [simpl; lia|constructor]. }
  destruct (Hloop msgs st) as (evs & Htr & Hn & Hall).
  destruct (run_loop w msgs st) as [st' failed]. cbn [fst] in Htr.
  assert (Hpersist : ∃ evs', trace (persist_failed failed st') = trace st ++ evs'
    ∧ (length (sent_bodies evs') ≤ 3 * length msgs)%nat
    ∧ Forall (λ body, (PyStr.len body ≤ 4096)%nat) (sent_bodies evs')).
  { unfold persist_failed. destruct failed; cbn [trace].
    - by exists evs.
    - rewrite Htr, <- app_assoc. eexists. split; [done|].
      rewrite sent_bodies_app. simpl. by rewrite app_nil_r. }
  destruct Hpersist as (evs' & Htr' & Hn' & Hall').
  exists evs'. by destruct (app_stop w).
Qed.

(** X15: however it ends, a whole run hands at most 60 bodies to the
    transport (20 messages, 3 attempts each), none longer than 4096
    characters. *)
Theorem main_sends_at_most_60 (w : world) (t : tape) (fs : files) :
  (length (sent_bodies (events (main w t fs))) ≤ 60)%nat
  ∧ Forall (λ body, (PyStr.len body ≤ 4096)%nat) (sent_bodies (events (main w t fs))).
Proof.
  destruct (main_cases w t fs) as [(e & -> & _)|[Hfile Htrend]].
  { cbn [stopped events sent_bodies]. split; [simpl; lia|constructor]. }
  destruct (main_spec w t fs Hfile Htrend)
    as (c & posted & pool & evs & _ & _ & Hsel & Hmsgs & _).
  pose proof (select_length posted (raw_items (main w t fs))) as Hlen.
  rewrite <- Hsel, <- Hmsgs in Hlen. change POSTS_PER_DAY with 20 in Hlen.
  revert Hlen. unfold main.
  destruct (load_cache w fs) as [[c0 posted0]|];
    [|intros _; split; [simpl; lia|constructor]].
  destruct (trend_req w) as [[]|]; [|intros _; split; [simpl; lia|constructor]].
  destruct (fst (discover w _)) as [raw|];
    [|intros _; split; [simpl; lia|constructor]].
  destruct (render w (select posted0 raw) c0 [] t) as [[c' msgs] t'].
  cbn [events messages]. intros Hlen.
  edestruct (run_sends w msgs) as (evs' & -> & Hn & Hall).
  cbn [trace]. simpl. split; [lia|done].
Qed.



End PipelineMore.

(** ** Enrichment, beyond the claims *)
Section SignalMore.
Import Effects World Signal.

(** X17: [enrich] always yields one of the three countries with its flag,
    never the fallback globe, and one of the four sentiment tags. *)
Theorem enrich_country_and_tag (w : world) (itm : Config.item) (t : tape) :
  (country (fst (enrich w itm t)), emoji (fst (enrich w itm t)))
    ∈ [("USA", "🇺🇸"); ("India", "🇮🇳"); ("China", "🇨🇳")]
  ∧ emoji (fst (enrich w itm t)) ≠ "🌍"
  ∧ tag (fst (enrich w itm t)) ∈ ["🔴 Layoff"; "🟢 Growth"; "🤖 New Tool"; "🧠 Strategy"].
Proof.
  unfold enrich.
  destruct (rewrite_headline w (extract_company w (Config.title itm)) (Config.title itm) t)
    as [h t'].
  cbn [fst country emoji tag]. unfold infer_country, sentiment_tag.
  split; [|split].
  - repeat match goal with |- context [if ?b then _ else _] => destruct b end;
      simpl; set_solver.
  - repeat match goal with |- context [if ?b then _ else _] => destruct b end;
      simpl; discriminate.
  - repeat match goal with |- context [if ?b then _ else _] => destruct b end;
      set_solver.
Qed.

Lemma insert_by_len_sorted x l :
  StronglySorted (λ a b, (PyStr.len b ≤ PyStr.len a)%nat) l →
  StronglySorted (λ a b, (PyStr.len b ≤ PyStr.len a)%nat) (insert_by_len x l).
Proof.
  induction 1 as [|y l Hsorted IH Hall]; simpl.
  { repeat constructor. }
  destruct (PyStr.len x <? PyStr.len y)%nat eqn:Hlt.
  - apply Nat.ltb_lt in Hlt. constructor; [done|].
    rewrite insert_by_len_perm. constructor; [lia|done].
  - apply Nat.ltb_ge in Hlt. constructor; [by constructor|].
    constructor; [done|]. eapply Forall_impl; [exact Hall|]. simpl. lia.
Qed.

Lemma sorted_by_len_desc_sorted l :
  StronglySorted (λ a b, (PyStr.len b ≤ PyStr.len a)%nat) (sorted_by_len_desc l).
Proof.
  induction l as [|x l IH]; simpl; [constructor|]. by apply insert_by_len_sorted.
Qed.

Lemma find_first {A} (p : A → bool) (l : list A) (x : A) :
  find p l = Some x →
  ∃ l1 l2, l = l1 ++ x :: l2 ∧ p x = true ∧ Forall (λ y, p y = false) l1.
Proof.
  induction l as [|y l IH]; simpl; [discriminate|].
  destruct (p y) eqn:Hy.
  - intros [= ->]. exists [], l. by repeat split.
  - intros Hfind. destruct (IH Hfind) as (l1 & l2 & -> & Hx & Hl1).
    exists (y :: l1), l2. repeat split; auto.
Qed.

Lemma known_titles_not_default :
  Forall (λ k, String.eqb (PyStr.title k) "TechCorp" = false) Config.KNOWN_COMPANIES.
Proof. unfold Config.KNOWN_COMPANIES. repeat (constructor; [reflexivity|]). constructor. Qed.

Lemma sorted_suffix {A} (R : A → A → Prop) (l1 l2 : list A) :
  StronglySorted R (l1 ++ l2) → StronglySorted R l2.
Proof.
  induction l1 as [|x l1 IH]; simpl; [done|].
  intros Hsorted. apply StronglySorted_inv in Hsorted as [Hrest _]. auto.
Qed.

(** The whitelist, when it matches, decides the company. *)
Lemma extract_company_known w title :
  Permutation (companies_iter w) Config.KNOWN_COMPANIES →
  List.filter (λ k, PyStr.contains k (lower w title)) Config.KNOWN_COMPANIES ≠ [] →
  ∃ k, k ∈ Config.KNOWN_COMPANIES
    ∧ PyStr.contains k (lower w title) = true
    ∧ extract_company w title = PyStr.title k
    ∧ Forall (λ k', (PyStr.len k' ≤ PyStr.len k)%nat)
             (List.filter (λ k, PyStr.contains k (lower w title))
                          Config.KNOWN_COMPANIES).
Proof.
  intros Hperm Hsome. unfold extract_company.
  set (p := λ k, PyStr.contains k (lower w title)) in *.
  assert (Hsorted_perm : Permutation (sorted_by_len_desc (companies_iter w))
                                     Config.KNOWN_COMPANIES).
  { by rewrite sorted_by_len_desc_perm. }
  assert (Hto : ∀ x, x ∈ sorted_by_len_desc (companies_iter w) → x ∈ Config.KNOWN_COMPANIES).
  { intros x Hx. apply list_elem_of_In. apply list_elem_of_In in Hx.
    exact (Permutation_in x Hsorted_perm Hx). }
  assert (Hfrom : ∀ x, x ∈ Config.KNOWN_COMPANIES → x ∈ sorted_by_len_desc (companies_iter w)).
  { intros x Hx. apply list_elem_of_In. apply list_elem_of_In in Hx.
    exact (Permutation_in x (Permutation_sym Hsorted_perm) Hx). }
  destruct (find p (sorted_by_len_desc (companies_iter w))) as [k|] eqn:Hfind.
  - destruct (find_first _ _ _ Hfind) as (l1 & l2 & Hsplit & Hk & Hl1).
    assert (Hin : k ∈ Config.KNOWN_COMPANIES).
    { apply Hto. rewrite Hsplit. apply elem_of_app. right. left. }
    exists k. split; [exact Hin|]. split; [exact Hk|]. split.
    + pose proof known_titles_not_default as Hnd. rewrite Forall_forall in Hnd.
      rewrite (Hnd k Hin). reflexivity.
    + apply Forall_forall. intros k' Hk'.
      apply list_elem_of_In, filter_In in Hk' as [Hk'in Hk'p].
      apply list_elem_of_In, Hfrom in Hk'in. rewrite Hsplit in Hk'in.
      pose proof (sorted_by_len_desc_sorted (companies_iter w)) as Hsorted.
      rewrite Hsplit in Hsorted.
      apply elem_of_app in Hk'in as [Hbefore|Hafter].
      * rewrite Forall_forall in Hl1. specialize (Hl1 _ Hbefore). simpl in Hl1.
        congruence.
      * apply elem_of_cons in Hafter as [->|Hafter]; [done|].
        apply sorted_suffix in Hsorted.
        apply StronglySorted_inv in Hsorted as [_ Hall].
        rewrite Forall_forall in Hall. by apply Hall.
  - exfalso. apply Hsome.
    assert (Hnone : Forall (λ k, p k = false) Config.KNOWN_COMPANIES).
    { apply Forall_forall. intros k Hk.
      apply Hfrom, list_elem_of_In in Hk. by apply (find_none p _ Hfind). }
    clear -Hnone. induction Hnone as [|k l Hk _ IH]; simpl; [done|]. by rewrite Hk.
Qed.

(** X18: when the lower-cased title contains known companies, the company is
    the title-cased form of one of them, and of a longest one: no other known
    company found in the title is longer. *)
Theorem enrich_prefers_longest_known_company
    (w : world) (itm : Config.item) (t : tape) :
  Permutation (companies_iter w) Config.KNOWN_COMPANIES →
  List.filter (λ k, PyStr.contains k (lower w (Config.title itm)))
              Config.KNOWN_COMPANIES ≠ [] →
  ∃ k, k ∈ Config.KNOWN_COMPANIES
    ∧ PyStr.contains k (lower w (Config.title itm)) = true
    ∧ company (fst (enrich w itm t)) = PyStr.title k
    ∧ Forall (λ k', (PyStr.len k' ≤ PyStr.len k)%nat)
             (List.filter (λ k, PyStr.contains k (lower w (Config.title itm)))
                          Config.KNOWN_COMPANIES).
Proof.
  intros Hperm Hsome.
  destruct (extract_company_known w (Config.title itm) Hperm Hsome)
    as (k & Hin & Hk & Hcompany & Hlongest).
  exists k. split; [done|]. split; [done|]. split; [|done].
  unfold enrich.
  destruct (rewrite_headline w (extract_company w (Config.title itm)) (Config.title itm) t)
    as [h t'].
  cbn [fst company]. exact Hcompany.
Qed.

Lemma enrich_prefers_longest_sample :
  ∃ k, k ∈ Config.KNOWN_COMPANIES
    ∧ PyStr.contains k (lower Samples.offline (Config.title
        (Config.candidate "Tech Mahindra and TCS sign AI deal" "https://example.com"))) = true
    ∧ company (fst (enrich Samples.offline
        (Config.candidate "Tech Mahindra and TCS sign AI deal" "https://example.com") []))
      = PyStr.title k
    ∧ Forall (λ k', (PyStr.len k' ≤ PyStr.len k)%nat)
        (List.filter (λ k, PyStr.contains k (lower Samples.offline (Config.title
           (Config.candidate "Tech Mahindra and TCS sign AI deal" "https://example.com"))))
           Config.KNOWN_COMPANIES).
Proof.
  apply (enrich_prefers_longest_known_company Samples.offline
           (Config.candidate "Tech Mahindra and TCS sign AI deal" "https://example.com") []).
  - simpl. reflexivity.
  - vm_compute. discriminate.
Defined.

Lemma known_tickers :
  Forall (λ k, dict_get (PyStr.title k) ticker_cache = None
               ∨ PyStr.title k ∈ ["Google"; "Microsoft"; "Meta"; "Nvidia"; "Infosys"])
         Config.KNOWN_COMPANIES.
Proof.
  unfold Config.KNOWN_COMPANIES.
  repeat (constructor; [first [by left | right; set_solver]|]). constructor.
Qed.

(** X19: a company taken from the whitelist is title-cased before the ticker
    lookup, so a quote can only be found for Google, Microsoft, Meta, Nvidia
    and Infosys: for every other known company, "OpenAI" and "TCS" of the
    ticker table included, the stock is "N/A". *)
Theorem enrich_quotes_five_known_companies
    (w : world) (itm : Config.item) (t : tape) :
  Permutation (companies_iter w) Config.KNOWN_COMPANIES →
  List.filter (λ k, PyStr.contains k (lower w (Config.title itm)))
              Config.KNOWN_COMPANIES ≠ [] →
  stock (fst (enrich w itm t)) = "N/A"
  ∨ company (fst (enrich w itm t)) ∈ ["Google"; "Microsoft"; "Meta"; "Nvidia"; "Infosys"].
Proof.
  intros Hperm Hsome.
  destruct (extract_company_known w (Config.title itm) Hperm Hsome)
    as (k & Hin & _ & Hcompany & _).
  unfold enrich.
  destruct (rewrite_headline w (extract_company w (Config.title itm)) (Config.title itm) t)
    as [h t'].
  cbn [fst company stock]. rewrite Hcompany.
  pose proof known_tickers as Htickers. rewrite Forall_forall in Htickers.
  destruct (Htickers k Hin) as [Hnone|Hfive]; [left|by right].
  unfold lookup_stock. by rewrite Hnone.
Qed.

Lemma enrich_quotes_sample :
  stock (fst (enrich (Samples.with_transport Samples.offline (λ _ _, Ok tt))
                (Config.candidate "OpenAI ships a new model" "https://example.com") []))
  = "N/A"
  ∨ company (fst (enrich (Samples.with_transport Samples.offline (λ _ _, Ok tt))
                (Config.candidate "OpenAI ships a new model" "https://example.com") []))
    ∈ ["Google"; "Microsoft"; "Meta"; "Nvidia"; "Infosys"].
Proof.
  apply (enrich_quotes_five_known_companies
           (Samples.with_transport Samples.offline (λ _ _, Ok tt))
           (Config.candidate "OpenAI ships a new model" "https://example.com") []).
  - simpl. reflexivity.
  - vm_compute. discriminate.
Defined.

End SignalMore.


(** ** The formatter, beyond the claims *)
Section FormatterMore.
Import Effects World Signal Formatter.

(** X20: a description taken from a summary of more than 20 characters has at
    most 203 characters: the stripped summary, cut to 200 characters and
    three dots when it is longer. *)
Theorem description_from_summary_bounded (title summary : string) :
  (20 < PyStr.len summary)%nat →
  (PyStr.len (_generate_description title summary) ≤ 203)%nat
  ∧ (_generate_description title summary = PyStr.strip summary
     ∨ _generate_description title summary
       = PyStr.take 200 (PyStr.strip summary) +:+ "...").
Proof.
  intros Hlong. unfold _generate_description.
  assert (Htruthy : PyStr.truthy summary = true).
  { destruct summary; [simpl in Hlong; lia|done]. }
  rewrite Htruthy. apply Nat.ltb_lt in Hlong. rewrite Hlong. cbn [andb].
  destruct (200 <? PyStr.len (PyStr.strip summary))%nat eqn:Hcut.
  - split; [|by right]. rewrite len_app, len_take.
    change (PyStr.len "...") with 3. lia.
  - apply Nat.ltb_ge in Hcut. split; [lia|by left].
Qed.

Lemma description_from_summary_sample :
  (PyStr.len (_generate_description "Title"
                "  A summary that is clearly longer than twenty characters.  ") ≤ 203)%nat
  ∧ (_generate_description "Title"
       "  A summary that is clearly longer than twenty characters.  "
     = PyStr.strip "  A summary that is clearly longer than twenty characters.  "
     ∨ _generate_description "Title"
         "  A summary that is clearly longer than twenty characters.  "
       = PyStr.take 200
           (PyStr.strip "  A summary that is clearly longer than twenty characters.  ")
         +:+ "...").
Proof.
  apply (description_from_summary_bounded "Title"
           "  A summary that is clearly longer than twenty characters.  ").
  vm_compute. lia.
Defined.

End FormatterMore.


(** ** The fetchers, beyond the claims *)
Section GrowthLemmas.
Import Config Effects Effects.Notations World Fetching.
Context (P : item → Prop).

Lemma grows_weaken {A} (m : M A) b b' :
  (b ≤ b')%nat → grows P b m → grows P b' m.
Proof.
  intros Hle Hm s. destruct (Hm s) as (new & Heq & Hlen & Hall).
  exists new. repeat split; auto. lia.
Qed.

Lemma grows_still {A} (m : M A) b :
  (∀ s, items (snd (m s)) = items s) → grows P b m.
Proof.
  intros Hm s. exists []. rewrite Hm, app_nil_r. repeat split; [simpl; lia|constructor].
Qed.

Lemma grows_ret {A} (a : A) b : grows P b (ret a).
Proof. by apply grows_still. Qed.

Lemma grows_perform {A} (o : outcome A) b : grows P b (perform o).
Proof. by apply grows_still. Qed.

Lemma grows_perform_ok {A B} (x : A) (k : A → M B) b :
  grows P b (k x) → grows P b (bind (perform (Ok x)) k).
Proof. intros Hk s. apply Hk. Qed.

Lemma grows_log_error source error b : grows P b (log_error source error).
Proof. by apply grows_still. Qed.

Lemma grows_log_success source count b : grows P b (log_success source count).
Proof. by apply grows_still. Qed.

Lemma grows_get_items b : grows P b get_items.
Proof. by apply grows_still. Qed.

Lemma grows_append itm : P itm → grows P 1 (append itm).
Proof. intros Hitm s. exists [itm]. repeat split; [done|by constructor]. Qed.

Lemma grows_extend itms b :
  (length itms ≤ b)%nat → Forall P itms → grows P b (extend itms).
Proof. intros Hlen Hall s. by exists itms. Qed.

Lemma grows_bind {A B} (m : M A) (k : A → M B) b1 b2 :
  grows P b1 m → (∀ a, grows P b2 (k a)) → grows P (b1 + b2) (bind m k).
Proof.
  intros Hm Hk s. unfold bind. destruct (Hm s) as (new1 & Heq1 & Hlen1 & Hall1).
  destruct (m s) as [[a|e] s1]; simpl in *.
  - destruct (Hk a s1) as (new2 & Heq2 & Hlen2 & Hall2).
    exists (new1 ++ new2). rewrite Heq2, Heq1, <- app_assoc, length_app.
    repeat split; [lia|by apply Forall_app].
  - exists new1. repeat split; auto. lia.
Qed.

Lemma grows_try_except {A} (m : M A) (h : string → M A) b1 b2 :
  grows P b1 m → (∀ e, grows P b2 (h e)) → grows P (b1 + b2) (try_except m h).
Proof.
  intros Hm Hh s. unfold try_except. destruct (Hm s) as (new1 & Heq1 & Hlen1 & Hall1).
  destruct (m s) as [[a|e] s1]; simpl in *.
  - exists new1. repeat split; auto. lia.
  - destruct (Hh e s1) as (new2 & Heq2 & Hlen2 & Hall2).
    exists (new1 ++ new2). rewrite Heq2, Heq1, <- app_assoc, length_app.
    repeat split; [lia|by apply Forall_app].
Qed.

Lemma grows_then {A B} (m : M A) (k : A → M B) b :
  grows P 0 m → (∀ a, grows P b (k a)) → grows P b (bind m k).
Proof. intros Hm Hk. by apply (grows_bind m k 0 b). Qed.

Lemma grows_before {A B} (m : M A) (k : A → M B) b :
  grows P b m → (∀ a, grows P 0 (k a)) → grows P b (bind m k).
Proof.
  intros Hm Hk. eapply grows_weaken; [|by apply (grows_bind m k b 0)]. lia.
Qed.

Lemma grows_guarded {A} (m : M A) (h : string → M A) b :
  grows P b m → (∀ e, grows P 0 (h e)) → grows P b (try_except m h).
Proof.
  intros Hm Hh. eapply grows_weaken; [|by apply (grows_try_except m h b 0)]. lia.
Qed.

Lemma grows_for_each_in {A} (l : list A) (body : A → M unit) (b : A → nat) :
  (∀ x, x ∈ l → grows P (b x) (body x)) →
  grows P (sum_list (map b l)) (for_each l body).
Proof.
  induction l as [|x l IH]; intros Hbody; simpl; [apply grows_ret|].
  apply grows_bind; [apply Hbody; left|].
  intros _. apply IH. intros y Hy. apply Hbody. by right.
Qed.

Lemma grows_for_each {A} (l : list A) (body : A → M unit) (b : A → nat) :
  (∀ x, grows P (b x) (body x)) →
  grows P (sum_list (map b l)) (for_each l body).
Proof. intros Hbody. apply grows_for_each_in. auto. Qed.

(** What a method built as [call (body ;;; get_items)] returns when it
    cannot raise. *)
Lemma fetched {A} (body : M A) b s :
  grows P b body → contained (call (body ;;; get_items)) →
  ∃ its s', call (body ;;; get_items) s = (Ok its, s')
    ∧ (length its ≤ b)%nat ∧ Forall P its.
Proof.
  intros Hgrows Hcall. destruct (Hcall s) as (its & s' & Hrun & _).
  exists its, s'. split; [done|]. revert Hrun. unfold call, bind, get_items.
  destruct (Hgrows {| tracker := tracker s; items := [] |}) as (new & Heq & Hlen & Hall).
  destruct (body _) as [[a|e] s1]; simpl in *; [|discriminate].
  intros [= <- _]. by rewrite Heq.
Qed.

End GrowthLemmas.

Section FetcherBounds.
Import Config Effects Effects.Notations World Discovery Fetching.

Lemma sum_list_const {A} (l : list A) (b : nat) :
  sum_list (map (λ _, b) l) = b * length l.
Proof. induction l as [|x l IH]; simpl; [lia|]. rewrite IH. lia. Qed.

Lemma article_candidate_filled w base a itm :
  article_candidate w base a = Some itm → filled itm.
Proof.
  unfold article_candidate.
  destruct (title_text a) as [t|]; [|discriminate].
  destruct (link_href a) as [href|]; [|discriminate].
  destruct (PyStr.strip t) as [|c t']; [discriminate|].
  destruct (if startswith_http href then href else urljoin w base href) as [|d l'];
    [discriminate|].
  simpl. intros [= <-]. by split.
Qed.

(** *** _extract_from_site *)

Lemma extract_body_grows w cfg :
  grows filled
    match site_articles w cfg with
    | Ok articles => length (firstn 5 articles)
    | Raise _ => 0
    end
    (try_except
       (articles <- perform (site_articles w cfg) ;;
        for_each (firstn 5 articles) (λ article,
          try_except
            (a <- perform article ;;
             match article_candidate w (site_url cfg) a with
             | Some itm => append itm
             | None => ret tt
             end)
            (λ e, log_error (site_url cfg) ("Article extraction: " +:+ e))) ;;;
        its <- get_items ;;
        log_success (site_url cfg) (length its))
       (λ e, log_error (site_url cfg) ("Site scrape: " +:+ e))).
Proof.
  destruct (site_articles w cfg) as [articles|e]; [|by apply grows_still].
  apply grows_guarded; [|intros; apply grows_log_error].
  apply grows_perform_ok.
  apply grows_before.
  - eapply grows_weaken; [|apply (grows_for_each filled _ _ (λ _, 1))].
    { rewrite sum_list_const. lia. }
    intros article. apply grows_guarded; [|intros; apply grows_log_error].
    apply grows_then; [apply grows_perform|]. intros a.
    destruct (article_candidate w (site_url cfg) a) as [itm|] eqn:Hitm.
    + apply grows_append. by eapply article_candidate_filled.
    + apply grows_ret.
  - intros _. apply grows_then; [apply grows_get_items|].
    intros its. apply grows_log_success.
Qed.

(** X21: [_extract_from_site] returns at most 5 items and never more than the
    page has article nodes, each with a non-empty title and a non-empty link;
    it returns no item at all when the page cannot be fetched. *)
Theorem extract_from_site_at_most_5 (w : world) (cfg : site_config) (s : frame) :
  ∃ its s', _extract_from_site w cfg s = (Ok its, s')
    ∧ (length its ≤ 5)%nat
    ∧ Forall filled its
    ∧ match site_articles w cfg with
      | Ok articles => (length its ≤ length articles)%nat
      | Raise _ => its = []
      end.
Proof.
  destruct (fetched filled _ _ s (extract_body_grows w cfg)
              (extract_from_site_contained w cfg)) as (its & s' & Hrun & Hlen & Hall).
  exists its, s'. split; [exact Hrun|].
  destruct (site_articles w cfg) as [articles|e].
  - rewrite length_firstn in Hlen. repeat split; [lia|done|lia].
  - destruct its; [|simpl in Hlen; lia]. repeat split; [simpl; lia|done].
Qed.

(** *** google_news *)

Lemma google_news_body_grows w :
  grows (from_google_news w) 50
    (for_each google_news_queries (λ query,
      try_except
        (let rss_url := google_news_rss_url query in
         feed <- perform (feedparser_parse w rss_url) ;;
         for_each (firstn 10 feed) (λ entry,
           e <- perform entry ;; append (candidate (fst e) (snd e))) ;;;
         log_success (google_news_source query) (length (firstn 10 feed)))
        (λ e, log_error (google_news_source query) e))).
Proof.
  eapply grows_weaken; [|apply (grows_for_each_in _ _ _ (λ _, 10))].
  { rewrite sum_list_const. simpl. lia. }
  intros query Hquery. cbv zeta.
  apply grows_guarded; [|intros; apply grows_log_error].
  destruct (feedparser_parse w (google_news_rss_url query)) as [feed|e] eqn:Hfeed;
    [|by apply grows_still].
  apply grows_perform_ok.
  apply grows_before; [|intros; apply grows_log_success].
  eapply grows_weaken; [|apply (grows_for_each_in _ _ _ (λ _, 1))].
  { rewrite sum_list_const, length_firstn. lia. }
  intros entry Hentry. destruct entry as [e|err]; [|by apply grows_still].
  apply grows_perform_ok.
  apply grows_append. exists query. split; [done|]. by exists feed, e.
Qed.

(** X22: [google_news] returns at most 50 items, and each of them is one of
    the first ten entries of the feed of one of its five searches. *)
Theorem google_news_at_most_50 (w : world) (s : frame) :
  ∃ its s', google_news w s = (Ok its, s')
    ∧ (length its ≤ 50)%nat
    ∧ Forall (from_google_news w) its.
Proof.
  exact (fetched _ _ _ s (google_news_body_grows w) (google_news_contained w)).
Qed.

(** *** _scrape_generic_tech_news *)

Lemma collect_cons_ok {A B} (x : A) (l : list A) (f : A → M (list B)) s ys s' :
  f x s = (Ok ys, s') →
  collect (x :: l) f s
  = match collect l f s' with
    | (Ok zs, s'') => (Ok (ys ++ zs), s'')
    | (Raise e, s'') => (Raise e, s'')
    end.
Proof.
  intros Hx. cbn [collect]. unfold bind. rewrite Hx.
  by destruct (collect l f s') as [[zs|e] s''].
Qed.

Lemma collect_cons_raise {A B} (x : A) (l : list A) (f : A → M (list B)) s e s' :
  f x s = (Raise e, s') → collect (x :: l) f s = (Raise e, s').
Proof. intros Hx. cbn [collect]. unfold bind. by rewrite Hx. Qed.

Lemma scrape_articles_spec w url articles s :
  ∃ r, collect articles (λ article,
         a <- perform article ;;
         ret (match article_candidate w url a with
              | Some itm => [itm]
              | None => []
              end)) s = (r, s)
    ∧ match r with
      | Ok its => (length its ≤ length articles)%nat ∧ Forall filled its
      | Raise _ => True
      end.
Proof.
  induction articles as [|article articles IH].
  { exists (Ok []). split; [reflexivity|]. split; [simpl; lia|constructor]. }
  destruct IH as (r & Hrun & Hr). destruct article as [a|e].
  - erewrite collect_cons_ok by reflexivity. rewrite Hrun.
    destruct r as [its|e]; [|by eexists].
    eexists. split; [reflexivity|]. destruct Hr as [Hlen Hall].
    destruct (article_candidate w url a) as [itm|] eqn:Hitm; simpl.
    + split; [lia|]. constructor; [by eapply article_candidate_filled|done].
    + split; [lia|done].
  - erewrite collect_cons_raise by reflexivity. by eexists.
Qed.

Lemma scrape_selectors_spec w url page selectors s :
  ∃ r, scrape_selectors w url page selectors s = (r, s)
    ∧ match r with
      | Ok its => (length its ≤ 3)%nat ∧ Forall filled its
      | Raise _ => True
      end.
Proof.
  induction selectors as [|selector rest IH]; cbn [scrape_selectors].
  { exists (Ok []). split; [reflexivity|]. split; [simpl; lia|constructor]. }
  destruct (page selector) as [|article articles] eqn:Hpage; [exact IH|].
  destruct (scrape_articles_spec w url (firstn 3 (article :: articles)) s)
    as (r & Hrun & Hr).
  exists r. split; [exact Hrun|]. destruct r as [its|e]; [|done].
  destruct Hr as [Hlen Hall]. rewrite length_firstn in Hlen. split; [lia|done].
Qed.

Lemma scrape_generic_body_grows w urls :
  grows filled (3 * length urls)
    (for_each urls (λ url,
      try_except
        (page <- perform (generic_page w url) ;;
         site_items <- scrape_selectors w url page generic_selectors ;;
         extend site_items ;;;
         log_success (generic_source url) (length site_items))
        (λ e, log_error (generic_source url) ("Scrape: " +:+ e)))).
Proof.
  eapply grows_weaken; [|apply (grows_for_each _ _ _ (λ _, 3))].
  { by rewrite sum_list_const. }
  intros url. apply grows_guarded; [|intros; apply grows_log_error].
  apply grows_then; [apply grows_perform|]. intros page s.
  unfold bind at 1.
  destruct (scrape_selectors_spec w url page generic_selectors s) as (r & -> & Hr).
  destruct r as [its|e].
  - destruct Hr as [Hlen Hall]. by exists its.
  - exists []. rewrite app_nil_r. repeat split; [simpl; lia|constructor].
Qed.

(** X23: [_scrape_generic_tech_news] returns at most three items per address
    it is given, each with a non-empty title and a non-empty link. *)
Theorem scrape_generic_at_most_3_per_url (w : world) (urls : list string) (s : frame) :
  ∃ its s', _scrape_generic_tech_news w urls s = (Ok its, s')
    ∧ (length its ≤ 3 * length urls)%nat
    ∧ Forall filled its.
Proof.
  exact (fetched _ _ _ s (scrape_generic_body_grows w urls)
           (scrape_generic_contained w urls)).
Qed.

(** *** reddit_scrape *)

Lemma reddit_body_grows w :
  grows (on_topic w) (sum_list (map (posts_of w) (firstn 5 reddit_subs)))
    (for_each (firstn 5 reddit_subs) (λ sub,
      try_except
        (let json_url := reddit_json_url sub in
         children <- perform (reddit_hot w json_url) ;;
         for_each children (λ post,
           p <- perform post ;;
           if PyStr.any_in reddit_keywords (lower w (fst p))
           then append (candidate (fst p) (snd p)) else ret tt) ;;;
         log_success (reddit_source sub) (length children))
        (λ e, log_error (reddit_source sub) e))).
Proof.
  apply grows_for_each. intros sub. cbv zeta. unfold posts_of.
  apply grows_guarded; [|intros; apply grows_log_error].
  destruct (reddit_hot w (reddit_json_url sub)) as [children|e];
    [|by apply grows_still].
  apply grows_perform_ok.
  apply grows_before; [|intros; apply grows_log_success].
  eapply grows_weaken; [|apply (grows_for_each _ _ _ (λ _, 1))].
  { rewrite sum_list_const. lia. }
  intros post. apply grows_then; [apply grows_perform|]. intros p.
  destruct (PyStr.any_in reddit_keywords (lower w (fst p))) eqn:Hkw.
  - by apply grows_append.
  - apply grows_ret.
Qed.

(** X24: [reddit_scrape] asks the first five subreddits only; every item it
    returns has a title containing one of its keywords, and it returns no more
    items than the listings it could fetch hold posts. *)
Theorem reddit_scrape_on_topic (w : world) (s : frame) :
  ∃ its s', reddit_scrape w s = (Ok its, s')
    ∧ (length its ≤ sum_list (map (posts_of w) (firstn 5 reddit_subs)))%nat
    ∧ Forall (on_topic w) its.
Proof.
  exact (fetched _ _ _ s (reddit_body_grows w) (reddit_scrape_contained w)).
Qed.

(** *** hackernews *)

Lemma hn_loop_spec w links s :
  (length (items s) < 10)%nat →
  for_each_until links (λ a,
    let title := PyStr.strip (fst a) in
    (if existsb (λ k, PyStr.contains (lower w k) (lower w title)) hn_keywords
     then append (candidate title (snd a)) else ret tt) ;;;
    its <- get_items ;;
    ret (10 <=? length its)%nat) s
  = (Ok tt, {| tracker := tracker s;
               items := firstn 10 (items s ++ map hn_candidate (List.filter (hn_match w) links)) |}).
Proof.
  revert s. induction links as [|a links IH]; intros s Hlen.
  - simpl. rewrite app_nil_r, firstn_all2 by lia. by destruct s.
  - cbn [for_each_until List.filter map]. cbv zeta. unfold bind at 1 2 3.
    fold (hn_match w a). destruct (hn_match w a) eqn:Hmatch.
    + unfold append at 1, get_items at 1, ret at 1. cbn [items tracker].
      destruct (10 <=? length (items s ++ [candidate (PyStr.strip (fst a)) (snd a)]))%nat
        eqn:Hfull.
      * apply Nat.leb_le in Hfull. rewrite length_app in Hfull. simpl in Hfull.
        unfold ret. f_equal. f_equal. cbn [map].
        change (hn_candidate a :: ?l) with ([hn_candidate a] ++ l).
        rewrite app_assoc, firstn_app.
        rewrite firstn_all2 by (rewrite length_app; simpl; lia).
        replace (10 - length (items s ++ [hn_candidate a])) with 0
          by (rewrite length_app; simpl; lia).
        by rewrite app_nil_r.
      * apply Nat.leb_gt in Hfull. rewrite IH by exact Hfull.
        cbn [items tracker map]. by rewrite <- app_assoc.
    + unfold ret at 1, get_items at 1, ret at 1.
      destruct (10 <=? length (items s))%nat eqn:Hfull;
        [apply Nat.leb_le in Hfull; lia|].
      by apply IH.
Qed.

Lemma hackernews_run w s :
  hackernews w s
  = (match hn_storylinks w with
     | Ok links => Ok (firstn 10 (map hn_candidate (List.filter (hn_match w) links)))
     | Raise e => Raise e
     end, {| tracker := tracker s; items := items s |}).
Proof.
  unfold hackernews, call. unfold bind at 1. unfold perform.
  destruct (hn_storylinks w) as [links|e]; [|reflexivity].
  unfold bind at 1. rewrite hn_loop_spec by (simpl; lia). reflexivity.
Qed.

(** X25: [hackernews] returns the first ten front-page links whose stripped
    title contains one of its keywords, in page order; a front page that cannot
    be fetched makes it raise.  Either way it leaves the error report alone. *)
Theorem hackernews_first_ten_matches (w : world) (s : frame) :
  fst (hackernews w s)
    = match hn_storylinks w with
      | Ok links => Ok (firstn 10 (map hn_candidate (List.filter (hn_match w) links)))
      | Raise e => Raise e
      end
  ∧ tracker (snd (hackernews w s)) = tracker s
  ∧ items (snd (hackernews w s)) = items s.
Proof. rewrite hackernews_run. by repeat split. Qed.

(** *** google_trends *)

Lemma trends_keyword_spec w kw s :
  kw ∈ trends_kw_list →
  ∃ qs, try_except
          (data <- perform (related_queries w kw) ;;
           match data with
           | Some (Some queries) => ret (firstn 5 queries)
           | _ => ret []
           end)
          (λ _, ret []) s = (Ok qs, s)
    ∧ (length qs ≤ 5)%nat
    ∧ Forall (from_trends w) qs.
Proof.
  intros Hin. unfold try_except, bind, perform.
  destruct (related_queries w kw) as [[[queries|]|]|e] eqn:Hkw;
    try (exists []; split; [reflexivity|]; split; [simpl; lia|constructor]).
  exists (firstn 5 queries). split; [reflexivity|].
  rewrite length_firstn. split; [lia|]. apply Forall_forall. intros q Hq.
  by exists kw, queries.
Qed.

Lemma trends_collect_spec w kws s :
  (∀ kw, kw ∈ kws → kw ∈ trends_kw_list) →
  ∃ qs, collect kws (λ kw,
          try_except
            (data <- perform (related_queries w kw) ;;
             match data with
             | Some (Some queries) => ret (firstn 5 queries)
             | _ => ret []
             end)
            (λ _, ret [])) s = (Ok qs, s)
    ∧ (length qs ≤ 5 * length kws)%nat
    ∧ Forall (from_trends w) qs.
Proof.
  induction kws as [|kw kws IH]; intros Hin.
  { exists []. split; [reflexivity|]. split; [simpl; lia|constructor]. }
  destruct IH as (zs & Hrun & Hlen & Hall).
  { intros k Hk. apply Hin. by right. }
  destruct (trends_keyword_spec w kw s) as (ys & Hrun1 & Hlen1 & Hall1).
  { apply Hin. by left. }
  cbn [collect]. unfold bind at 1. rewrite Hrun1. unfold bind at 1. rewrite Hrun.
  exists (ys ++ zs). split; [reflexivity|]. rewrite length_app. split; [simpl; lia|].
  by apply Forall_app.
Qed.

(** X26: [google_trends] always returns, without touching the error report:
    at most 15 queries, no query twice, each among the first five related
    queries of one of its three keywords. *)
Theorem google_trends_distinct_at_most_15 (w : world) (s : frame) :
  ∃ qs s', google_trends w s = (Ok qs, s')
    ∧ tracker s' = tracker s
    ∧ NoDup qs
    ∧ (length qs ≤ 15)%nat
    ∧ Forall (from_trends w) qs.
Proof.
  unfold google_trends, call. unfold bind at 1.
  destruct (trends_collect_spec w trends_kw_list
              {| tracker := tracker s; items := [] |}) as (qs & -> & Hlen & Hall);
    [done|].
  unfold ret. eexists _, _. split; [reflexivity|]. split; [done|].
  assert (Hsub : ∀ q, q ∈ elements (list_to_set qs : gset string) → q ∈ qs).
  { intros q Hq. apply elem_of_elements in Hq.
    by apply (proj1 (elem_of_list_to_set (C := gset string) q qs)). }
  split; [apply NoDup_elements|]. split.
  - etrans; [|exact Hlen].
    apply submseteq_length, NoDup_submseteq; [apply NoDup_elements|exact Hsub].
  - apply Forall_forall. intros q Hq. rewrite Forall_forall in Hall. auto.
Qed.

End FetcherBounds.
